(** * The WordPress source plugin: paged fetch and graph construction

    A shallow embedding of [packages/source-wordpress/index.js]:
    [ensureArrayData], [fetchPaged] with its work queue and event handlers,
    and [WordPressSource.apply] with the calls it makes on the node store.

    Conventions of the embedding.
    - JavaScript values that travel through the code (response bodies,
      records, ids) are the inductive type [value].  Numbers are the
      integers [Z]: remote ids, counts and page totals, printed in decimal
      (as the language prints integers below [10^21]); [NaN], which only
      [parseInt] produces here, is the [None] of [parseInt].  Strings are
      sequences of 8-bit characters.
    - An object of the remote data is an association list of its own
      properties in insertion order, each key bound once.  Members
      inherited from the built-in prototypes are not values of the model;
      the one method the source calls on a record, [hasOwnProperty], is
      modelled by [hasOwnProperty_call].  The property names the source
      reads from the data ([type], [id], [rest_base], ...) are names that
      no built-in prototype has, so those reads see own properties only.
    - The objects the code makes itself and indexes with keys taken from
      the data ([routes], [restBases.posts], [restBases.taxonomies],
      [refs]) go through the prototype chain: a read of [routes] that finds
      no own property finds what [Object.prototype] has ([route_of]), and
      an assignment under the key [__proto__] reaches the accessor of
      [Object.prototype] and replaces the prototype instead of adding a
      property ([assign], [forin_entries], [add_refs]).
    - A [throw] is the [Throw] case of [result]; a promise is its state
      [promise]; the asynchronous part of [fetchPaged] is a labelled step
      relation over [fetch_state].
    - The collaborators that are not part of the file ([axios.get],
      [JSON.parse], the store's [makeUid]) are section variables.  The work
      queue is the [better-queue] package: how it schedules, and what its
      [destroy] does, is not in the repository and is modelled from the
      specification (sections 4.2 and 5); the definitions concerned say
      so. *)

From Stdlib Require Import ZArith String Ascii List Bool Lia Permutation.
From Stdlib Require Import DecimalString DecimalPos DecimalZ.
Import ListNotations.
Open Scope string_scope.

Set Implicit Arguments.
Set Warnings "-register-all".

(** ** JavaScript values and exceptions *)

Inductive value : Type :=
| VUndefined
| VNull
| VBool (b : bool)
| VNum (z : Z)
| VStr (s : string)
| VArr (l : list value)
| VObj (props : list (string * value)).

(** What the code can throw or reject with.  [Error] is [new Error(message)];
    [TypeError] is raised by the language itself, its message is the engine's
    and carries no meaning here; [Reason] is a rejection with a plain string,
    as the [task_failed] handler of [fetchPaged] produces. *)
Inductive exn : Type :=
| Error (message : string)
| TypeError (message : string)
| Reason (text : string).

Inductive result (A : Type) : Type :=
| Ok (a : A)
| Throw (e : exn).
Arguments Ok {A} a.
Arguments Throw {A} e.

Definition bind {A B} (r : result A) (k : A -> result B) : result B :=
  match r with
  | Ok a => k a
  | Throw e => Throw e
  end.

Notation "x <- r ;; k" := (bind r (fun x => k))
  (at level 61, r at next level, right associativity).

(** ** Strings *)

Definition string_of_Z (z : Z) : string := NilZero.string_of_int (Z.to_int z).
Definition string_of_nat (n : nat) : string := NilZero.string_of_uint (Nat.to_uint n).

Fixpoint join (sep : string) (l : list string) : string :=
  match l with
  | [] => ""
  | [s] => s
  | s :: rest => s ++ sep ++ join sep rest
  end.

(** White space and line terminators among the 8-bit characters
    (tab, line feed, vertical tab, form feed, carriage return, space). *)
Definition is_space (c : ascii) : bool :=
  let n := nat_of_ascii c in
  ((9 <=? n) && (n <=? 13) || (n =? 32))%nat.

Fixpoint trim_start (s : string) : string :=
  match s with
  | String c r => if is_space c then trim_start r else s
  | EmptyString => s
  end.

Fixpoint rev_string (s acc : string) : string :=
  match s with
  | String c r => rev_string r (String c acc)
  | EmptyString => acc
  end.

Definition trim_end (s : string) : string :=
  rev_string (trim_start (rev_string s "")) "".

(** [String.prototype.trim] *)
Definition trim (s : string) : string := trim_end (trim_start s).

Definition digit_of (c : ascii) : option Z :=
  let n := nat_of_ascii c in
  if ((48 <=? n) && (n <=? 57))%nat then Some (Z.of_nat (n - 48)) else None.

(** The longest prefix of decimal digits, read as a number; [acc] is [None]
    until a digit has been seen. *)
Fixpoint leading_digits (s : string) (acc : option Z) : option Z :=
  match s with
  | String c r =>
      match digit_of c with
      | Some d =>
          leading_digits r
            (Some (10 * (match acc with Some a => a | None => 0 end) + d)%Z)
      | None => acc
      end
  | EmptyString => acc
  end.

(** [ToString] on the values of the model.  An array joins the strings of
    its elements with commas, [null] and [undefined] elements giving the
    empty string. *)
Fixpoint ToString (v : value) : string :=
  match v with
  | VUndefined => "undefined"
  | VNull => "null"
  | VBool true => "true"
  | VBool false => "false"
  | VNum z => string_of_Z z
  | VStr s => s
  | VArr l =>
      join ","
        (map (fun x => match x with
                       | VUndefined | VNull => ""
                       | _ => ToString x
                       end) l)
  | VObj _ => "[object Object]"
  end.

(** [parseInt(v, 10)]: [None] is [NaN]. *)
Definition parseInt (v : value) : option Z :=
  match trim_start (ToString v) with
  | String "-" r => option_map Z.opp (leading_digits r None)
  | String "+" r => leading_digits r None
  | r => leading_digits r None
  end.

(** Truthiness, as [!x] and [x ? a : b] test it. *)
Definition truthy (v : value) : bool :=
  match v with
  | VUndefined | VNull => false
  | VBool b => b
  | VNum z => negb (z =? 0)%Z
  | VStr s => negb (s =? "")
  | VArr _ | VObj _ => true
  end.

Definition exn_toString (e : exn) : string :=
  match e with
  | Error m => if m =? "" then "Error" else "Error: " ++ m
  | TypeError m => if m =? "" then "TypeError" else "TypeError: " ++ m
  | Reason s => s
  end.

(** ** Objects as association lists *)

Fixpoint lookup {A} (k : string) (l : list (string * A)) : option A :=
  match l with
  | [] => None
  | (k', a) :: rest => if k' =? k then Some a else lookup k rest
  end.

(** [o[k] = a]: an existing key keeps its place, a new key goes last. *)
Fixpoint obj_set {A} (k : string) (a : A) (l : list (string * A)) : list (string * A) :=
  match l with
  | [] => [(k, a)]
  | (k', a') :: rest =>
      if k' =? k then (k', a) :: rest else (k', a') :: obj_set k a rest
  end.

(** An array index is the canonical decimal string of a number below
    [2^32 - 1]. *)
Definition array_index (k : string) : option Z :=
  match leading_digits k None with
  | Some z =>
      if (string_of_Z z =? k) && (z <? 4294967295)%Z then Some z else None
  | None => None
  end.

Fixpoint insert_index (e : Z * string) (l : list (Z * string)) : list (Z * string) :=
  match l with
  | [] => [e]
  | e' :: rest =>
      if (fst e <=? fst e')%Z then e :: l else e' :: insert_index e rest
  end.

(** The element at an array index, when there is one. *)
Definition element {A} (l : list A) (i : Z) : option A :=
  if (i <? Z.of_nat (List.length l))%Z then nth_error l (Z.to_nat i) else None.

(** Own keys in enumeration order: array indices ascending, then the other
    keys in insertion order. *)
Definition own_keys {A} (l : list (string * A)) : list string :=
  let ks := map fst l in
  let idx :=
    fold_right
      (fun k acc => match array_index k with
                    | Some n => insert_index (n, k) acc
                    | None => acc
                    end) [] ks in
  map snd idx ++ filter (fun k => match array_index k with Some _ => false | None => true end) ks.

Fixpoint chars (s : string) : list string :=
  match s with
  | String c r => String c "" :: chars r
  | EmptyString => []
  end.

(** The keys a [for (k in v)] loop visits. *)
Definition forin_keys (v : value) : list string :=
  match v with
  | VObj props => own_keys props
  | VArr l => map string_of_nat (seq 0 (List.length l))
  | VStr s => map string_of_nat (seq 0 (String.length s))
  | _ => []
  end.

(** Own property lookup, [None] when [k] is not an own property. *)
Definition own_property (v : value) (k : string) : option value :=
  match v with
  | VObj props => lookup k props
  | VArr l =>
      if k =? "length" then Some (VNum (Z.of_nat (List.length l)))
      else match array_index k with
           | Some n => element l n
           | None => None
           end
  | VStr s =>
      if k =? "length" then Some (VNum (Z.of_nat (String.length s)))
      else match array_index k with
           | Some n => option_map VStr (element (chars s) n)
           | None => None
           end
  | _ => None
  end.

(** [v.k] and [v[k]] for a data property: reading a property of [null] or
    [undefined] throws, a property that is not there is [undefined]. *)
Definition get (v : value) (k : string) : result value :=
  match v with
  | VUndefined | VNull =>
      Throw (TypeError ("Cannot read properties of " ++ ToString v))
  | _ =>
      match own_property v k with
      | Some x => Ok x
      | None => Ok VUndefined
      end
  end.

(** [v.k] for a [v] that is neither [null] nor [undefined]: the own
    property, [undefined] when there is none. *)
Definition read (v : value) (k : string) : value :=
  match own_property v k with
  | Some x => x
  | None => VUndefined
  end.

(** Whether [k] is among the own keys. *)
Definition has_own {A} (k : string) (l : list (string * A)) : bool :=
  match lookup k l with
  | Some _ => true
  | None => false
  end.

(** ** Objects made by an object literal

    [{}] and [{ ...routes }] make objects whose prototype is
    [Object.prototype].  These are its property names: functions of the
    language, and the accessor [__proto__]. *)
Definition Object_prototype_names : list string :=
  ["constructor"; "__defineGetter__"; "__defineSetter__"; "hasOwnProperty";
   "__lookupGetter__"; "__lookupSetter__"; "isPrototypeOf";
   "propertyIsEnumerable"; "toString"; "valueOf"; "__proto__"; "toLocaleString"].

(** The prototype of such an object: [Object.prototype] until an
    assignment to [__proto__] replaces it, by [null] or by an object or
    array of the remote data. *)
Inductive prototype : Type :=
| Object_prototype
| Null_prototype
| Data_prototype (p : value).

Record object : Type := {
  own : list (string * value);
  proto : prototype
}.

(** [{}] *)
Definition new_object : object := {| own := []; proto := Object_prototype |}.

(** Whether an assignment [o.__proto__ = v] finds the accessor of
    [Object.prototype]: [o] has no own property of that name, and neither
    has an object that was made its prototype; below [null] there is
    nothing to find. *)
Definition finds_proto_setter (o : object) : bool :=
  negb (has_own "__proto__" (own o)) &&
  match proto o with
  | Object_prototype => true
  | Null_prototype => false
  | Data_prototype p =>
      match own_property p "__proto__" with
      | Some _ => false
      | None => true
      end
  end.

(** [o[k] = v].  Every property the key can meet on the prototype chain is
    a writable data property, which the assignment shadows with an own
    property, but for the accessor [__proto__]: its setter makes an object,
    an array or [null] the prototype of [o], ignores any other value, and
    adds no property. *)
Definition assign (k : string) (v : value) (o : object) : object :=
  if (k =? "__proto__") && finds_proto_setter o
  then match v with
       | VObj _ | VArr _ => {| own := own o; proto := Data_prototype v |}
       | VNull => {| own := own o; proto := Null_prototype |}
       | _ => o
       end
  else {| own := obj_set k v (own o); proto := proto o |}.

(** What [for (k in o)] visits and what [o[k]] then reads: the own keys,
    then the enumerable keys of a prototype taken from the data that no own
    key shadows; [Object.prototype] has no enumerable property. *)
Definition forin_entries (o : object) : list (string * value) :=
  (map (fun k => (k, match lookup k (own o) with
                     | Some v => v
                     | None => VUndefined
                     end)) (own_keys (own o)) ++
   match proto o with
   | Data_prototype p =>
       map (fun k => (k, read p k))
         (filter (fun k => negb (has_own k (own o))) (forin_keys p))
   | _ => []
   end)%list.

(** [v.hasOwnProperty(k)].  The method is inherited; a record that carries
    an own data property of that name shadows it with something that cannot
    be called. *)
Definition hasOwnProperty_call (v : value) (k : string) : result bool :=
  match v with
  | VUndefined | VNull =>
      Throw (TypeError ("Cannot read properties of " ++ ToString v))
  | _ =>
      match own_property v "hasOwnProperty" with
      | Some _ => Throw (TypeError "hasOwnProperty is not a function")
      | None =>
          Ok (match own_property v k with Some _ => true | None => false end)
      end
  end.

(** What [for (x of v)] and the spread [...v] iterate. *)
Definition iterate (v : value) : result (list value) :=
  match v with
  | VArr l => Ok l
  | VStr s => Ok (map VStr (chars s))
  | _ => Throw (TypeError (ToString v ++ " is not iterable"))
  end.

(** ** A reference [JSON.parse]

    The development is stated for any parser (the section variable
    [JSON_parse] below).  [json_parse] is the instance the worked examples
    run on: the JSON grammar over the values of the model.  Numerals are
    integers; a numeral with a fraction or an exponent has no value in the
    model and is not accepted.  Characters are compared by code: 34 is the
    double quote, 92 the backslash. *)

Definition code (c : ascii) : nat := nat_of_ascii c.

Definition json_space (c : ascii) : bool :=
  let n := code c in
  ((n =? 32) || (n =? 9) || (n =? 10) || (n =? 13))%nat.

Fixpoint skip_space (s : string) : string :=
  match s with
  | String c r => if json_space c then skip_space r else s
  | EmptyString => s
  end.

Definition hex_of (c : ascii) : option nat :=
  let n := code c in
  if ((48 <=? n) && (n <=? 57))%nat then Some (n - 48)%nat
  else if ((65 <=? n) && (n <=? 70))%nat then Some (n - 55)%nat
  else if ((97 <=? n) && (n <=? 102))%nat then Some (n - 87)%nat
  else None.

(** The UTF-8 bytes of a code unit given by a [\uXXXX] escape. *)
Definition utf8 (u : nat) (rest : string) : string :=
  if (u <? 128)%nat then String (ascii_of_nat u) rest
  else if (u <? 2048)%nat then
    String (ascii_of_nat (192 + u / 64)) (String (ascii_of_nat (128 + u mod 64)) rest)
  else
    String (ascii_of_nat (224 + u / 4096))
      (String (ascii_of_nat (128 + (u / 64) mod 64))
         (String (ascii_of_nat (128 + u mod 64)) rest)).

(** The characters of a string literal after its opening quote, up to the
    closing one; [acc] holds what was read, reversed. *)
Fixpoint parse_string_body (s acc : string) : option (string * string) :=
  match s with
  | EmptyString => None
  | String c r =>
      if (code c =? 34)%nat then Some (rev_string acc "", r)
      else if (code c =? 92)%nat then
        match r with
        | String e r' =>
            let n := code e in
            if ((n =? 34) || (n =? 92) || (n =? 47))%nat then parse_string_body r' (String e acc)
            else if (n =? 98)%nat then parse_string_body r' (String (ascii_of_nat 8) acc)
            else if (n =? 102)%nat then parse_string_body r' (String (ascii_of_nat 12) acc)
            else if (n =? 110)%nat then parse_string_body r' (String (ascii_of_nat 10) acc)
            else if (n =? 114)%nat then parse_string_body r' (String (ascii_of_nat 13) acc)
            else if (n =? 116)%nat then parse_string_body r' (String (ascii_of_nat 9) acc)
            else if (n =? 117)%nat then
              match r' with
              | String h1 (String h2 (String h3 (String h4 r''))) =>
                  match hex_of h1, hex_of h2, hex_of h3, hex_of h4 with
                  | Some a, Some b, Some c', Some d =>
                      parse_string_body r''
                        (rev_string (utf8 (((a * 16 + b) * 16 + c') * 16 + d) "") acc)
                  | _, _, _, _ => None
                  end
              | _ => None
              end
            else None
        | EmptyString => None
        end
      else if (code c <? 32)%nat then None
      else parse_string_body r (String c acc)
  end.

(** An integer numeral: an optional minus, then [0] or a digit string that
    does not start with [0]; nothing of a fraction or exponent may follow. *)
Fixpoint digits_prefix (s : string) (acc : Z) : Z * string :=
  match s with
  | String c r =>
      match digit_of c with
      | Some d => digits_prefix r (10 * acc + d)%Z
      | None => (acc, s)
      end
  | EmptyString => (acc, s)
  end.

Definition no_fraction (s : string) : bool :=
  match s with
  | String c _ =>
      let n := code c in negb ((n =? 46) || (n =? 69) || (n =? 101))%nat
  | EmptyString => true
  end.

Definition parse_natural (s : string) : option (Z * string) :=
  match s with
  | String c r =>
      match digit_of c with
      | Some 0%Z =>
          match r with
          | String c' _ =>
              match digit_of c' with
              | Some _ => None
              | None => if no_fraction r then Some (0%Z, r) else None
              end
          | EmptyString => Some (0%Z, r)
          end
      | Some d =>
          let '(z, r') := digits_prefix r d in
          if no_fraction r' then Some (z, r') else None
      | None => None
      end
  | EmptyString => None
  end.

Definition parse_number (s : string) : option (value * string) :=
  match s with
  | String c r =>
      if (code c =? 45)%nat then
        match parse_natural r with
        | Some (z, r') => Some (VNum (- z), r')
        | None => None
        end
      else
        match parse_natural s with
        | Some (z, r') => Some (VNum z, r')
        | None => None
        end
  | EmptyString => None
  end.

Definition expect (word : string) (v : value) (s : string) : option (value * string) :=
  if prefix word s
  then Some (v, substring (String.length word) (String.length s) s)
  else None.

Fixpoint parse_value (fuel : nat) (s : string) : option (value * string) :=
  match fuel with
  | O => None
  | S f =>
      match skip_space s with
      | EmptyString => None
      | String c r as s' =>
          let n := code c in
          if (n =? 110)%nat then expect "null" VNull s'
          else if (n =? 116)%nat then expect "true" (VBool true) s'
          else if (n =? 102)%nat then expect "false" (VBool false) s'
          else if (n =? 34)%nat then
            match parse_string_body r "" with
            | Some (str, r') => Some (VStr str, r')
            | None => None
            end
          else if (n =? 91)%nat then
            match skip_space r with
            | String c' r' as r0 =>
                if (code c' =? 93)%nat then Some (VArr [], r')
                else
                  (fix elements (k : nat) (acc : list value) (t : string) :=
                     match k with
                     | O => None
                     | S k' =>
                         match parse_value f t with
                         | Some (v, t') =>
                             match skip_space t' with
                             | String d t'' =>
                                 if (code d =? 44)%nat then elements k' (v :: acc) t''
                                 else if (code d =? 93)%nat
                                      then Some (VArr (rev (v :: acc)), t'')
                                      else None
                             | EmptyString => None
                             end
                         | None => None
                         end
                     end) (String.length s) [] r0
            | EmptyString => None
            end
          else if (n =? 123)%nat then
            match skip_space r with
            | String c' r' as r0 =>
                if (code c' =? 125)%nat then Some (VObj [], r')
                else
                  (fix members (k : nat) (acc : list (string * value)) (t : string) :=
                     match k with
                     | O => None
                     | S k' =>
                         match skip_space t with
                         | String q t1 =>
                             if (code q =? 34)%nat then
                               match parse_string_body t1 "" with
                               | Some (key, t2) =>
                                   match skip_space t2 with
                                   | String colon t3 =>
                                       if (code colon =? 58)%nat then
                                         match parse_value f t3 with
                                         | Some (v, t4) =>
                                             match skip_space t4 with
                                             | String d t5 =>
                                                 if (code d =? 44)%nat
                                                 then members k' (obj_set key v acc) t5
                                                 else if (code d =? 125)%nat
                                                      then Some (VObj (obj_set key v acc), t5)
                                                      else None
                                             | EmptyString => None
                                             end
                                         | None => None
                                         end
                                       else None
                                   | EmptyString => None
                                   end
                               | None => None
                               end
                             else None
                         | EmptyString => None
                         end
                     end) (String.length s) [] r0
            | EmptyString => None
            end
          else parse_number s'
      end
  end.

Definition json_parse (s : string) : option value :=
  match parse_value (S (String.length s)) s with
  | Some (v, r) => if skip_space r =? "" then Some v else None
  | None => None
  end.

(** ** Requests, options, promises *)

(** What [axios.get] resolves with, as far as the code reads it: the body
    (already decoded by the client when it could) and the headers. *)
Record response : Type := {
  data : value;
  headers : list (string * string)
}.

(** [res.headers[name]] *)
Definition header (res : response) (name : string) : value :=
  match lookup name (headers res) with
  | Some s => VStr s
  | None => VUndefined
  end.

(** The [options] argument of [fetchPaged]. *)
Record options : Type := {
  perPage : Z;
  concurrent : nat
}.

Inductive promise : Type :=
| Pending
| Resolved (v : value)
| Rejected (e : exn).

(** [resolve(v)] and [reject(e)] settle a pending promise and do nothing to
    a settled one. *)
Definition resolve (v : value) (p : promise) : promise :=
  match p with
  | Pending => Resolved v
  | _ => p
  end.

Definition reject (e : exn) (p : promise) : promise :=
  match p with
  | Pending => Rejected e
  | _ => p
  end.

Definition nl : string := String (ascii_of_nat 10) "".

(** [querystring.stringify] on an object whose values are numbers; the keys
    of the source ([per_page], [page]) and decimal numerals need no
    escaping. *)
Definition stringify (q : list (string * Z)) : string :=
  join "&" (map (fun kv => fst kv ++ "=" ++ string_of_Z (snd kv)) q).

Definition first_url (url : string) (o : options) : string :=
  url ++ "?" ++ stringify [("per_page", perPage o)].

Definition page_url (url : string) (o : options) (page : Z) : string :=
  url ++ "?" ++ stringify [("per_page", perPage o); ("page", page)].

(** The values [page] takes in [for (let page = 2; page <= totalPages; page++)];
    none when [totalPages] is [NaN]. *)
Definition pages (totalPages : option Z) : list Z :=
  match totalPages with
  | Some t => map (fun i => 2 + Z.of_nat i)%Z (seq 0 (Z.to_nat (t - 1)))
  | None => []
  end.

(** [!totalItems || totalPages <= 1] *)
Definition single_page (totalItems totalPages : option Z) : bool :=
  match totalItems with
  | None | Some 0%Z => true
  | Some _ =>
      match totalPages with
      | Some t => (t <=? 1)%Z
      | None => false
      end
  end.

Definition isArray (v : value) : bool :=
  match v with
  | VArr _ => true
  | _ => false
  end.

(** ** The state of one [fetchPaged] call

    [awaiting_first] holds until [await axios.get] of the first page has
    returned.  [queued] are the tasks pushed and not yet handed to
    [taskHandler], oldest first; [in_flight] are the requests sent and not
    yet answered; [issued] logs every request sent, oldest first. *)
Record fetch_state : Type := {
  awaiting_first : bool;
  settled : promise;
  res_data : value;
  queued : list string;
  in_flight : list string;
  destroyed : bool;
  issued : list string
}.

Definition set_settled (p : promise) (s : fetch_state) : fetch_state :=
  {| awaiting_first := awaiting_first s; settled := p; res_data := res_data s;
     queued := queued s; in_flight := in_flight s; destroyed := destroyed s;
     issued := issued s |}.

Definition set_res_data (v : value) (s : fetch_state) : fetch_state :=
  {| awaiting_first := awaiting_first s; settled := settled s; res_data := v;
     queued := queued s; in_flight := in_flight s; destroyed := destroyed s;
     issued := issued s |}.

Definition set_queued (l : list string) (s : fetch_state) : fetch_state :=
  {| awaiting_first := awaiting_first s; settled := settled s; res_data := res_data s;
     queued := l; in_flight := in_flight s; destroyed := destroyed s;
     issued := issued s |}.

Definition set_in_flight (l : list string) (s : fetch_state) : fetch_state :=
  {| awaiting_first := awaiting_first s; settled := settled s; res_data := res_data s;
     queued := queued s; in_flight := l; destroyed := destroyed s;
     issued := issued s |}.

(** Modelled from the spec: [queue.destroy()] of the [better-queue]
    package, whose code is not in the repository.  By the specification
    (4.2, 5) a queue that was torn down dispatches no further task and
    ignores the requests still in flight: the flag is tested by [step] and
    by [on_answer]. *)
Definition destroy (s : fetch_state) : fetch_state :=
  {| awaiting_first := awaiting_first s; settled := settled s; res_data := res_data s;
     queued := queued s; in_flight := in_flight s; destroyed := true;
     issued := issued s |}.

(** Modelled from the spec: a dispatch of the [better-queue] package (not in
    the repository).  The queue hands its oldest task to [taskHandler],
    which sends the request with [axios.get(task.id)]. *)
Definition dispatch (t : string) (rest : list string) (s : fetch_state) : fetch_state :=
  {| awaiting_first := awaiting_first s; settled := settled s; res_data := res_data s;
     queued := rest; in_flight := in_flight s ++ [t]; destroyed := destroyed s;
     issued := issued s ++ [t] |}.

Definition idle (s : fetch_state) : bool :=
  match queued s, in_flight s with
  | [], [] => true
  | _, _ => false
  end.

Section Source.

(** [JSON.parse]: [None] when it throws. *)
Variable JSON_parse : string -> option value.
(** The remote API as [axios.get] shows it: what a GET of each URL gives. *)
Variable axios_get : string -> result response.

(** *** [ensureArrayData] *)

Definition malformed_message (url body : string) : string :=
  "Failed to fetch " ++ url ++ nl ++
  "Expected JSON response but got:" ++ nl ++
  substring 0 150 (trim body) ++ "..." ++ nl.

Definition ensureArrayData (url : string) (data : value) : result value :=
  if isArray data then Ok data
  else
    match JSON_parse (ToString data) with
    | Some parsed => Ok parsed
    | None =>
        (* the catch block: [data] is still the body that was passed in *)
        match data with
        | VStr body => Throw (Error (malformed_message url body))
        | VUndefined | VNull =>
            Throw (TypeError ("Cannot read properties of " ++ ToString data))
        | _ => Throw (TypeError "data.trim is not a function")
        end
    end.

(** *** [fetchPaged] *)

(** The call up to its first [await]: the request for the first page is
    on the wire, the promise is pending. *)
Definition fetchPaged (url : string) (o : options) : fetch_state :=
  {| awaiting_first := true; settled := Pending; res_data := VUndefined;
     queued := []; in_flight := [first_url url o]; destroyed := false;
     issued := [first_url url o] |}.

(** The executor from the first [await] to its end.  When the request
    failed, [await] throws inside the [async] executor: that rejects the
    executor's own promise, which nobody holds, and neither [resolve] nor
    [reject] is reached. *)
Definition after_first (url : string) (o : options) (r : result response)
    (s : fetch_state) : fetch_state :=
  let s0 :=
    {| awaiting_first := false; settled := settled s; res_data := res_data s;
       queued := []; in_flight := []; destroyed := false; issued := issued s |} in
  match r with
  | Throw _ => s0
  | Ok res =>
      let totalItems := parseInt (header res "x-wp-total") in
      let totalPages := parseInt (header res "x-wp-totalpages") in
      match ensureArrayData url (data res) with
      | Throw err => set_settled (reject err (settled s0)) s0
      | Ok d =>
          if single_page totalItems totalPages
          then set_settled (resolve d (settled s0)) (set_res_data d s0)
          else set_queued (map (page_url url o) (pages totalPages)) (set_res_data d s0)
      end
  end.

(** [queue.on('task_failed', (id, err) => ...)] *)
Definition task_failed_reason (id : string) (err : exn) : exn :=
  Reason (id ++ " failed with error: " ++ exn_toString err).

Definition on_task_failed (id : string) (err : exn) (s : fetch_state) : fetch_state :=
  destroy (set_settled (reject (task_failed_reason id err) (settled s)) s).

(** [res.data.push(...ensureArrayData(id, data))], in evaluation order:
    the member [res.data.push], the argument, its spread, the call. *)
Definition push_page (acc : value) (id : string) (body : value) : result value :=
  match acc with
  | VUndefined | VNull =>
      Throw (TypeError ("Cannot read properties of " ++ ToString acc))
  | _ =>
      d <- ensureArrayData id body ;;
      items <- iterate d ;;
      match acc with
      | VArr l => Ok (VArr (l ++ items))
      | _ => Throw (TypeError "res.data.push is not a function")
      end
  end.

(** [queue.on('task_finish', (id, { data }) => ...)] *)
Definition on_task_finish (id : string) (body : value) (s : fetch_state) : fetch_state :=
  match push_page (res_data s) id body with
  | Ok acc => set_res_data acc s
  | Throw err => set_settled (reject err (settled s)) s
  end.

(** [queue.on('drain', () => ...)] *)
Definition on_drain (s : fetch_state) : fetch_state :=
  set_settled (resolve (res_data s) (settled s)) s.

(** [taskHandler(task, cb)], with [id] for [task.id]: what it hands to
    [cb] once the request is answered, [Ok] for [cb(null, response)] and
    [Throw] for [cb(err)]. *)
Definition taskHandler (id : string) : result response := axios_get id.

(** Modelled from the spec: the events of the [better-queue] package (not
    in the repository) when the answer [r] to request [t] has arrived and
    [t] has left [in_flight].  [taskHandler] reports the answer to the
    queue, which emits [task_finish] or [task_failed], and [drain] once
    nothing is queued or in flight (4.2); a destroyed queue ignores the
    answer (5).  The handlers called are the source's. *)
Definition on_answer (t : string) (r : result response) (s : fetch_state) : fetch_state :=
  if destroyed s then s
  else
    let s1 :=
      match r with
      | Ok res => on_task_finish t (data res) s
      | Throw err => on_task_failed t err s
      end in
    if negb (destroyed s1) && idle s1 then on_drain s1 else s1.

(** *** The steps of a fetch *)

(** Modelled from the spec: the scheduling of the [better-queue] package
    (not in the repository).  [step_dispatch] hands out the oldest queued
    task only while fewer than [concurrent] requests are unanswered and the
    queue is not destroyed (4.2: at most [concurrency] tasks run at a time;
    5: after a teardown no task is dispatched); [step_answer] lets any
    request in flight be answered next (4.2: no completion order is
    guaranteed).  [step_first] is the source's own first request. *)
Inductive step (url : string) (o : options) : fetch_state -> fetch_state -> Prop :=
| step_first : forall s,
    awaiting_first s = true ->
    step url o s (after_first url o (axios_get (first_url url o)) s)
| step_dispatch : forall s t rest,
    awaiting_first s = false ->
    destroyed s = false ->
    queued s = t :: rest ->
    List.length (in_flight s) < concurrent o ->
    step url o s (dispatch t rest s)
| step_answer : forall s before t after,
    awaiting_first s = false ->
    in_flight s = (before ++ t :: after)%list ->
    step url o s (on_answer t (taskHandler t) (set_in_flight (before ++ after)%list s)).

Inductive steps (url : string) (o : options) : fetch_state -> fetch_state -> Prop :=
| steps_refl : forall s, steps url o s s
| steps_step : forall s s' s'',
    step url o s s' -> steps url o s' s'' -> steps url o s s''.

(** Nothing more can happen. *)
Definition finished (url : string) (o : options) (s : fetch_state) : Prop :=
  forall s', ~ step url o s s'.

(** The states a call of [fetchPaged url o] can be in. *)
Definition reachable (url : string) (o : options) (s : fetch_state) : Prop :=
  steps url o (fetchPaged url o) s.

(** A schedule chosen move by move: which request is answered next, and
    when the queue dispatches.  A move that is not possible ends the play. *)
Inductive move : Type :=
| First
| Dispatch
| Answer (i : nat).

Definition play_move (url : string) (o : options) (m : move) (s : fetch_state)
    : option fetch_state :=
  match m with
  | First =>
      if awaiting_first s
      then Some (after_first url o (axios_get (first_url url o)) s)
      else None
  | Dispatch =>
      if awaiting_first s || destroyed s then None
      else
        match queued s with
        | t :: rest =>
            if (List.length (in_flight s) <? concurrent o)%nat
            then Some (dispatch t rest s)
            else None
        | [] => None
        end
  | Answer i =>
      if awaiting_first s then None
      else
        match nth_error (in_flight s) i with
        | Some t =>
            Some (on_answer t (taskHandler t)
                    (set_in_flight (firstn i (in_flight s) ++ skipn (S i) (in_flight s)) s))
        | None => None
        end
  end.

Fixpoint play (url : string) (o : options) (moves : list move) (s : fetch_state)
    : fetch_state :=
  match moves with
  | [] => s
  | m :: rest =>
      match play_move url o m s with
      | Some s' => play url o rest s'
      | None => s
      end
  end.

(** What [await fetchPaged(url, o)] meets: the promise of a fetch that has
    run to its end.  [Pending] there means the [await] never returns. *)
Definition fetch_ends (url : string) (o : options) (p : promise) : Prop :=
  exists s, reachable url o s /\ finished url o s /\ settled s = p.

(** *** [WordPressSource.apply] *)

(** The store's [makeUid]. *)
Variable makeUid : string -> string.

(** [this.options], as far as [apply] reads them. *)
Record plugin_options : Type := {
  baseUrl : string;
  opt_perPage : Z;
  opt_concurrent : nat;
  routes : list (string * value)
}.

(** The node objects handed to [addNode]: [date] is [None] for [null] and
    [Some d] for [new Date(d)]; [content] and [excerpt], and [count], are
    the members of [fields]; [refs] are the own properties of the object
    [refs], in order. *)
Inductive node : Type :=
| PostNode (_id : string) (title : value) (date : option value) (slug : value)
           (content excerpt : value) (refs : list (string * list string))
| TermNode (_id : string) (slug title count : value).

(** What [routes[typeName]] evaluates to: a value of the configuration or
    of the defaults, or, for a name that only [Object.prototype] has, what
    is found there (a function of the language; the prototype itself for
    [__proto__]). *)
Inductive route : Type :=
| Route (v : value)
| Inherited (name : string).
Coercion Route : value >-> route.

(** The calls on [this.source]. *)
Inductive call : Type :=
| addType (typeName : string) (name : value) (route : route)
| addNode (typeKey : value) (n : node).

Definition makePostId (id : value) : string := makeUid ("post-" ++ ToString id).
Definition makeTermId (id : value) : string := makeUid ("term-" ++ ToString id).

Fixpoint drop_slashes (s : string) : string :=
  match s with
  | String c r => if (code c =? 47)%nat then drop_slashes r else s
  | EmptyString => s
  end.

(** [baseUrl.replace(/\/+$/, '')] followed by the REST prefix. *)
Definition restUrl (baseUrl : string) : string :=
  rev_string (drop_slashes (rev_string baseUrl "")) "" ++ "/wp-json/wp/v2".

(** The default routes, overridden by the configured ones. *)
Definition merged_routes (custom : list (string * value)) : list (string * value) :=
  fold_left
    (fun acc k => match lookup k custom with
                  | Some r => obj_set k r acc
                  | None => acc
                  end)
    (own_keys custom)
    [("post", VStr "/:year/:month/:day/:slug");
     ("post_tag", VStr "/tag/:slug");
     ("category", VStr "/category/:slug")].

(** [routes[typeName]]: the own property, else what [Object.prototype]
    has under that name, else [undefined]. *)
Definition route_of (routes : list (string * value)) (typeName : string) : route :=
  match lookup typeName routes with
  | Some r => Route r
  | None =>
      if existsb (String.eqb typeName) Object_prototype_names
      then Inherited typeName
      else Route VUndefined
  end.

(** The value listed under [k], [undefined] when there is none: what
    [o[k]] reads for a key [k] that a [for (k in o)] has visited, and what
    [o.k] reads for a name [k] that no prototype has. *)
Definition member (o : list (string * value)) (k : string) : value :=
  match lookup k o with
  | Some v => v
  | None => VUndefined
  end.

(** Code that calls the store and may throw: the calls made so far, and
    the result. *)
Definition emit (A : Type) : Type := (list call * result A)%type.

Definition ret {A} (a : A) : emit A := ([], Ok a).
Definition tell (c : call) : emit unit := ([c], Ok tt).
Definition lift {A} (r : result A) : emit A := ([], r).
Definition bindE {A B} (m : emit A) (k : A -> emit B) : emit B :=
  match m with
  | (cs, Ok a) => let '(cs', r) := k a in ((cs ++ cs')%list, r)
  | (cs, Throw e) => (cs, Throw e)
  end.

(** One of the two registration loops over the discovered types:
    [for (const typeName in types)], skipping [attachment] in the first.
    [rb] is [restBases.posts] (or [restBases.taxonomies]) so far. *)
Fixpoint register (skip_attachment : bool) (rs : list (string * value))
    (types : value) (keys : list string) (rb : object)
    : emit object :=
  match keys with
  | [] => ret rb
  | typeName :: rest =>
      bindE (lift (get types typeName)) (fun opts =>
      if skip_attachment && (typeName =? "attachment")
      then register skip_attachment rs types rest rb
      else
        bindE (lift (get opts "rest_base")) (fun rest_base =>
        bindE (lift (get opts "name")) (fun name =>
        bindE (tell (addType typeName name (route_of rs typeName))) (fun _ =>
        register skip_attachment rs types rest (assign typeName rest_base rb)))))
  end.

(** The property name a taxonomy's references are stored under on a post:
    [restBases.taxonomies[typeName]], used as a property key.
    [taxonomies] is [restBases.taxonomies] as a loop over it sees it: the
    keys visited, in order, each with the value read under it. *)
Definition propName (taxonomies : list (string * value)) (typeName : string) : string :=
  ToString (member taxonomies typeName).

(** The inner loop of the post loop: [refs] after the taxonomies [keys].
    [refs] is made by [{}]: the assignment [refs[typeName] = ...] adds or
    updates an own property, but under the key [__proto__], where it
    reaches the accessor of [Object.prototype], makes the array the
    prototype of [refs] and leaves the own properties as they are. *)
Fixpoint add_refs (taxonomies : list (string * value)) (post : value)
    (keys : list string) (refs : list (string * list string))
    : result (list (string * list string)) :=
  match keys with
  | [] => Ok refs
  | typeName :: rest =>
      has <- hasOwnProperty_call post (propName taxonomies typeName) ;;
      if (has : bool) then
        v <- get post (propName taxonomies typeName) ;;
        match v with
        | VArr ids =>
            add_refs taxonomies post rest
              (if typeName =? "__proto__" then refs
               else obj_set typeName (map makeTermId ids) refs)
        | _ => Throw (TypeError "post[propName].map is not a function")
        end
      else add_refs taxonomies post rest refs
  end.

Definition build_refs (taxonomies : list (string * value)) (post : value)
    : result (list (string * list string)) :=
  add_refs taxonomies post (map fst taxonomies) [].

(** [x ? x.rendered : ''] *)
Definition rendered (x : value) : result value :=
  if truthy x then get x "rendered" else Ok (VStr "").

(** The body of [for (const post of posts)]: the call it makes. *)
Definition post_call (taxonomies : list (string * value)) (post : value) : result call :=
  refs <- build_refs taxonomies post ;;
  type <- get post "type" ;;
  id <- get post "id" ;;
  title <- get post "title" ;;
  title' <- rendered title ;;
  date <- get post "date" ;;
  slug <- get post "slug" ;;
  content <- get post "content" ;;
  content' <- rendered content ;;
  excerpt <- get post "excerpt" ;;
  excerpt' <- rendered excerpt ;;
  Ok (addNode type
        (PostNode (makePostId id) title'
           (if truthy date then Some date else None) slug content' excerpt' refs)).

(** The body of [for (const term of terms)]. *)
Definition term_call (term : value) : result call :=
  taxonomy <- get term "taxonomy" ;;
  id <- get term "id" ;;
  slug <- get term "slug" ;;
  name <- get term "name" ;;
  count <- get term "count" ;;
  Ok (addNode taxonomy (TermNode (makeTermId id) slug name count)).

(** A [for ... of] loop over fetched records, one call per record, up to
    the first record that throws. *)
Fixpoint emit_records (body : value -> result call) (records : list value) : emit unit :=
  match records with
  | [] => ret tt
  | r :: rest =>
      bindE (lift (body r)) (fun c =>
      bindE (tell c) (fun _ => emit_records body rest))
  end.

Definition for_of (body : value -> result call) (fetched : value) : emit unit :=
  bindE (lift (iterate fetched)) (emit_records body).

(** How a run of [apply] ends. *)
Inductive outcome : Type :=
| Done
| Failed (e : exn)
| Hung.

(** The two loops over [restBases]: each endpoint is fetched to its end
    and its records are emitted before the next endpoint starts. *)
Inductive run_endpoints (o : options) (body : value -> result call)
    : list string -> list call -> outcome -> Prop :=
| endpoints_done :
    run_endpoints o body [] [] Done
| endpoint_emitted : forall url rest fetched calls calls' out,
    fetch_ends url o (Resolved fetched) ->
    for_of body fetched = (calls, Ok tt) ->
    run_endpoints o body rest calls' out ->
    run_endpoints o body (url :: rest) (calls ++ calls')%list out
| endpoint_threw : forall url rest fetched calls e,
    fetch_ends url o (Resolved fetched) ->
    for_of body fetched = (calls, Throw e) ->
    run_endpoints o body (url :: rest) calls (Failed e)
| endpoint_rejected : forall url rest e,
    fetch_ends url o (Rejected e) ->
    run_endpoints o body (url :: rest) [] (Failed e)
| endpoint_hung : forall url rest,
    fetch_ends url o Pending ->
    run_endpoints o body (url :: rest) [] Hung.

(** The endpoints of [restBases.posts] (or [.taxonomies]), in loop order;
    [rb] is the object as the loop sees it. *)
Definition endpoints (base : string) (rb : list (string * value)) : list string :=
  map (fun typeName => base ++ "/" ++ ToString (member rb typeName)) (map fst rb).

(** [apply] up to the first [fetchPaged]: the reachability check, the two
    listings, the two registration loops.  The result is [restBases] as the
    loops that follow see it. *)
Definition discover (cfg : plugin_options)
    : emit (list (string * value) * list (string * value)) :=
  let base := restUrl (baseUrl cfg) in
  match axios_get base with
  | Throw _ => lift (Throw (Error ("Failed to fetch baseUrl " ++ baseUrl cfg)))
  | Ok _ =>
      bindE (lift (axios_get (base ++ "/types"))) (fun r1 =>
      bindE (lift (axios_get (base ++ "/taxonomies"))) (fun r2 =>
      let rs := merged_routes (routes cfg) in
      bindE (register true rs (data r1) (forin_keys (data r1)) new_object) (fun posts =>
      bindE (register false rs (data r2) (forin_keys (data r2)) new_object) (fun taxonomies =>
      ret (forin_entries posts, forin_entries taxonomies)))))
  end.

(** A run of [apply]: the calls made on the store, in order, and how the
    run ended. *)
Inductive apply (cfg : plugin_options) : list call -> outcome -> Prop :=
| apply_discovery_failed : forall calls e,
    discover cfg = (calls, Throw e) ->
    apply cfg calls (Failed e)
| apply_posts_stopped : forall calls posts taxonomies calls1 out,
    discover cfg = (calls, Ok (posts, taxonomies)) ->
    run_endpoints {| perPage := opt_perPage cfg; concurrent := opt_concurrent cfg |}
      (post_call taxonomies) (endpoints (restUrl (baseUrl cfg)) posts) calls1 out ->
    out <> Done ->
    apply cfg (calls ++ calls1)%list out
| apply_terms : forall calls posts taxonomies calls1 calls2 out,
    discover cfg = (calls, Ok (posts, taxonomies)) ->
    run_endpoints {| perPage := opt_perPage cfg; concurrent := opt_concurrent cfg |}
      (post_call taxonomies) (endpoints (restUrl (baseUrl cfg)) posts) calls1 Done ->
    run_endpoints {| perPage := opt_perPage cfg; concurrent := opt_concurrent cfg |}
      term_call (endpoints (restUrl (baseUrl cfg)) taxonomies) calls2 out ->
    apply cfg (calls ++ calls1 ++ calls2)%list out.

(** [apply] under chosen schedules, one per endpoint, for running
    examples.  [None] when a schedule stops before its fetch has settled or
    ended. *)
Fixpoint play_endpoints (o : options) (body : value -> result call)
    (urls : list string) (schedules : list (list move))
    : option (list call * outcome) :=
  match urls with
  | [] => Some ([], Done)
  | url :: rest =>
      let s := play url o (hd [] schedules) (fetchPaged url o) in
      match settled s with
      | Resolved fetched =>
          match for_of body fetched with
          | (calls, Ok _) =>
              match play_endpoints o body rest (tl schedules) with
              | Some (calls', out) => Some ((calls ++ calls')%list, out)
              | None => None
              end
          | (calls, Throw e) => Some (calls, Failed e)
          end
      | Rejected e => Some ([], Failed e)
      | Pending =>
          if negb (awaiting_first s) && idle s then Some ([], Hung) else None
      end
  end.

Definition apply_play (cfg : plugin_options)
    (post_schedules term_schedules : list (list move))
    : option (list call * outcome) :=
  let o := {| perPage := opt_perPage cfg; concurrent := opt_concurrent cfg |} in
  match discover cfg with
  | (calls, Throw e) => Some (calls, Failed e)
  | (calls, Ok (posts, taxonomies)) =>
      match play_endpoints o (post_call taxonomies)
              (endpoints (restUrl (baseUrl cfg)) posts) post_schedules with
      | Some (calls1, Done) =>
          match play_endpoints o term_call
                  (endpoints (restUrl (baseUrl cfg)) taxonomies) term_schedules with
          | Some (calls2, out) => Some ((calls ++ calls1 ++ calls2)%list, out)
          | None => None
          end
      | Some (calls1, out) => Some ((calls ++ calls1)%list, out)
      | None => None
      end
  end.

(** *** Bookkeeping for the proofs *)

(** A promise is resolved only when nothing is queued or in flight, and a
    destroyed queue belongs to a rejected promise. *)
Definition settled_sound (s : fetch_state) : Prop :=
  (forall v, settled s = Resolved v -> awaiting_first s = false /\ idle s = true) /\
  (destroyed s = true -> exists e, settled s = Rejected e).

(** The accumulated data once the answers to [done] have been handled in
    that order, while each of them was a page that could be pushed. *)
Fixpoint acc_after (acc : value) (done : list string) : result value :=
  match done with
  | [] => Ok acc
  | t :: rest =>
      match taskHandler t with
      | Ok res => acc' <- push_page acc t (data res) ;; acc_after acc' rest
      | Throw e => Throw e
      end
  end.

(** The same records, up to the order in which the pages arrived. *)
Definition same_records (a b : value) : Prop :=
  a = b \/ exists l l', a = VArr l /\ b = VArr l' /\ Permutation l l'.

(** The bookkeeping of the fan-out: [done] are the tasks answered so far.
    As long as they could all be pushed the promise is pending, or resolved
    with what was accumulated once nothing is left; otherwise it is
    rejected. *)
Definition fanout_inv (o : options) (d : value) (tasks : list string)
    (s : fetch_state) : Prop :=
  awaiting_first s = false /\
  exists done,
    Permutation (done ++ in_flight s ++ queued s) tasks /\
    (done <> [] \/ in_flight s <> [] -> 0 < concurrent o) /\
    match acc_after d done with
    | Ok a =>
        res_data s = a /\ destroyed s = false /\
        ((settled s = Pending /\ (idle s = true -> done = [])) \/
         (settled s = Resolved a /\ idle s = true))
    | Throw _ => exists e, settled s = Rejected e
    end.

End Source.

(** ** Notions used to state what discovery does *)

(** The routes [apply] starts from. *)
Definition default_routes : list (string * value) :=
  [("post", VStr "/:year/:month/:day/:slug");
   ("post_tag", VStr "/tag/:slug");
   ("category", VStr "/category/:slug")].

(** [types[typeName].f], [undefined] where reading it would throw. *)
Definition field (types : value) (typeName f : string) : value :=
  match get types typeName with
  | Ok opts =>
      match get opts f with
      | Ok x => x
      | Throw _ => VUndefined
      end
  | Throw _ => VUndefined
  end.

(** The keys a registration loop does not skip. *)
Definition registered (skip_attachment : bool) (keys : list string) : list string :=
  filter (fun k => negb (skip_attachment && (k =? "attachment"))) keys.

(** The [addType] call for one discovered type. *)
Definition registration (rs : list (string * value)) (types : value)
    (typeName : string) : call :=
  addType typeName (field types typeName "name") (route_of rs typeName).

(** Successive assignments [o[k] = a] for the keys that [g] gives a
    value. *)
Definition set_all {A} (g : string -> option A) (keys : list string)
    (o : list (string * A)) : list (string * A) :=
  fold_left
    (fun acc k => match g k with
                  | Some a => obj_set k a acc
                  | None => acc
                  end) keys o.

(** Successive assignments [o[k] = g k]. *)
Definition assign_all (g : string -> value) (keys : list string) (o : object) : object :=
  fold_left (fun acc k => assign k (g k) acc) keys o.

(** The values the setter of [__proto__] ignores: all but objects, arrays
    and [null]. *)
Definition ignored_by_proto_setter (v : value) : bool :=
  match v with
  | VObj _ | VArr _ | VNull => false
  | _ => true
  end.

Fixpoint only_slashes (s : string) : bool :=
  match s with
  | String c r => (code c =? 47)%nat && only_slashes r
  | EmptyString => true
  end.


(** The page behind a task was fetched and normalized to [items]. *)
Definition page_gave (JSON_parse : string -> option value)
    (axios_get : string -> result response) (t : string) (items : list value) : Prop :=
  exists r d,
    axios_get t = Ok r /\ ensureArrayData JSON_parse t (data r) = Ok d /\
    iterate d = Ok items.

Definition is_addType (c : call) : Prop :=
  match c with
  | addType _ _ _ => True
  | addNode _ _ => False
  end.

Definition is_addNode (c : call) : Prop :=
  match c with
  | addType _ _ _ => False
  | addNode _ _ => True
  end.

(** ** A small site, for the worked examples

    One content type [post] under [/posts] in three pages of two, one
    taxonomy [category] under [/categories]; [/flaky] loses its second page,
    [/mixed] serves an HTML page as its second page, [/empty] reports no
    items but three pages, and any other URL is not found. *)

Definition demo_base : string := "http://wp.test/wp-json/wp/v2".

Definition demo_post (id : Z) (categories : list Z) : value :=
  VObj [("id", VNum id); ("type", VStr "post"); ("slug", VStr "hello");
        ("title", VObj [("rendered", VStr "Hello")]);
        ("categories", VArr (map VNum categories))].

Definition demo_term (id : Z) : value :=
  VObj [("id", VNum id); ("taxonomy", VStr "category"); ("slug", VStr "news");
        ("name", VStr "News"); ("count", VNum 2)].

Definition paged (total pages : string) : list (string * string) :=
  [("x-wp-total", total); ("x-wp-totalpages", pages)].

Definition not_found : exn := Error "Request failed with status code 404".

Definition demo_site (u : string) : result response :=
  if u =? demo_base then Ok {| data := VObj []; headers := [] |}
  else if u =? demo_base ++ "/types" then
    Ok {| data := VObj [("post", VObj [("name", VStr "Posts"); ("rest_base", VStr "posts")]);
                        ("attachment", VObj [("name", VStr "Media"); ("rest_base", VStr "media")])];
          headers := [] |}
  else if u =? demo_base ++ "/taxonomies" then
    Ok {| data := VObj [("category", VObj [("name", VStr "Categories");
                                            ("rest_base", VStr "categories")])];
          headers := [] |}
  else if u =? demo_base ++ "/posts?per_page=2" then
    Ok {| data := VArr [demo_post 1 [3; 7]%Z; demo_post 2 []]; headers := paged "5" "3" |}
  else if u =? demo_base ++ "/posts?per_page=2&page=2" then
    Ok {| data := VArr [demo_post 3 [3]%Z; demo_post 4 []]; headers := paged "5" "3" |}
  else if u =? demo_base ++ "/posts?per_page=2&page=3" then
    Ok {| data := VArr [demo_post 5 [7]%Z]; headers := paged "5" "3" |}
  else if u =? demo_base ++ "/categories?per_page=2" then
    Ok {| data := VArr [demo_term 3; demo_term 7]; headers := paged "2" "1" |}
  else if u =? demo_base ++ "/flaky?per_page=2" then
    Ok {| data := VArr [demo_post 1 []; demo_post 2 []]; headers := paged "5" "3" |}
  else if u =? demo_base ++ "/flaky?per_page=2&page=3" then
    Ok {| data := VArr [demo_post 5 []]; headers := paged "5" "3" |}
  else if u =? demo_base ++ "/mixed?per_page=2" then
    Ok {| data := VArr [demo_post 1 []; demo_post 2 []]; headers := paged "5" "3" |}
  else if u =? demo_base ++ "/mixed?per_page=2&page=2" then
    Ok {| data := VStr "<html>Error</html>"; headers := [] |}
  else if u =? demo_base ++ "/mixed?per_page=2&page=3" then
    Ok {| data := VArr [demo_post 5 []]; headers := paged "5" "3" |}
  else if u =? demo_base ++ "/empty?per_page=2" then
    Ok {| data := VArr []; headers := paged "0" "3" |}
  else Throw not_found.

Definition demo_options : options := {| perPage := 2; concurrent := 2 |}.

Definition demo_config : plugin_options :=
  {| baseUrl := "http://wp.test//"; opt_perPage := 2; opt_concurrent := 2; routes := [] |}.

(** The calls a run of [apply] on the small site makes when the pages of
    [/posts] are answered as [post_schedule] says. *)
Definition demo_calls (post_schedule : list move) : list call :=
  match apply_play json_parse demo_site (fun raw => raw) demo_config
          [post_schedule] [[First]] with
  | Some (calls, _) => calls
  | None => []
  end.

(** A second site: one content type registered as [news], whose records
    say of themselves that they are of type [post]; no taxonomies. *)
Definition news_site (u : string) : result response :=
  if u =? demo_base then Ok {| data := VObj []; headers := [] |}
  else if u =? demo_base ++ "/types" then
    Ok {| data := VObj [("news", VObj [("name", VStr "News"); ("rest_base", VStr "news")])];
          headers := [] |}
  else if u =? demo_base ++ "/taxonomies" then
    Ok {| data := VObj []; headers := [] |}
  else if u =? demo_base ++ "/news?per_page=100" then
    Ok {| data := VArr [demo_post 1 []]; headers := paged "1" "1" |}
  else Throw not_found.

Definition news_options : plugin_options :=
  {| baseUrl := "http://wp.test/"; opt_perPage := 100; opt_concurrent := 10; routes := [] |}.

(** A site that does not answer. *)
Definition down_site (u : string) : result response := Throw not_found.

(** A site whose root answers and whose listing of taxonomies does not. *)
Definition half_site (u : string) : result response :=
  if u =? demo_base then Ok {| data := VObj []; headers := [] |}
  else if u =? demo_base ++ "/types" then
    Ok {| data := VObj [("post", VObj [("name", VStr "Posts"); ("rest_base", VStr "posts")])];
          headers := [] |}
  else Throw not_found.

(** The small site with an HTML page in place of the first page of
    [/posts]. *)
Definition broken_site (u : string) : result response :=
  if u =? demo_base ++ "/posts?per_page=2"
  then Ok {| data := VStr "<html>Error</html>"; headers := [] |}
  else demo_site u.

(** The small site with the text of a JSON object in place of the pages
    of [/posts]. *)
Definition object_site (u : string) : result response :=
  if u =? demo_base ++ "/posts?per_page=2"
  then Ok {| data := VStr "{}"; headers := [] |}
  else demo_site u.

(** A listing of types with odd names: [constructor] names a function
    that every object inherits, [__proto__] the accessor of the
    prototype. *)
Definition odd_types : value :=
  VObj [("post", VObj [("name", VStr "Posts"); ("rest_base", VStr "posts")]);
        ("attachment", VObj [("name", VStr "Media"); ("rest_base", VStr "media")]);
        ("constructor", VObj [("name", VStr "Makers"); ("rest_base", VStr "makers")]);
        ("__proto__", VObj [("name", VStr "Protos"); ("rest_base", VStr "protos")])].

Definition odd_site (u : string) : result response :=
  if u =? demo_base then Ok {| data := VObj []; headers := [] |}
  else if u =? demo_base ++ "/types" then Ok {| data := odd_types; headers := [] |}
  else if u =? demo_base ++ "/taxonomies" then Ok {| data := VObj []; headers := [] |}
  else Throw not_found.

(** A site whose second page of [/posts] ends with a [null] record; no
    taxonomies. *)
Definition holey_site (u : string) : result response :=
  if u =? demo_base then Ok {| data := VObj []; headers := [] |}
  else if u =? demo_base ++ "/types" then
    Ok {| data := VObj [("post", VObj [("name", VStr "Posts"); ("rest_base", VStr "posts")])];
          headers := [] |}
  else if u =? demo_base ++ "/taxonomies" then
    Ok {| data := VObj []; headers := [] |}
  else if u =? demo_base ++ "/posts?per_page=2" then
    Ok {| data := VArr [demo_post 1 []]; headers := paged "4" "3" |}
  else if u =? demo_base ++ "/posts?per_page=2&page=2" then
    Ok {| data := VArr [demo_post 2 []; VNull]; headers := paged "4" "3" |}
  else if u =? demo_base ++ "/posts?per_page=2&page=3" then
    Ok {| data := VArr [demo_post 3 []]; headers := paged "4" "3" |}
  else Throw not_found.



(** A site that reports a number of items and no number of pages. *)
Definition headless_site (u : string) : result response :=
  Ok {| data := VArr [demo_post 1 []]; headers := [("x-wp-total", "5")] |}.

(** * Properties *)

(** ** The built-ins on small inputs *)

Example parseInt_reads_a_prefix :
  parseInt (VStr "  42abc") = Some 42%Z /\ parseInt (VStr "-7") = Some (-7)%Z /\
  parseInt (VStr "0") = Some 0%Z.
Proof. repeat split. Qed.

Example parseInt_of_a_missing_header :
  parseInt VUndefined = None /\ parseInt (VStr "") = None /\ parseInt (VStr "abc") = None.
Proof. repeat split. Qed.

Example trim_both_ends : trim "  <p> a </p>  " = "<p> a </p>".
Proof. reflexivity. Qed.

Example own_keys_indices_first :
  own_keys [("b", 1); ("10", 2); ("2", 3); ("a", 4); ("01", 5)] = ["2"; "10"; "b"; "a"; "01"].
Proof. reflexivity. Qed.

Example json_parse_array :
  json_parse " [1, {}, [true, null]] " =
    Some (VArr [VNum 1; VObj []; VArr [VBool true; VNull]]).
Proof. reflexivity. Qed.

Example json_parse_rejects_html :
  json_parse "<html>Error</html>" = None /\ json_parse "[object Object]" = None /\
  json_parse "undefined" = None /\ json_parse "[1,]" = None.
Proof. repeat split. Qed.

Example urls_of_a_fetch :
  first_url "http://wp.test/wp-json/wp/v2/posts" {| perPage := 100; concurrent := 10 |} =
    "http://wp.test/wp-json/wp/v2/posts?per_page=100" /\
  page_url "http://wp.test/wp-json/wp/v2/posts" {| perPage := 100; concurrent := 10 |} 2 =
    "http://wp.test/wp-json/wp/v2/posts?per_page=100&page=2".
Proof. split; reflexivity. Qed.

Example restUrl_drops_trailing_slashes :
  restUrl "http://wp.test//" = "http://wp.test/wp-json/wp/v2".
Proof. reflexivity. Qed.

(** ** Association lists *)

Lemma lookup_obj_set_same {A} (k : string) (a : A) (l : list (string * A)) :
  lookup k (obj_set k a l) = Some a.
Proof.
  induction l as [|[k' a'] l IH]; simpl.
  - now rewrite String.eqb_refl.
  - destruct (String.eqb_spec k' k) as [->|Hne]; simpl.
    + now rewrite String.eqb_refl.
    + destruct (String.eqb_spec k' k); [contradiction|exact IH].
Qed.

Lemma lookup_obj_set_other {A} (k k' : string) (a : A) (l : list (string * A)) :
  k <> k' -> lookup k (obj_set k' a l) = lookup k l.
Proof.
  intros Hne. induction l as [|[k0 a0] l IH]; simpl.
  - destruct (String.eqb_spec k' k); congruence.
  - destruct (String.eqb_spec k0 k') as [->|Hne']; simpl.
    + destruct (String.eqb_spec k' k); congruence.
    + destruct (String.eqb_spec k0 k); [reflexivity|exact IH].
Qed.

Lemma In_insert_index (e e' : Z * string) (l : list (Z * string)) :
  In e' (insert_index e l) <-> e' = e \/ In e' l.
Proof.
  induction l as [|x l IH]; simpl.
  - intuition congruence.
  - destruct (fst e <=? fst x)%Z; simpl; [intuition congruence|].
    rewrite IH. intuition congruence.
Qed.

(** The enumeration order only reorders the keys. *)
Lemma own_keys_In {A} (l : list (string * A)) (k : string) :
  In k (own_keys l) <-> In k (map fst l).
Proof.
  unfold own_keys. rewrite in_app_iff, filter_In, in_map_iff.
  set (ks := map fst l). clearbody ks.
  assert (Hidx : forall e,
    In e (fold_right
            (fun k acc => match array_index k with
                          | Some n => insert_index (n, k) acc
                          | None => acc
                          end) [] ks)
    <-> In (snd e) ks /\ array_index (snd e) = Some (fst e)).
  { induction ks as [|k0 ks IH]; intros [n s]; simpl.
    - tauto.
    - destruct (array_index k0) as [n0|] eqn:E.
      + rewrite In_insert_index, IH. simpl. split.
        * intros [Heq|[Hin Hs]]; [inversion Heq; subst; auto|auto].
        * intros [[->|Hin] Hs]; [left; congruence|right; auto].
      + rewrite IH. simpl. split.
        * intros [Hin Hs]; auto.
        * intros [[->|Hin] Hs]; [congruence|auto]. }
  split.
  - intros [[[n s] [Hs Hin]]|[Hin _]]; [|exact Hin].
    simpl in Hs. subst s. apply Hidx in Hin. tauto.
  - intros Hin. destruct (array_index k) as [n|] eqn:E.
    + left. exists (n, k). split; [reflexivity|]. apply Hidx. auto.
    + right. auto.
Qed.

Lemma substring_prefix_length (n : nat) (s : string) :
  String.length (substring 0 n s) <= n.
Proof.
  revert s. induction n as [|n IH]; intros [|c s]; simpl; try lia.
  specialize (IH s). lia.
Qed.

Section Properties.

Variable JSON_parse : string -> option value.
Variable axios_get : string -> result response.
Variable makeUid : string -> string.

(** ** [ensureArrayData] *)

Lemma ensureArrayData_array (url : string) (l : list value) :
  ensureArrayData JSON_parse url (VArr l) = Ok (VArr l).
Proof. reflexivity. Qed.

Lemma ensureArrayData_parsed (url : string) (body parsed : value) :
  isArray body = false ->
  JSON_parse (ToString body) = Some parsed ->
  ensureArrayData JSON_parse url body = Ok parsed.
Proof. intros Ha Hp. unfold ensureArrayData. now rewrite Ha, Hp. Qed.

(** A text body that does not parse: the error names the URL and shows
    at most 150 characters of the trimmed body. *)
Lemma ensureArrayData_malformed_text (url body : string) :
  JSON_parse body = None ->
  ensureArrayData JSON_parse url (VStr body) =
    Throw (Error ("Failed to fetch " ++ url ++ nl ++
                  "Expected JSON response but got:" ++ nl ++
                  substring 0 150 (trim body) ++ "..." ++ nl))
  /\ String.length (substring 0 150 (trim body)) <= 150.
Proof.
  intros Hp. split; [|apply substring_prefix_length].
  unfold ensureArrayData. simpl. now rewrite Hp.
Qed.

(** A body that is neither an array nor text and whose string form does
    not parse: the catch block itself throws, a [TypeError]. *)
Lemma ensureArrayData_not_text (url : string) (body : value) :
  isArray body = false ->
  (forall s, body <> VStr s) ->
  JSON_parse (ToString body) = None ->
  exists message, ensureArrayData JSON_parse url body = Throw (TypeError message).
Proof.
  intros Ha Hs Hp. unfold ensureArrayData. rewrite Ha, Hp.
  destruct body; eauto. now destruct (Hs s).
Qed.

(** ** Stable ids *)

Lemma raw_ids_distinct (id id' : value) :
  "post-" ++ ToString id <> "term-" ++ ToString id'.
Proof. simpl. intros H. discriminate H. Qed.

(** ** The steps of a fetch: frame properties *)

Ltac answer_cases :=
  unfold on_answer, on_task_finish, on_task_failed, on_drain;
  repeat match goal with
         | |- context [if destroyed ?s then _ else _] => destruct (destroyed s) eqn:?
         | |- context [match ?r with Ok _ => _ | Throw _ => _ end] => destruct r eqn:?
         | |- context [if ?c then _ else _] => destruct c eqn:?
         end; simpl.

(** An answer changes neither the queue nor the list of requests: only
    the promise, the accumulated data and the destroyed flag. *)
Lemma on_answer_frame (t : string) (r : result response) (s : fetch_state) :
  awaiting_first (on_answer JSON_parse t r s) = awaiting_first s /\
  queued (on_answer JSON_parse t r s) = queued s /\
  in_flight (on_answer JSON_parse t r s) = in_flight s /\
  issued (on_answer JSON_parse t r s) = issued s.
Proof. answer_cases; auto. Qed.

Lemma after_first_frame (url : string) (o : options) (r : result response)
    (s : fetch_state) :
  awaiting_first (after_first JSON_parse url o r s) = false /\
  in_flight (after_first JSON_parse url o r s) = [] /\
  destroyed (after_first JSON_parse url o r s) = false /\
  issued (after_first JSON_parse url o r s) = issued s.
Proof.
  unfold after_first. destruct r as [res|e]; simpl; auto.
  destruct (ensureArrayData JSON_parse url (data res)); simpl; auto.
  destruct (single_page _ _); simpl; auto.
Qed.

Lemma steps_trans (url : string) (o : options) (s s' s'' : fetch_state) :
  steps JSON_parse axios_get url o s s' ->
  steps JSON_parse axios_get url o s' s'' ->
  steps JSON_parse axios_get url o s s''.
Proof.
  induction 1; intros; [assumption|]. eapply steps_step; eauto.
Qed.

(** Induction on a run for a property every step preserves. *)
Lemma steps_invariant (url : string) (o : options) (P : fetch_state -> Prop) :
  (forall s s', P s -> step JSON_parse axios_get url o s s' -> P s') ->
  forall s s', steps JSON_parse axios_get url o s s' -> P s -> P s'.
Proof.
  intros Hstep s s' Hrun. induction Hrun; intros; [assumption|].
  apply IHHrun. eapply Hstep; eauto.
Qed.

Lemma finished_steps (url : string) (o : options) (s s' : fetch_state) :
  finished JSON_parse axios_get url o s ->
  steps JSON_parse axios_get url o s s' -> s' = s.
Proof.
  intros Hfin Hrun. destruct Hrun as [|s s' s'' Hstep _]; [reflexivity|].
  now apply Hfin in Hstep.
Qed.

(** A state with nothing queued and nothing in flight, past the first
    request, is final. *)
Lemma idle_finished (url : string) (o : options) (s : fetch_state) :
  awaiting_first s = false -> queued s = [] -> in_flight s = [] ->
  finished JSON_parse axios_get url o s.
Proof.
  intros Ha Hq Hf s' Hstep. inversion Hstep; subst; try congruence.
  rewrite Hf in *. now destruct before.
Qed.

(** The first step of a call is the answer to the first request. *)
Lemma reachable_cases (url : string) (o : options) (s : fetch_state) :
  reachable JSON_parse axios_get url o s ->
  s = fetchPaged url o \/
  steps JSON_parse axios_get url o
    (after_first JSON_parse url o (axios_get (first_url url o)) (fetchPaged url o)) s.
Proof.
  unfold reachable. intros Hrun.
  inversion Hrun as [|s0 s1 s2 Hstep Hrest]; subst; [now left|right].
  inversion Hstep; subst; simpl in *; try discriminate. exact Hrest.
Qed.

Lemma step_awaiting (url : string) (o : options) (s s' : fetch_state) :
  step JSON_parse axios_get url o s s' -> awaiting_first s' = false.
Proof.
  intros Hstep. inversion Hstep; subst; simpl.
  - apply after_first_frame.
  - assumption.
  - destruct (on_answer_frame t (taskHandler axios_get t) (set_in_flight (before ++ after) s))
      as [-> _]. assumption.
Qed.

(** Every run ends: each dispatch and each answer uses up work. *)
Lemma steps_terminate (url : string) (o : options) (s : fetch_state) :
  exists s', steps JSON_parse axios_get url o s s' /\
             finished JSON_parse axios_get url o s'.
Proof.
  assert (Hpast : forall n s0, awaiting_first s0 = false ->
            2 * List.length (queued s0) + List.length (in_flight s0) <= n ->
            exists s', steps JSON_parse axios_get url o s0 s' /\
                       finished JSON_parse axios_get url o s').
  { induction n as [|n IH]; intros s0 Ha Hm.
    - exists s0. split; [constructor|]. apply idle_finished; auto.
      + destruct (queued s0); [reflexivity|simpl in Hm; lia].
      + destruct (in_flight s0); [reflexivity|simpl in Hm; lia].
    - destruct (in_flight s0) as [|t fl] eqn:Hf.
      + destruct (queued s0) as [|t rest] eqn:Hq.
        { exists s0. split; [constructor|]. apply idle_finished; auto. }
        destruct (destroyed s0) eqn:Hd.
        { exists s0. split; [constructor|]. intros s' Hstep.
          inversion Hstep; subst; try congruence.
          rewrite Hf in *. now destruct before. }
        destruct (concurrent o) as [|c] eqn:Hc.
        { exists s0. split; [constructor|]. intros s' Hstep.
          inversion Hstep; subst; try congruence.
          - rewrite Hf, Hc in *. simpl in *. lia.
          - rewrite Hf in *. now destruct before. }
        destruct (IH (dispatch t rest s0)) as [s' [Hrun Hfin]].
        { assumption. }
        { simpl. rewrite Hf. simpl in *. lia. }
        exists s'. split; [|assumption].
        eapply steps_step; [|exact Hrun].
        apply step_dispatch; auto. rewrite Hf, Hc. simpl. lia.
      + pose (s1 := on_answer JSON_parse t (taskHandler axios_get t) (set_in_flight ([] ++ fl) s0)).
        destruct (on_answer_frame t (taskHandler axios_get t) (set_in_flight ([] ++ fl) s0))
          as [Ha1 [Hq1 [Hf1 _]]].
        destruct (IH s1) as [s' [Hrun Hfin]].
        { unfold s1. rewrite Ha1. assumption. }
        { unfold s1. rewrite Hq1, Hf1. simpl in *. lia. }
        exists s'. split; [|assumption].
        eapply steps_step; [|exact Hrun].
        apply (step_answer JSON_parse axios_get url o s0 [] t fl); auto. }
  destruct (awaiting_first s) eqn:Ha.
  - pose (s1 := after_first JSON_parse url o (axios_get (first_url url o)) s).
    destruct (Hpast (2 * List.length (queued s1) + List.length (in_flight s1)) s1)
      as [s' [Hrun Hfin]].
    { apply after_first_frame. }
    { lia. }
    exists s'. split; [|assumption].
    eapply steps_step; [|exact Hrun]. now apply step_first.
  - eapply Hpast; eauto.
Qed.

(** ** Settling and tearing down *)

Lemma on_answer_rejected (t : string) (r : result response) (s : fetch_state) (e : exn) :
  settled s = Rejected e -> settled (on_answer JSON_parse t r s) = Rejected e.
Proof. intros H. answer_cases; rewrite ?H; simpl; auto. Qed.

Lemma idle_in_flight (s : fetch_state) :
  idle s = true -> in_flight s = [] /\ queued s = [].
Proof. unfold idle. destruct (queued s), (in_flight s); intros; try discriminate; auto. Qed.

Lemma step_settled_sound (url : string) (o : options) (s s' : fetch_state) :
  settled_sound s -> step JSON_parse axios_get url o s s' -> settled_sound s'.
Proof.
  intros [Hres Hdes] Hstep. inversion Hstep; subst.
  - assert (Hnot : forall v, settled s <> Resolved v).
    { intros v Hv. apply Hres in Hv. destruct Hv. congruence. }
    unfold after_first. destruct (axios_get (first_url url o)) as [res|e]; simpl.
    + destruct (ensureArrayData JSON_parse url (data res)) as [d|err]; simpl.
      * destruct (single_page _ _); split; simpl; intros; try discriminate; auto.
        exfalso. eapply Hnot; eauto.
      * split; simpl; intros; try discriminate.
        destruct (settled s) eqn:E; simpl in *; try discriminate.
        exfalso. eapply Hnot; eauto.
    + split; simpl; intros; try discriminate. exfalso. eapply Hnot; eauto.
  - split; simpl; intros.
    + apply Hres in H3. destruct H3 as [_ Hidle]. apply idle_in_flight in Hidle.
      destruct Hidle. congruence.
    + congruence.
  - assert (Hnot : forall v, settled s <> Resolved v).
    { intros v Hv. apply Hres in Hv. destruct Hv as [_ Hidle].
      apply idle_in_flight in Hidle. destruct Hidle as [Hf _].
      rewrite Hf in H0. now destruct before. }
    unfold on_answer. simpl. destruct (destroyed s) eqn:Hd.
    { split; simpl; intros; [exfalso; eapply Hnot; eauto|auto]. }
    destruct (taskHandler axios_get t) as [res|err].
    + unfold on_task_finish. simpl.
      destruct (push_page JSON_parse (res_data s) t (data res)) as [acc|err]; simpl.
      * match goal with |- context [if ?c then _ else _] => destruct c eqn:Hc end.
        { apply andb_prop in Hc. destruct Hc as [_ Hidle].
          split; simpl; intros; [auto|congruence]. }
        { split; simpl; intros; [exfalso; eapply Hnot; eauto|congruence]. }
      * assert (Hrej : exists e, reject err (settled s) = Rejected e).
        { destruct (settled s) eqn:E; simpl; eauto. exfalso. eapply Hnot; eauto. }
        destruct Hrej as [e' Hrej]. rewrite Hrej.
        match goal with |- context [if ?c then _ else _] => destruct c eqn:Hc end;
          split; simpl; intros; try discriminate; congruence.
    + unfold on_task_failed. simpl. split; simpl; intros.
      * destruct (settled s) eqn:E; simpl in *; try discriminate.
        exfalso. eapply Hnot; eauto.
      * destruct (settled s) eqn:E; simpl; eauto.
        exfalso. eapply Hnot; eauto.
Qed.

Lemma reachable_settled_sound (url : string) (o : options) (s : fetch_state) :
  reachable JSON_parse axios_get url o s -> settled_sound s.
Proof.
  intros Hrun. eapply steps_invariant; [apply step_settled_sound|exact Hrun|].
  split; simpl; intros; discriminate.
Qed.

(** After the queue is destroyed no request is sent and the promise no
    longer changes. *)
Lemma destroyed_steps (url : string) (o : options) (s s' : fetch_state) :
  awaiting_first s = false -> destroyed s = true ->
  steps JSON_parse axios_get url o s s' ->
  destroyed s' = true /\ issued s' = issued s /\ queued s' = queued s /\
  settled s' = settled s.
Proof.
  intros Ha Hd Hrun. induction Hrun as [|s s' s'' Hstep Hrun IH]; [auto|].
  assert (Hs' : awaiting_first s' = false /\ destroyed s' = true /\
                issued s' = issued s /\ queued s' = queued s /\ settled s' = settled s).
  { inversion Hstep; subst; try congruence.
    unfold on_answer. simpl. rewrite Hd. simpl. auto. }
  destruct Hs' as [Ha' [Hd' [Hi [Hq Hs]]]].
  destruct (IH Ha' Hd') as [? [? [? ?]]]. repeat split; congruence.
Qed.

(** A settled promise stays as it is. *)
Lemma settled_steps (url : string) (o : options) (s s' : fetch_state) :
  awaiting_first s = false -> settled s <> Pending ->
  steps JSON_parse axios_get url o s s' -> settled s' = settled s.
Proof.
  intros Ha Hp Hrun. induction Hrun as [|s s' s'' Hstep Hrun IH]; [auto|].
  assert (Hs' : settled s' = settled s).
  { inversion Hstep; subst; try congruence; [reflexivity|].
    answer_cases; auto; destruct (settled s); simpl; congruence. }
  rewrite <- Hs'. apply IH; [eapply step_awaiting; eauto|congruence].
Qed.

(** ** The concurrency bound *)

Lemma in_flight_bounded (url : string) (o : options) (s : fetch_state) :
  reachable JSON_parse axios_get url o s ->
  List.length (in_flight s) <= Nat.max 1 (concurrent o).
Proof.
  intros Hrun.
  refine (steps_invariant
            (fun s => List.length (in_flight s) <= Nat.max 1 (concurrent o))
            _ Hrun _); [|change (1 <= Nat.max 1 (concurrent o)); lia].
  clear s Hrun. intros s s' HP Hstep. inversion Hstep; subst.
  - destruct (after_first_frame url o (axios_get (first_url url o)) s)
      as [_ [-> _]]. cbn -[Nat.max]. lia.
  - cbn -[Nat.max]. rewrite length_app. cbn -[Nat.max]. lia.
  - destruct (on_answer_frame t (taskHandler axios_get t) (set_in_flight (before ++ after) s))
      as [_ [_ [-> _]]]. cbn -[Nat.max].
    rewrite H0 in HP. rewrite length_app in *. cbn -[Nat.max] in *. lia.
Qed.

Lemma nth_error_around {A} (l : list A) (i : nat) (a : A) :
  nth_error l i = Some a -> l = (firstn i l ++ a :: skipn (S i) l)%list.
Proof.
  revert i. induction l as [|x l IH]; intros [|i] H; simpl in *; try discriminate.
  - now inversion H.
  - f_equal. now apply IH.
Qed.

Lemma play_move_step (url : string) (o : options) (m : move) (s s' : fetch_state) :
  play_move JSON_parse axios_get url o m s = Some s' ->
  step JSON_parse axios_get url o s s'.
Proof.
  destruct m as [| |i]; simpl.
  - destruct (awaiting_first s) eqn:Ha; [|discriminate].
    intros H. inversion H. now apply step_first.
  - destruct (awaiting_first s) eqn:Ha; [discriminate|].
    destruct (destroyed s) eqn:Hd; [discriminate|]. simpl.
    destruct (queued s) as [|t rest] eqn:Hq; [discriminate|].
    destruct (List.length (in_flight s) <? concurrent o)%nat eqn:Hl; [|discriminate].
    intros H. inversion H. apply Nat.ltb_lt in Hl. now apply step_dispatch.
  - destruct (awaiting_first s) eqn:Ha; [discriminate|].
    destruct (nth_error (in_flight s) i) as [t|] eqn:Hn; [|discriminate].
    intros H. inversion H. apply step_answer; [assumption|].
    now apply nth_error_around.
Qed.

Lemma play_steps (url : string) (o : options) (moves : list move) (s : fetch_state) :
  steps JSON_parse axios_get url o s (play JSON_parse axios_get url o moves s).
Proof.
  revert s. induction moves as [|m moves IH]; intros s; simpl; [constructor|].
  destruct (play_move JSON_parse axios_get url o m s) as [s'|] eqn:Hm; [|constructor].
  eapply steps_step; [eapply play_move_step; eauto|apply IH].
Qed.

(** A play that ends with nothing queued or in flight has run the fetch to
    its end. *)
Lemma play_ends (url : string) (o : options) (moves : list move) :
  awaiting_first (play JSON_parse axios_get url o moves (fetchPaged url o)) = false ->
  queued (play JSON_parse axios_get url o moves (fetchPaged url o)) = [] ->
  in_flight (play JSON_parse axios_get url o moves (fetchPaged url o)) = [] ->
  fetch_ends JSON_parse axios_get url o
    (settled (play JSON_parse axios_get url o moves (fetchPaged url o))).
Proof.
  intros Ha Hq Hf.
  exists (play JSON_parse axios_get url o moves (fetchPaged url o)).
  split; [apply play_steps|].
  split; [now apply idle_finished|reflexivity].
Qed.

(** A play whose promise has settled, or that is pending with nothing left
    to do, shows how the fetch ends. *)
Lemma play_settled_ends (url : string) (o : options) (moves : list move) :
  settled (play JSON_parse axios_get url o moves (fetchPaged url o)) <> Pending ->
  fetch_ends JSON_parse axios_get url o
    (settled (play JSON_parse axios_get url o moves (fetchPaged url o))).
Proof.
  set (s := play JSON_parse axios_get url o moves (fetchPaged url o)).
  intros Hset.
  assert (Hreach : reachable JSON_parse axios_get url o s) by apply play_steps.
  assert (Ha : awaiting_first s = false).
  { destruct (reachable_cases Hreach) as [Heq|Hrest].
    - rewrite Heq in Hset. now elim Hset.
    - inversion Hrest as [|x y z Hstep Hmore]; subst.
      + apply after_first_frame.
      + apply step_awaiting in Hstep.
        clear - Hstep Hmore. induction Hmore as [|a b c Hab Hbc IH]; [assumption|].
        apply IH. eapply step_awaiting; eauto. }
  destruct (steps_terminate url o s) as [s' [Hrun Hfin]].
  exists s'. split; [eapply steps_trans; eauto|]. split; [assumption|].
  now apply settled_steps with url o.
Qed.

Lemma play_endpoints_sound (o : options) (body : value -> result call)
    (urls : list string) (schedules : list (list move))
    (calls : list call) (out : outcome) :
  play_endpoints JSON_parse axios_get o body urls schedules = Some (calls, out) ->
  run_endpoints JSON_parse axios_get o body urls calls out.
Proof.
  revert schedules calls out.
  induction urls as [|url rest IH]; intros schedules calls out Hplay; simpl in Hplay.
  - inversion Hplay. constructor.
  - destruct (settled (play JSON_parse axios_get url o (hd [] schedules) (fetchPaged url o)))
      as [|fetched|e] eqn:Hset.
    + destruct (negb _ && idle _) eqn:Hidle; [|discriminate].
      inversion Hplay. subst. apply endpoint_hung. rewrite <- Hset.
      apply andb_prop in Hidle. destruct Hidle as [Ha Hidle].
      apply negb_true_iff in Ha. apply idle_in_flight in Hidle. destruct Hidle.
      now apply play_ends.
    + assert (Hends : fetch_ends JSON_parse axios_get url o (Resolved fetched)).
      { rewrite <- Hset. apply play_settled_ends. rewrite Hset. discriminate. }
      destruct (for_of body fetched) as [cs [[]|e]] eqn:Hfor.
      * destruct (play_endpoints JSON_parse axios_get o body rest (tl schedules))
          as [[cs' out']|] eqn:Hrest; [|discriminate].
        inversion Hplay. subst. eapply endpoint_emitted; eauto.
      * inversion Hplay. subst. eapply endpoint_threw; eauto.
    + inversion Hplay. subst. apply endpoint_rejected. rewrite <- Hset.
      apply play_settled_ends. rewrite Hset. discriminate.
Qed.

Lemma apply_play_sound (cfg : plugin_options)
    (post_schedules term_schedules : list (list move))
    (calls : list call) (out : outcome) :
  apply_play JSON_parse axios_get makeUid cfg post_schedules term_schedules
    = Some (calls, out) ->
  apply JSON_parse axios_get makeUid cfg calls out.
Proof.
  unfold apply_play. intros Hplay.
  destruct (discover axios_get cfg) as [cs [[posts taxonomies]|e]] eqn:Hdisc.
  - destruct (play_endpoints _ _ _ (post_call makeUid taxonomies) _ post_schedules)
      as [[c1 o1]|] eqn:Hposts; [|discriminate].
    apply play_endpoints_sound in Hposts.
    destruct o1.
    + destruct (play_endpoints _ _ _ (term_call makeUid) _ term_schedules)
        as [[c2 o2]|] eqn:Hterms; [|discriminate].
      apply play_endpoints_sound in Hterms.
      inversion Hplay. subst. eapply apply_terms; eauto.
    + inversion Hplay. subst. eapply apply_posts_stopped; eauto. discriminate.
    + inversion Hplay. subst. eapply apply_posts_stopped; eauto. discriminate.
  - inversion Hplay. subst. now apply apply_discovery_failed.
Qed.

(** C10 (as amended).  While a call of [fetchPaged] with a bound
    [concurrent] of at least one is running, at most [concurrent] page
    requests are in flight in every state it can reach: the first request
    travels alone, and the queue hands out a task only while fewer than
    [concurrent] requests are unanswered. *)
Theorem in_flight_at_most_concurrent (url : string) (o : options) (s : fetch_state) :
  1 <= concurrent o ->
  reachable JSON_parse axios_get url o s ->
  List.length (in_flight s) <= concurrent o.
Proof.
  intros Hc Hrun. apply in_flight_bounded in Hrun. lia.
Qed.

(** When the first request fails the promise stays pending in every state
    the call can reach, and nothing more happens once the failure is in. *)
Lemma first_failure_pending (url : string) (o : options) (e : exn) (s : fetch_state) :
  axios_get (first_url url o) = Throw e ->
  reachable JSON_parse axios_get url o s ->
  settled s = Pending /\
  (awaiting_first s = false -> finished JSON_parse axios_get url o s).
Proof.
  intros He Hrun. destruct (reachable_cases Hrun) as [->|Hrest].
  - split; [reflexivity|discriminate].
  - rewrite He in Hrest. simpl in Hrest.
    assert (Hfin : finished JSON_parse axios_get url o
             {| awaiting_first := false; settled := Pending; res_data := VUndefined;
                queued := []; in_flight := []; destroyed := false;
                issued := [first_url url o] |}).
    { now apply idle_finished. }
    apply (finished_steps Hfin) in Hrest. subst s. auto.
Qed.

(** C1.  When the request of an enqueued page task fails, the handler
    rejects and destroys the queue: the promise is rejected (with the
    task's id and the error's text when this is the first failure of the
    call), and from then on no request is sent and the promise keeps its
    rejection, so the data accumulated so far is never returned. *)
Theorem task_failure_rejects_and_stops (url : string) (o : options)
    (s : fetch_state) (before after : list string) (t : string) (err : exn) :
  reachable JSON_parse axios_get url o s ->
  awaiting_first s = false ->
  in_flight s = (before ++ t :: after)%list ->
  taskHandler axios_get t = Throw err ->
  step JSON_parse axios_get url o s
    (on_answer JSON_parse t (taskHandler axios_get t) (set_in_flight (before ++ after) s)) /\
  forall s', steps JSON_parse axios_get url o
               (on_answer JSON_parse t (taskHandler axios_get t) (set_in_flight (before ++ after) s)) s' ->
    destroyed s' = true /\
    issued s' = issued s /\
    (exists e, settled s' = Rejected e) /\
    (settled s = Pending ->
     settled s' = Rejected (Reason (t ++ " failed with error: " ++ exn_toString err))).
Proof.
  intros Hreach Ha Hf Herr.
  split; [now apply step_answer|].
  set (s1 := on_answer JSON_parse t (taskHandler axios_get t) (set_in_flight (before ++ after) s)).
  assert (Hs1 : awaiting_first s1 = false /\ destroyed s1 = true /\ issued s1 = issued s /\
                (exists e, settled s1 = Rejected e) /\
                (settled s = Pending -> settled s1 = Rejected (task_failed_reason t err))).
  { destruct (reachable_settled_sound Hreach) as [Hres Hdes].
    subst s1. unfold on_answer. simpl. rewrite Herr.
    destruct (destroyed s) eqn:Hd.
    - destruct (Hdes eq_refl) as [e He]. simpl. repeat split; eauto; congruence.
    - unfold on_task_failed. simpl. repeat split; auto.
      + destruct (settled s) eqn:E; simpl; eauto.
        destruct (Hres _ eq_refl) as [_ Hidle]. apply idle_in_flight in Hidle.
        destruct Hidle as [Hnil _]. rewrite Hnil in Hf. now destruct before.
      + now intros ->. }
  destruct Hs1 as [Ha1 [Hd1 [Hi1 [[e He] Hfirst]]]].
  intros s' Hrun.
  destruct (destroyed_steps Ha1 Hd1 Hrun) as [Hd' [Hi' [_ Hs']]].
  repeat split.
  - assumption.
  - congruence.
  - exists e. congruence.
  - intros Hp. rewrite Hs'. now apply Hfirst.
Qed.

(** C9.  When the body of a later page cannot be normalized, the
    [task_finish] handler rejects and leaves the queue alone: the queue is
    not destroyed, its tasks stay queued, and both dispatching the next
    task and handling the next answer remain possible steps. *)
Theorem normalization_failure_keeps_queue (url : string) (o : options)
    (s : fetch_state) (before after : list string) (t : string)
    (res : response) (err : exn) (acc : list value) :
  awaiting_first s = false ->
  destroyed s = false ->
  in_flight s = (before ++ t :: after)%list ->
  res_data s = VArr acc ->
  taskHandler axios_get t = Ok res ->
  ensureArrayData JSON_parse t (data res) = Throw err ->
  let s' := on_answer JSON_parse t (taskHandler axios_get t) (set_in_flight (before ++ after) s) in
  step JSON_parse axios_get url o s s' /\
  settled s' = reject err (settled s) /\
  destroyed s' = false /\
  queued s' = queued s /\
  in_flight s' = (before ++ after)%list /\
  (forall t' rest, queued s' = t' :: rest ->
     List.length (in_flight s') < concurrent o ->
     step JSON_parse axios_get url o s' (dispatch t' rest s')) /\
  (forall b t' a, in_flight s' = (b ++ t' :: a)%list ->
     step JSON_parse axios_get url o s'
       (on_answer JSON_parse t' (taskHandler axios_get t') (set_in_flight (b ++ a) s'))).
Proof.
  intros Ha Hd Hf Hacc Hres Herr s'.
  assert (Hs' : awaiting_first s' = false /\ settled s' = reject err (settled s) /\
                destroyed s' = false /\ queued s' = queued s /\
                in_flight s' = (before ++ after)%list).
  { subst s'. unfold on_answer. simpl. rewrite Hd, Hres.
    unfold on_task_finish, push_page. simpl. rewrite Hacc, Herr. simpl. rewrite Hd. simpl.
    match goal with |- context [if ?c then _ else _] => destruct c end; simpl;
      repeat split; auto; destruct (settled s); reflexivity. }
  destruct Hs' as [Ha' [Hs' [Hd' [Hq' Hf']]]].
  split; [now apply step_answer|].
  repeat split; auto.
  - intros t' rest Hq Hl. now apply step_dispatch.
  - intros b t' a Hin. now apply step_answer.
Qed.

(** ** The requests of a fetch *)

Lemma page_url_shape (url : string) (o : options) (page : Z) :
  page_url url o page =
    url ++ "?per_page=" ++ string_of_Z (perPage o) ++ "&page=" ++ string_of_Z page.
Proof.
  unfold page_url, stringify. simpl. reflexivity.
Qed.

Lemma pages_length (t : Z) : List.length (pages (Some t)) = Z.to_nat (t - 1).
Proof. unfold pages. now rewrite length_map, length_seq. Qed.

Lemma pages_In (t p : Z) : In p (pages (Some t)) <-> (2 <= p <= t)%Z.
Proof.
  unfold pages. rewrite in_map_iff. split.
  - intros [i [<- Hi]]. apply in_seq in Hi. lia.
  - intros Hp. exists (Z.to_nat (p - 2)). split; [lia|]. apply in_seq. lia.
Qed.

Lemma pages_NoDup (t : Z) : NoDup (pages (Some t)).
Proof.
  unfold pages. apply Finite.Injective_map_NoDup; [|apply seq_NoDup].
  intros i j Hij. lia.
Qed.

(** Requests sent and tasks still queued add up to a constant once the
    first answer is in. *)
Lemma issued_and_queued (url : string) (o : options) (s s' : fetch_state) :
  awaiting_first s = false ->
  steps JSON_parse axios_get url o s s' ->
  awaiting_first s' = false /\
  List.length (issued s') + List.length (queued s') =
    List.length (issued s) + List.length (queued s).
Proof.
  intros Ha Hrun. induction Hrun as [|s s' s'' Hstep Hrun IH]; [auto|].
  assert (Hs' : awaiting_first s' = false /\
                List.length (issued s') + List.length (queued s') =
                  List.length (issued s) + List.length (queued s)).
  { inversion Hstep; subst; try congruence.
    - simpl. rewrite H1, length_app. simpl. split; [assumption|lia].
    - destruct (on_answer_frame t (taskHandler axios_get t) (set_in_flight (before ++ after) s))
        as [-> [-> [_ ->]]]. simpl. auto. }
  destruct Hs' as [Ha' Hlen]. destruct (IH Ha') as [? ?]. split; [assumption|lia].
Qed.

(** Only a failed request destroys the queue. *)
Lemma on_answer_ok_destroyed (t : string) (r : response) (s : fetch_state) :
  destroyed (on_answer JSON_parse t (Ok r) s) = destroyed s.
Proof. answer_cases; auto. Qed.

(** While every task's request succeeds the queue is not destroyed. *)
Lemma never_destroyed (url : string) (o : options) (tasks : list string)
    (s s' : fetch_state) :
  (forall t, In t tasks -> exists r, axios_get t = Ok r) ->
  awaiting_first s = false -> destroyed s = false ->
  (forall t, In t (queued s) \/ In t (in_flight s) -> In t tasks) ->
  steps JSON_parse axios_get url o s s' ->
  destroyed s' = false.
Proof.
  intros Hok Ha Hd Hsub Hrun. induction Hrun as [|s s' s'' Hstep Hrun IH]; [auto|].
  assert (Hs' : awaiting_first s' = false /\ destroyed s' = false /\
                (forall t, In t (queued s') \/ In t (in_flight s') -> In t tasks)).
  { inversion Hstep; subst; try congruence.
    - simpl. repeat split; auto. intros t0 [Hin|Hin]; apply Hsub.
      + left. rewrite H1. now right.
      + apply in_app_iff in Hin. destruct Hin as [Hin|[<-|[]]]; [now right|].
        left. rewrite H1. now left.
    - destruct (on_answer_frame t (taskHandler axios_get t) (set_in_flight (before ++ after) s))
        as [-> [-> [-> _]]]. simpl. repeat split; auto.
      + destruct (Hok t) as [r Hr].
        { apply Hsub. right. rewrite H0. apply in_elt. }
        unfold taskHandler. rewrite Hr, on_answer_ok_destroyed. exact Hd.
      + intros t0 [Hin|Hin]; apply Hsub; [now left|right].
        rewrite H0. apply in_app_iff in Hin. apply in_app_iff.
        destruct Hin; [now left|right; now right]. }
  destruct Hs' as [Ha' [Hd' Hsub']]. now apply IH.
Qed.

(** C3 (as amended).  After the first answer: when the totals say there is
    nothing more ([x-wp-total] zero or absent, or [x-wp-totalpages] at most
    one) the call settles with the outcome of normalizing the first page
    and the first request is the only one ever sent.  When [x-wp-total] is
    not zero, [x-wp-totalpages] is [T > 1] and the first page normalizes,
    one task per page [2..T] is queued, each URL carrying [per_page] and
    [page]; at most [T] requests are ever sent, and exactly [T] have been
    sent when the call has run to its end, provided the bound is at least
    one and no task's request fails. *)
Theorem fetchPaged_requests (url : string) (o : options) (res : response) :
  axios_get (first_url url o) = Ok res ->
  let totalItems := parseInt (header res "x-wp-total") in
  let totalPages := parseInt (header res "x-wp-totalpages") in
  let s1 := after_first JSON_parse url o (Ok res) (fetchPaged url o) in
  (single_page totalItems totalPages = true ->
     settled s1 = match ensureArrayData JSON_parse url (data res) with
                  | Ok d => Resolved d
                  | Throw e => Rejected e
                  end /\
     forall s, reachable JSON_parse axios_get url o s -> issued s = [first_url url o]) /\
  (forall n T d,
     totalItems = Some n -> n <> 0%Z -> totalPages = Some T -> (1 < T)%Z ->
     ensureArrayData JSON_parse url (data res) = Ok d ->
     queued s1 = map (page_url url o) (pages (Some T)) /\
     (forall p, In p (pages (Some T)) <-> (2 <= p <= T)%Z) /\
     NoDup (pages (Some T)) /\
     (forall p, page_url url o p =
        url ++ "?per_page=" ++ string_of_Z (perPage o) ++ "&page=" ++ string_of_Z p) /\
     (forall s, reachable JSON_parse axios_get url o s ->
        (Z.of_nat (List.length (issued s)) <= T)%Z) /\
     (1 <= concurrent o ->
      (forall p, (2 <= p <= T)%Z -> exists r, axios_get (page_url url o p) = Ok r) ->
      forall s, reachable JSON_parse axios_get url o s ->
        finished JSON_parse axios_get url o s ->
        Z.of_nat (List.length (issued s)) = T)).
Proof.
  intros Hfirst totalItems totalPages s1. split.
  - intros Hsingle.
    assert (Hs1 : settled s1 = match ensureArrayData JSON_parse url (data res) with
                               | Ok d => Resolved d
                               | Throw e => Rejected e
                               end /\ queued s1 = [] /\ issued s1 = [first_url url o]).
    { subst s1. unfold after_first. fold totalItems totalPages.
      destruct (ensureArrayData JSON_parse url (data res)); simpl; [|auto].
      rewrite Hsingle. simpl. auto. }
    destruct Hs1 as [Hset [Hq Hi]]. split; [exact Hset|].
    intros s Hrun. destruct (reachable_cases Hrun) as [->|Hrest]; [reflexivity|].
    rewrite Hfirst in Hrest. fold s1 in Hrest.
    assert (Hfin : finished JSON_parse axios_get url o s1).
    { apply idle_finished; [apply after_first_frame|exact Hq|apply after_first_frame]. }
    apply (finished_steps Hfin) in Hrest. now subst s.
  - intros n T d Hn Hn0 HT HT1 Hd.
    assert (Hs1 : s1 = {| awaiting_first := false; settled := Pending; res_data := d;
                          queued := map (page_url url o) (pages (Some T));
                          in_flight := []; destroyed := false;
                          issued := [first_url url o] |}).
    { subst s1. unfold after_first. fold totalItems totalPages. rewrite Hd, Hn, HT.
      unfold single_page. destruct n; try congruence;
        destruct (Z.leb_spec T 1); try lia; reflexivity. }
    assert (Hcount : forall s, reachable JSON_parse axios_get url o s ->
              s = fetchPaged url o \/
              (steps JSON_parse axios_get url o s1 s /\ awaiting_first s = false /\
               List.length (issued s) + List.length (queued s) = Z.to_nat T)).
    { intros s Hrun. destruct (reachable_cases Hrun) as [->|Hrest]; [now left|right].
      rewrite Hfirst in Hrest. fold s1 in Hrest. split; [exact Hrest|].
      assert (Ha1 : awaiting_first s1 = false) by now rewrite Hs1.
      destruct (issued_and_queued Ha1 Hrest) as [Ha Hlen].
      split; [exact Ha|]. rewrite Hlen, Hs1. cbn [issued queued].
      rewrite length_map, pages_length. cbn [List.length]. lia. }
    split; [now rewrite Hs1|].
    split; [apply pages_In|].
    split; [apply pages_NoDup|].
    split; [apply page_url_shape|].
    split.
    + intros s Hrun. destruct (Hcount s Hrun) as [->|[_ [_ Hlen]]]; simpl; lia.
    + intros Hc Hok s Hrun Hfin. destruct (Hcount s Hrun) as [->|[Hrest [Ha Hlen]]].
      { exfalso. eapply Hfin. now apply step_first. }
      assert (Hd' : destroyed s = false).
      { eapply never_destroyed with
          (tasks := map (page_url url o) (pages (Some T))) (s := s1); eauto.
        - intros t Hin. apply in_map_iff in Hin. destruct Hin as [p [<- Hp]].
          apply Hok. now apply pages_In.
        - now rewrite Hs1.
        - now rewrite Hs1.
        - rewrite Hs1. simpl. intros t [Hin|[]]. exact Hin. }
      destruct (in_flight s) as [|t fl] eqn:Hf.
      * destruct (queued s) as [|t rest] eqn:Hq.
        { simpl in Hlen. lia. }
        exfalso. eapply Hfin. apply step_dispatch; eauto. rewrite Hf. simpl. lia.
      * exfalso. eapply Hfin.
        apply (step_answer JSON_parse axios_get url o s [] t fl); auto.
Qed.

(** ** Stable ids and references *)

(** C5.  For any two remote ids the raw strings of a post id and of a term
    id differ, whatever the ids are: the prefixes differ in their first
    character.  A store whose [makeUid] maps different strings to different
    ids therefore never gives a content item and a taxonomy term the same
    stable id. *)
Theorem post_and_term_ids_never_collide (id id' : value) :
  "post-" ++ ToString id <> "term-" ++ ToString id' /\
  ((forall a b, makeUid a = makeUid b -> a = b) ->
   makePostId makeUid id <> makeTermId makeUid id').
Proof.
  split; [apply raw_ids_distinct|].
  intros Hinj Heq. apply Hinj in Heq. revert Heq. apply raw_ids_distinct.
Qed.

Lemma hasOwnProperty_call_ok (post : value) (k : string) (b : bool) :
  hasOwnProperty_call post k = Ok b ->
  b = (match own_property post k with Some _ => true | None => false end) /\
  get post k = Ok (match own_property post k with Some v => v | None => VUndefined end).
Proof.
  unfold hasOwnProperty_call, get.
  destruct post; try discriminate;
    destruct (own_property _ "hasOwnProperty"); try discriminate;
    intros H; inversion H; split; try reflexivity;
    destruct (own_property _ k); reflexivity.
Qed.

(** [refs] after one assignment of the inner loop. *)
Lemma lookup_refs_assigned (k typeName : string) (ids : list string)
    (refs : list (string * list string)) :
  lookup k (if typeName =? "__proto__" then refs else obj_set typeName ids refs) =
    if (k =? typeName) && negb (typeName =? "__proto__") then Some ids else lookup k refs.
Proof.
  destruct (String.eqb_spec typeName "__proto__") as [->|Hp]; simpl.
  - now rewrite andb_false_r.
  - rewrite andb_true_r. destruct (String.eqb_spec k typeName) as [->|Hk].
    + apply lookup_obj_set_same.
    + now apply lookup_obj_set_other.
Qed.

(** What the inner loop leaves in [refs]: a visited taxonomy other than
    [__proto__] whose property is on the post is bound to the mapped ids,
    any other key is as before. *)
Lemma add_refs_spec (taxonomies : list (string * value)) (post : value)
    (keys : list string) (refs0 refs : list (string * list string)) :
  add_refs makeUid taxonomies post keys refs0 = Ok refs ->
  forall k,
    (In k keys -> k <> "__proto__" ->
     match own_property post (propName taxonomies k) with
     | Some v => exists ids, v = VArr ids /\ lookup k refs = Some (map (makeTermId makeUid) ids)
     | None => lookup k refs = lookup k refs0
     end) /\
    (~ In k keys \/ k = "__proto__" -> lookup k refs = lookup k refs0).
Proof.
  revert refs0. induction keys as [|typeName rest IH]; intros refs0 Hrun k.
  - simpl in Hrun. inversion Hrun. subst. split; [intros []|reflexivity].
  - simpl in Hrun.
    destruct (hasOwnProperty_call post (propName taxonomies typeName)) as [has|] eqn:Hhas;
      [|discriminate].
    apply hasOwnProperty_call_ok in Hhas. destruct Hhas as [Hb Hget]. simpl in Hrun.
    destruct (own_property post (propName taxonomies typeName)) as [v|] eqn:Hown; subst has.
    + rewrite Hget in Hrun. simpl in Hrun. destruct v; try discriminate.
      specialize (IH _ Hrun k). destruct IH as [IHin IHout].
      rewrite lookup_refs_assigned in IHin, IHout. split.
      * intros Hk Hp. destruct (in_dec string_dec k rest) as [Hin|Hnin].
        { specialize (IHin Hin Hp).
          destruct (own_property post (propName taxonomies k)) eqn:Hk'; [exact IHin|].
          destruct (String.eqb_spec k typeName) as [->|Hne]; [congruence|exact IHin]. }
        { destruct Hk as [<-|Hk]; [|contradiction].
          rewrite Hown. exists l. split; [reflexivity|].
          rewrite (IHout (or_introl Hnin)), String.eqb_refl.
          destruct (String.eqb_spec typeName "__proto__"); [contradiction|reflexivity]. }
      * intros [Hnin| ->].
        { rewrite IHout by (left; intros Hin; apply Hnin; now right).
          destruct (String.eqb_spec k typeName) as [Heq|Hne]; [|reflexivity].
          exfalso. apply Hnin. left. now symmetry. }
        { rewrite IHout by now right.
          destruct (String.eqb_spec "__proto__" typeName) as [<-|Hne]; reflexivity. }
    + specialize (IH _ Hrun k). destruct IH as [IHin IHout]. split.
      * intros Hk Hp. destruct (in_dec string_dec k rest) as [Hin|Hnin].
        { now apply IHin. }
        { destruct Hk as [<-|Hk]; [|contradiction].
          rewrite Hown. apply IHout. now left. }
      * intros [Hnin| ->].
        { apply IHout. left. intros Hin. apply Hnin. now right. }
        { apply IHout. now right. }
Qed.



(** ** The type key of an emitted node *)

Lemma emit_records_calls (body : value -> result call) (records : list value)
    (calls : list call) (r : result unit) :
  emit_records body records = (calls, r) ->
  forall c, In c calls -> exists record, In record records /\ body record = Ok c.
Proof.
  revert calls r. induction records as [|x records IH]; intros calls r Hrun c Hin.
  - simpl in Hrun. inversion Hrun. subst. destruct Hin.
  - simpl in Hrun. unfold bindE, lift, tell in Hrun.
    destruct (body x) as [c0|e] eqn:Hx.
    + destruct (emit_records body records) as [calls' r'] eqn:Hrest.
      simpl in Hrun. inversion Hrun. subst. clear Hrun.
      destruct Hin as [<-|Hin].
      * exists x. split; [now left|assumption].
      * destruct (IH _ _ eq_refl c Hin) as [record [Hr Hb]].
        exists record. split; [now right|assumption].
    + inversion Hrun. subst. destruct Hin.
Qed.

Lemma for_of_calls (body : value -> result call) (fetched : value)
    (calls : list call) (r : result unit) :
  for_of body fetched = (calls, r) ->
  forall c, In c calls ->
    exists records record,
      iterate fetched = Ok records /\ In record records /\ body record = Ok c.
Proof.
  unfold for_of, bindE, lift. intros Hrun c Hin.
  destruct (iterate fetched) as [records|e] eqn:Hit.
  - destruct (emit_records body records) as [calls' r'] eqn:Hrest.
    simpl in Hrun. inversion Hrun. subst.
    destruct (emit_records_calls _ _ Hrest c Hin) as [record [Hr Hb]].
    exists records, record. auto.
  - inversion Hrun. subst. destruct Hin.
Qed.

Lemma post_call_type (taxonomies : list (string * value)) (post : value) (c : call) :
  post_call makeUid taxonomies post = Ok c ->
  exists k n, get post "type" = Ok k /\ c = addNode k n.
Proof.
  unfold post_call, bind. intros H.
  repeat match type of H with
         | match ?x with Ok _ => _ | Throw _ => _ end = _ => destruct x; [|discriminate]
         end.
  inversion H. eauto.
Qed.

Lemma term_call_taxonomy (term : value) (c : call) :
  term_call makeUid term = Ok c ->
  exists k n, get term "taxonomy" = Ok k /\ c = addNode k n.
Proof.
  unfold term_call, bind. intros H.
  repeat match type of H with
         | match ?x with Ok _ => _ | Throw _ => _ end = _ => destruct x; [|discriminate]
         end.
  inversion H. eauto.
Qed.

(** A loop over records calls the store once for each record, in order, up
    to the first record whose body throws. *)
Lemma emit_records_prefix (body : value -> result call) (records : list value)
    (calls : list call) (r : result unit) :
  emit_records body records = (calls, r) ->
  exists emitted rest,
    records = (emitted ++ rest)%list /\
    Forall2 (fun record c => body record = Ok c) emitted calls /\
    match r with
    | Ok _ => rest = []
    | Throw e => exists bad rest', rest = bad :: rest' /\ body bad = Throw e
    end.
Proof.
  revert calls r. induction records as [|x records IH]; intros calls r Hrun.
  - simpl in Hrun. inversion Hrun. subst. exists [], []. repeat split. constructor.
  - simpl in Hrun. unfold bindE, lift, tell in Hrun.
    destruct (body x) as [c0|e] eqn:Hx.
    + destruct (emit_records body records) as [calls' r'] eqn:Hrest.
      simpl in Hrun. inversion Hrun. subst. clear Hrun.
      destruct (IH _ _ eq_refl) as [emitted [rest [-> [Hall Hend]]]].
      exists (x :: emitted), rest. repeat split; [now constructor|exact Hend].
    + inversion Hrun. subst. exists [], (x :: records).
      repeat split; [constructor|]. exists x, records. auto.
Qed.

Lemma for_of_prefix (body : value -> result call) (fetched : value)
    (records : list value) (calls : list call) (r : result unit) :
  iterate fetched = Ok records ->
  for_of body fetched = (calls, r) ->
  exists emitted rest,
    records = (emitted ++ rest)%list /\
    Forall2 (fun record c => body record = Ok c) emitted calls /\
    match r with
    | Ok _ => rest = []
    | Throw e => exists bad rest', rest = bad :: rest' /\ body bad = Throw e
    end.
Proof.
  intros Hit Hrun. unfold for_of, bindE, lift in Hrun. rewrite Hit in Hrun.
  destruct (emit_records body records) as [calls' r'] eqn:Hrest.
  simpl in Hrun. inversion Hrun. subst. now apply emit_records_prefix.
Qed.

(** C8 (as amended).  The loop over the fetched records of an endpoint
    emits one node per record, in the order of the records, up to the
    first record whose node cannot be built, all of them when the loop
    completes; and the node of each record is emitted under the type key
    that record itself carries: [post.type] for a content record,
    [term.taxonomy] for a term.  The type key under which the endpoint was
    discovered is not consulted. *)
Theorem addNode_uses_record_type (taxonomies : list (string * value))
    (fetched : value) (records : list value) (calls : list call) (r : result unit) :
  iterate fetched = Ok records ->
  (for_of (post_call makeUid taxonomies) fetched = (calls, r) ->
   exists emitted rest,
     records = (emitted ++ rest)%list /\
     Forall2 (fun post c =>
                post_call makeUid taxonomies post = Ok c /\
                exists n, c = addNode (read post "type") n) emitted calls /\
     match r with
     | Ok _ => rest = []
     | Throw e =>
         exists bad rest', rest = bad :: rest' /\
                           post_call makeUid taxonomies bad = Throw e
     end) /\
  (for_of (term_call makeUid) fetched = (calls, r) ->
   exists emitted rest,
     records = (emitted ++ rest)%list /\
     Forall2 (fun term c =>
                term_call makeUid term = Ok c /\
                exists n, c = addNode (read term "taxonomy") n) emitted calls /\
     match r with
     | Ok _ => rest = []
     | Throw e =>
         exists bad rest', rest = bad :: rest' /\ term_call makeUid bad = Throw e
     end).
Proof.
  intros Hit.
  assert (Hread : forall record k x, get record k = Ok x -> x = read record k).
  { intros record k x. unfold get, read.
    destruct record; try discriminate; destruct (own_property _ k);
      intros H; now inversion H. }
  split; intros Hrun;
    destruct (for_of_prefix _ _ Hit Hrun) as [emitted [rest [Hsplit [Hall Hend]]]];
    exists emitted, rest; (split; [exact Hsplit|]); (split; [|exact Hend]);
    (eapply Forall2_impl; [|exact Hall]); intros record c Hc; (split; [exact Hc|]).
  - apply post_call_type in Hc. destruct Hc as [k [n [Hk ->]]].
    exists n. now rewrite (Hread _ _ _ Hk).
  - apply term_call_taxonomy in Hc. destruct Hc as [k [n [Hk ->]]].
    exists n. now rewrite (Hread _ _ _ Hk).
Qed.

(** ** Runs against the same remote data *)

Lemma same_records_refl (a : value) : same_records a a.
Proof. now left. Qed.

Lemma same_records_trans (a b c : value) :
  same_records a b -> same_records b c -> same_records a c.
Proof.
  intros [->|[l [l' [-> [-> Hp]]]]] H; [exact H|].
  destruct H as [<-|[m [m' [Hm [-> Hq]]]]].
  - right. eauto.
  - inversion Hm. subst. right. exists l, m'. repeat split.
    eapply Permutation_trans; eauto.
Qed.

Lemma push_page_inv (acc : value) (t : string) (body r : value) :
  push_page JSON_parse acc t body = Ok r ->
  exists l d items,
    acc = VArr l /\ ensureArrayData JSON_parse t body = Ok d /\
    iterate d = Ok items /\ r = VArr (l ++ items).
Proof.
  unfold push_page, bind. intros H.
  destruct acc; try discriminate;
    destruct (ensureArrayData JSON_parse t body) as [d|e]; try discriminate;
    destruct (iterate d) as [items|e] eqn:Hi; try discriminate.
  inversion H. exists l, d, items. auto.
Qed.

Lemma push_page_array (l : list value) (t : string) (body d : value)
    (items : list value) :
  ensureArrayData JSON_parse t body = Ok d -> iterate d = Ok items ->
  push_page JSON_parse (VArr l) t body = Ok (VArr (l ++ items)).
Proof. intros Hd Hi. unfold push_page, bind. now rewrite Hd, Hi. Qed.

Lemma same_records_array (l : list value) (b : value) :
  same_records (VArr l) b -> exists l', b = VArr l' /\ Permutation l l'.
Proof.
  intros [<-|[m [m' [Hm [-> Hp]]]]]; [eauto|].
  inversion Hm. subst. eauto.
Qed.

Lemma push_page_related (a a' : value) (t : string) (body r : value) :
  same_records a a' -> push_page JSON_parse a t body = Ok r ->
  exists r', push_page JSON_parse a' t body = Ok r' /\ same_records r r'.
Proof.
  intros Hrel Hpush. apply push_page_inv in Hpush.
  destruct Hpush as [l [d [items [-> [Hd [Hi ->]]]]]].
  apply same_records_array in Hrel. destruct Hrel as [l' [-> Hp]].
  exists (VArr (l' ++ items)). split; [now apply push_page_array with d|].
  right. exists (l ++ items)%list, (l' ++ items)%list. repeat split.
  now apply Permutation_app_tail.
Qed.

Lemma acc_after_related (done : list string) (a a' r : value) :
  same_records a a' -> acc_after JSON_parse axios_get a done = Ok r ->
  exists r', acc_after JSON_parse axios_get a' done = Ok r' /\ same_records r r'.
Proof.
  revert a a'. induction done as [|t done IH]; intros a a' Hrel Hrun; simpl in *.
  - inversion Hrun. subst. eauto.
  - destruct (taskHandler axios_get t) as [res|e]; [|discriminate].
    destruct (push_page JSON_parse a t (data res)) as [a1|e] eqn:Hpush; [|discriminate].
    destruct (@push_page_related _ _ _ _ _ Hrel Hpush) as [a1' [-> Hrel1]]. simpl in *.
    eapply IH; eauto.
Qed.

Lemma acc_after_app (done done' : list string) (a : value) :
  acc_after JSON_parse axios_get a (done ++ done') = (a' <- acc_after JSON_parse axios_get a done ;; acc_after JSON_parse axios_get a' done').
Proof.
  revert a. induction done as [|t done IH]; intros a; simpl; [reflexivity|].
  destruct (taskHandler axios_get t) as [res|e]; [|reflexivity].
  destruct (push_page JSON_parse a t (data res)); simpl; [apply IH|reflexivity].
Qed.

(** The order of the answers only permutes what is accumulated. *)
Lemma acc_after_perm (done done' : list string) :
  Permutation done done' ->
  forall a r, acc_after JSON_parse axios_get a done = Ok r ->
    exists r', acc_after JSON_parse axios_get a done' = Ok r' /\ same_records r r'.
Proof.
  induction 1 as [|t l l' Hp IH|x y l|l l' l'' Hp IH Hp' IH']; intros a r Hrun.
  - exists r. split; [assumption|apply same_records_refl].
  - simpl in *. destruct (taskHandler axios_get t) as [res|e]; [|discriminate].
    destruct (push_page JSON_parse a t (data res)) as [a1|e]; [|discriminate].
    simpl in *. now apply IH.
  - simpl in *.
    destruct (taskHandler axios_get y) as [ry|e]; [|discriminate].
    destruct (push_page JSON_parse a y (data ry)) as [a1|e] eqn:Hy; [|discriminate].
    simpl in Hrun.
    destruct (taskHandler axios_get x) as [rx|e]; [|discriminate].
    destruct (push_page JSON_parse a1 x (data rx)) as [a2|e] eqn:Hx; [|discriminate].
    simpl in Hrun.
    apply push_page_inv in Hy. destruct Hy as [l0 [dy [iy [-> [Hdy [Hiy ->]]]]]].
    apply push_page_inv in Hx. destruct Hx as [l1 [dx [ix [Hl1 [Hdx [Hix ->]]]]]].
    inversion Hl1. subst l1. clear Hl1.
    rewrite (push_page_array l0 _ _ Hdx Hix). simpl.
    rewrite Hdy. simpl. rewrite Hiy. simpl.
    eapply acc_after_related; [|exact Hrun].
    right. exists ((l0 ++ iy) ++ ix)%list, ((l0 ++ ix) ++ iy)%list. repeat split.
    rewrite <- !app_assoc. apply Permutation_app_head. apply Permutation_app_comm.
  - destruct (IH _ _ Hrun) as [r1 [Hr1 Hrel1]].
    destruct (IH' _ _ Hr1) as [r2 [Hr2 Hrel2]].
    exists r2. split; [assumption|]. eapply same_records_trans; eauto.
Qed.

Lemma step_fanout_inv (url : string) (o : options) (d : value)
    (tasks : list string) (s s' : fetch_state) :
  fanout_inv JSON_parse axios_get o d tasks s -> step JSON_parse axios_get url o s s' ->
  fanout_inv JSON_parse axios_get o d tasks s'.
Proof.
  intros [Ha [done [Hperm [Hconc Hacc]]]] Hstep. inversion Hstep; subst.
  - congruence.
  - split; [assumption|]. exists done. simpl. split; [|split].
    + rewrite <- Hperm, H1. rewrite <- app_assoc. simpl. reflexivity.
    + intros _. lia.
    + destruct (acc_after JSON_parse axios_get d done) as [a|e]; [|exact Hacc].
      destruct Hacc as [Hres [Hdes Hset]]. repeat split; auto.
      destruct Hset as [[Hp _]|[_ Hidle]].
      * left. split; [assumption|]. unfold idle. simpl.
        destruct rest; destruct (in_flight s); discriminate.
      * apply idle_in_flight in Hidle. destruct Hidle. congruence.
  - assert (Hnidle : idle s = false).
    { unfold idle. rewrite H0. destruct (queued s), before; reflexivity. }
    destruct (on_answer_frame t (taskHandler axios_get t) (set_in_flight (before ++ after) s))
      as [Ha' [Hq' [Hf' _]]].
    split; [now rewrite Ha'|]. exists (done ++ [t])%list.
    rewrite Hq', Hf'. simpl. split; [|split].
    + rewrite <- Hperm, H0. rewrite <- !app_assoc. apply Permutation_app_head.
      simpl. apply Permutation_middle.
    + intros _. apply Hconc. right. rewrite H0. now destruct before.
    + rewrite acc_after_app. destruct (acc_after JSON_parse axios_get d done) as [a|e]; simpl.
      * destruct Hacc as [Hres [Hdes [[Hp _]|[_ Hidle]]]]; [|congruence].
        unfold on_answer. simpl. rewrite Hdes.
        destruct (taskHandler axios_get t) as [res|err]; simpl.
        { unfold on_task_finish. simpl. rewrite Hres.
          destruct (push_page JSON_parse a t (data res)) as [a'|err]; simpl.
          - rewrite Hdes. simpl.
            match goal with |- context [if ?c then _ else _] => destruct c eqn:Hc end; simpl.
            + repeat split; auto. right. rewrite Hp. simpl. auto.
            + repeat split; auto. left. split; [assumption|]. intros Hi.
              unfold idle in *. simpl in *. congruence.
          - rewrite Hdes, Hp. simpl.
            match goal with |- context [if ?c then _ else _] => destruct c end; simpl; eauto. }
        { rewrite Hp. simpl. eauto. }
      * destruct Hacc as [e' He']. exists e'. now apply on_answer_rejected.
Qed.

Lemma after_first_fanout (url : string) (o : options) (r : result response) :
  queued (after_first JSON_parse url o r (fetchPaged url o)) <> [] ->
  fanout_inv JSON_parse axios_get o
    (res_data (after_first JSON_parse url o r (fetchPaged url o)))
    (queued (after_first JSON_parse url o r (fetchPaged url o)))
    (after_first JSON_parse url o r (fetchPaged url o)).
Proof.
  unfold after_first. destruct r as [res|e]; simpl; [|congruence].
  destruct (ensureArrayData JSON_parse url (data res)) as [d|err]; simpl; [|congruence].
  destruct (single_page _ _); simpl; [congruence|].
  intros Hne. split; [reflexivity|]. exists []. simpl. split; [|split].
  - reflexivity.
  - intros [H|H]; congruence.
  - repeat split. left. split; [reflexivity|]. unfold idle. simpl.
    destruct (map _ _); [congruence|discriminate].
Qed.

(** If one run of a fetch to its end resolves, so does every other, with
    the same records up to the order of the pages. *)
Lemma fetch_resolved_agree (url : string) (o : options) (v : value) (p : promise) :
  fetch_ends JSON_parse axios_get url o (Resolved v) ->
  fetch_ends JSON_parse axios_get url o p ->
  exists v', p = Resolved v' /\ same_records v v'.
Proof.
  intros [s [Hs [Hfin Hv]]] [s' [Hs' [Hfin' Hp]]].
  set (s1 := after_first JSON_parse url o (axios_get (first_url url o)) (fetchPaged url o)).
  assert (Hpast : forall x, reachable JSON_parse axios_get url o x ->
            finished JSON_parse axios_get url o x ->
            steps JSON_parse axios_get url o s1 x).
  { intros x Hx Hfx. destruct (reachable_cases Hx) as [->|Hrest]; [|exact Hrest].
    exfalso. eapply Hfx. now apply step_first. }
  pose proof (Hpast s Hs Hfin) as Hrun. pose proof (Hpast s' Hs' Hfin') as Hrun'.
  destruct (queued s1) as [|t0 q0] eqn:Hq.
  { assert (Hf1 : finished JSON_parse axios_get url o s1).
    { apply idle_finished; [apply after_first_frame|exact Hq|apply after_first_frame]. }
    apply (finished_steps Hf1) in Hrun. apply (finished_steps Hf1) in Hrun'.
    subst s s'. exists v. split; [congruence|apply same_records_refl]. }
  assert (Hinv1 : fanout_inv JSON_parse axios_get o (res_data s1) (queued s1) s1).
  { apply after_first_fanout. fold s1. rewrite Hq. discriminate. }
  assert (Hinv : fanout_inv JSON_parse axios_get o (res_data s1) (queued s1) s).
  { eapply steps_invariant; [|exact Hrun|exact Hinv1].
    intros x x'. apply step_fanout_inv. }
  assert (Hinv' : fanout_inv JSON_parse axios_get o (res_data s1) (queued s1) s').
  { eapply steps_invariant; [|exact Hrun'|exact Hinv1].
    intros x x'. apply step_fanout_inv. }
  rewrite Hq in Hinv, Hinv'.
  destruct Hinv as [_ [done [Hperm [Hconc Hacc]]]].
  destruct (acc_after JSON_parse axios_get (res_data s1) done) as [a|e] eqn:Hdone;
    [|destruct Hacc as [e' He']; congruence].
  destruct Hacc as [_ [_ [[Hpend _]|[Hres Hidle]]]]; [congruence|].
  assert (a = v) by congruence. subst a.
  apply idle_in_flight in Hidle. destruct Hidle as [Hfl Hqu].
  rewrite Hfl, Hqu, app_nil_r in Hperm.
  assert (Hc : 0 < concurrent o).
  { apply Hconc. left. intros ->. apply Permutation_nil in Hperm. discriminate. }
  destruct Hinv' as [Ha' [done' [Hperm' [_ Hacc']]]].
  assert (Hall : Permutation done (done' ++ in_flight s' ++ queued s')).
  { eapply Permutation_trans; [exact Hperm|now apply Permutation_sym]. }
  destruct (acc_after_perm Hall _ Hdone) as [r [Hr _]].
  rewrite acc_after_app in Hr.
  destruct (acc_after JSON_parse axios_get (res_data s1) done') as [a'|e] eqn:Hdone'; [|discriminate].
  destruct Hacc' as [_ [Hdes' [[Hpend' Hstart]|[Hres' Hidle']]]].
  - exfalso. destruct (in_flight s') as [|t fl] eqn:Hfl'.
    + destruct (queued s') as [|t rest] eqn:Hqu'.
      * assert (done' = []) by (apply Hstart; unfold idle; now rewrite Hfl', Hqu').
        subst done'. simpl in Hperm'. apply Permutation_nil in Hperm'. discriminate.
      * eapply Hfin'. apply step_dispatch; eauto. rewrite Hfl'. exact Hc.
    + eapply Hfin'. apply (step_answer JSON_parse axios_get url o s' [] t fl); auto.
  - exists a'. split; [congruence|].
    apply idle_in_flight in Hidle'. destruct Hidle' as [Hfl' Hqu'].
    rewrite Hfl', Hqu', app_nil_r in Hperm'.
    assert (Hdd : Permutation done done').
    { eapply Permutation_trans; [exact Hperm|now apply Permutation_sym]. }
    destruct (acc_after_perm Hdd _ Hdone) as [r' [Hr' Hrel]]. congruence.
Qed.

Lemma emit_records_cons_inv (body : value -> result call) (x : value)
    (l : list value) (calls : list call) :
  emit_records body (x :: l) = (calls, Ok tt) ->
  exists c cs, body x = Ok c /\ emit_records body l = (cs, Ok tt) /\ calls = c :: cs.
Proof.
  simpl. unfold bindE, lift, tell. intros H.
  destruct (body x) as [c|e]; [|discriminate].
  destruct (emit_records body l) as [cs r]. simpl in H.
  inversion H. subst. exists c, cs. auto.
Qed.

Lemma emit_records_cons (body : value -> result call) (x : value)
    (l : list value) (c : call) (cs : list call) :
  body x = Ok c -> emit_records body l = (cs, Ok tt) ->
  emit_records body (x :: l) = (c :: cs, Ok tt).
Proof.
  intros Hx Hl. simpl. unfold bindE, lift, tell. now rewrite Hx, Hl.
Qed.

(** A loop that completes makes one call per record, so reordering the
    records reorders the calls. *)
Lemma emit_records_perm (body : value -> result call) (l l' : list value) :
  Permutation l l' ->
  forall calls, emit_records body l = (calls, Ok tt) ->
    exists calls', emit_records body l' = (calls', Ok tt) /\ Permutation calls calls'.
Proof.
  induction 1 as [|x l l' Hp IH|x y l|l l' l'' Hp IH Hp' IH']; intros calls Hrun.
  - exists calls. split; [assumption|reflexivity].
  - apply emit_records_cons_inv in Hrun. destruct Hrun as [c [cs [Hx [Hl ->]]]].
    destruct (IH _ Hl) as [cs' [Hl' Hperm]].
    exists (c :: cs'). split; [now apply emit_records_cons|now constructor].
  - apply emit_records_cons_inv in Hrun. destruct Hrun as [cy [cs [Hy [Hl ->]]]].
    apply emit_records_cons_inv in Hl. destruct Hl as [cx [cs' [Hx [Hl ->]]]].
    exists (cx :: cy :: cs'). split; [|constructor].
    apply emit_records_cons; [assumption|]. now apply emit_records_cons.
  - destruct (IH _ Hrun) as [c1 [H1 P1]]. destruct (IH' _ H1) as [c2 [H2 P2]].
    exists c2. split; [assumption|]. eapply Permutation_trans; eauto.
Qed.

Lemma for_of_same_records (body : value -> result call) (v v' : value)
    (calls : list call) :
  same_records v v' -> for_of body v = (calls, Ok tt) ->
  exists calls', for_of body v' = (calls', Ok tt) /\ Permutation calls calls'.
Proof.
  intros [<-|[l [l' [-> [-> Hp]]]]] Hrun.
  - exists calls. split; [assumption|reflexivity].
  - unfold for_of, bindE, lift in *. simpl in *.
    destruct (emit_records body l) as [cs r] eqn:Hl. simpl in Hrun.
    inversion Hrun. subst. clear Hrun.
    destruct (emit_records_perm body Hp Hl) as [cs' [Hl' Hperm]].
    exists cs'. rewrite Hl'. simpl. auto.
Qed.

(** A loop over endpoints that completes in one run completes in every
    run, with the same calls up to order. *)
Lemma run_endpoints_agree (o : options) (body : value -> result call)
    (urls : list string) (calls : list call) :
  run_endpoints JSON_parse axios_get o body urls calls Done ->
  forall calls' out,
    run_endpoints JSON_parse axios_get o body urls calls' out ->
    out = Done /\ Permutation calls calls'.
Proof.
  intros Hrun. remember Done as d eqn:Hd. revert Hd.
  induction Hrun as [|url rest fetched cs cs' out Hfetch Hfor Hrest IH
                     |url rest fetched cs e Hfetch Hfor
                     |url rest e Hfetch|url rest Hfetch];
    intros Hd calls' out' Hrun'; try discriminate.
  - inversion Hrun'. subst. split; [reflexivity|constructor].
  - subst out.
    inversion Hrun' as [|u r f c c2 o2 Hf2 Hfor2 Hr2|u r f c e Hf2 Hfor2|u r e Hf2|u r Hf2];
      subst; destruct (fetch_resolved_agree Hfetch Hf2) as [v' [Hv Hrel]];
      try discriminate; inversion Hv; subst v'; clear Hv;
      destruct (for_of_same_records body Hrel Hfor) as [c3 [Hfor3 Hperm]];
      rewrite Hfor3 in Hfor2; try discriminate.
    inversion Hfor2. subst.
    destruct (IH eq_refl _ _ Hr2) as [-> Hperm'].
    split; [reflexivity|now apply Permutation_app].
Qed.

(** C7 (as amended).  When one run of [apply] against the remote data
    [axios_get] completes, every run against the same data completes, and
    the two runs make the same calls on the store up to the order in which
    the pages of an endpoint arrived: the same nodes, with the same stable
    ids, type keys and field values. *)
Theorem apply_runs_agree (cfg : plugin_options) (calls calls' : list call)
    (out : outcome) :
  apply JSON_parse axios_get makeUid cfg calls Done ->
  apply JSON_parse axios_get makeUid cfg calls' out ->
  out = Done /\ Permutation calls calls' /\
  (forall c, In c calls <-> In c calls').
Proof.
  intros Hrun Hrun'.
  assert (Hmain : out = Done /\ Permutation calls calls').
  { inversion Hrun as [| |cs posts taxonomies c1 c2 o1 Hdisc Hposts Hterms]; subst;
      [congruence|].
    inversion Hrun' as [cs' e Hdisc'
                       |cs' posts' taxonomies' c1' o2 Hdisc' Hposts' Hne
                       |cs' posts' taxonomies' c1' c2' o2 Hdisc' Hposts' Hterms']; subst.
    - rewrite Hdisc in Hdisc'. discriminate.
    - rewrite Hdisc in Hdisc'. inversion Hdisc'. subst.
      destruct (run_endpoints_agree Hposts Hposts') as [-> _]. congruence.
    - rewrite Hdisc in Hdisc'. inversion Hdisc'. subst.
      destruct (run_endpoints_agree Hposts Hposts') as [_ Hp1].
      destruct (run_endpoints_agree Hterms Hterms') as [-> Hp2].
      split; [reflexivity|].
      apply Permutation_app_head. now apply Permutation_app. }
  destruct Hmain as [-> Hperm]. repeat split; try assumption.
  - intros Hin. eapply Permutation_in; eauto.
  - intros Hin. eapply Permutation_in; [apply Permutation_sym|]; eauto.
Qed.

End Properties.

(** * Worked examples on the small sites *)

(** The fetch of [/posts] with both later pages in flight: two requests,
    the bound. *)
Lemma in_flight_at_most_concurrent_witness :
  List.length
    (in_flight
       (play json_parse demo_site (demo_base ++ "/posts") demo_options
          [First; Dispatch; Dispatch]
          (fetchPaged (demo_base ++ "/posts") demo_options))) <= 2.
Proof.
  apply (@in_flight_at_most_concurrent json_parse demo_site
           (demo_base ++ "/posts") demo_options).
  - simpl. lia.
  - apply play_steps.
Defined.

(** C10 as stated fails for a bound of zero: the request for the first
    page is sent before there is a queue, whatever the bound. *)
Lemma first_request_exceeds_zero_bound :
  reachable json_parse demo_site (demo_base ++ "/posts")
    {| perPage := 2; concurrent := 0 |}
    (fetchPaged (demo_base ++ "/posts") {| perPage := 2; concurrent := 0 |}) /\
  ~ List.length
      (in_flight (fetchPaged (demo_base ++ "/posts") {| perPage := 2; concurrent := 0 |}))
    <= concurrent {| perPage := 2; concurrent := 0 |}.
Proof.
  split; [constructor|]. simpl. lia.
Qed.

(** [/flaky] with pages 2 and 3 in flight, page 2 answered first: the
    promise is rejected with the task's id and the error, the queue is
    destroyed. *)
Lemma task_failure_rejects_and_stops_witness :
  destroyed
    (play json_parse demo_site (demo_base ++ "/flaky") demo_options
       [First; Dispatch; Dispatch; Answer 0]
       (fetchPaged (demo_base ++ "/flaky") demo_options)) = true /\
  settled
    (play json_parse demo_site (demo_base ++ "/flaky") demo_options
       [First; Dispatch; Dispatch; Answer 0]
       (fetchPaged (demo_base ++ "/flaky") demo_options)) =
  Rejected
    (Reason ("http://wp.test/wp-json/wp/v2/flaky?per_page=2&page=2" ++
             " failed with error: Error: Request failed with status code 404")).
Proof.
  destruct (@task_failure_rejects_and_stops json_parse demo_site
              (demo_base ++ "/flaky") demo_options
              (play json_parse demo_site (demo_base ++ "/flaky") demo_options
                 [First; Dispatch; Dispatch]
                 (fetchPaged (demo_base ++ "/flaky") demo_options))
              [] [demo_base ++ "/flaky?per_page=2&page=3"]
              (demo_base ++ "/flaky?per_page=2&page=2") not_found
              (play_steps _ _ _ _ _ _) eq_refl eq_refl eq_refl) as [_ Hafter].
  destruct (Hafter _ (steps_refl _ _ _ _ _)) as [Hd [_ [_ Hs]]].
  split; [exact Hd|]. apply Hs. reflexivity.
Defined.

(** [/mixed] fetched one request at a time: page 2, an HTML page, is
    answered while page 3 is still queued.  The promise is rejected with
    the normalization error, the queue is left running, and dispatching
    page 3 is the next step. *)
Lemma normalization_failure_keeps_queue_witness :
  settled
    (play json_parse demo_site (demo_base ++ "/mixed") {| perPage := 2; concurrent := 1 |}
       [First; Dispatch; Answer 0]
       (fetchPaged (demo_base ++ "/mixed") {| perPage := 2; concurrent := 1 |})) =
  Rejected
    (Error (malformed_message "http://wp.test/wp-json/wp/v2/mixed?per_page=2&page=2"
              "<html>Error</html>")) /\
  destroyed
    (play json_parse demo_site (demo_base ++ "/mixed") {| perPage := 2; concurrent := 1 |}
       [First; Dispatch; Answer 0]
       (fetchPaged (demo_base ++ "/mixed") {| perPage := 2; concurrent := 1 |})) = false /\
  step json_parse demo_site (demo_base ++ "/mixed") {| perPage := 2; concurrent := 1 |}
    (play json_parse demo_site (demo_base ++ "/mixed") {| perPage := 2; concurrent := 1 |}
       [First; Dispatch; Answer 0]
       (fetchPaged (demo_base ++ "/mixed") {| perPage := 2; concurrent := 1 |}))
    (play json_parse demo_site (demo_base ++ "/mixed") {| perPage := 2; concurrent := 1 |}
       [First; Dispatch; Answer 0; Dispatch]
       (fetchPaged (demo_base ++ "/mixed") {| perPage := 2; concurrent := 1 |})).
Proof.
  destruct (@normalization_failure_keeps_queue json_parse demo_site
              (demo_base ++ "/mixed") {| perPage := 2; concurrent := 1 |}
              (play json_parse demo_site (demo_base ++ "/mixed")
                 {| perPage := 2; concurrent := 1 |}
                 [First; Dispatch]
                 (fetchPaged (demo_base ++ "/mixed") {| perPage := 2; concurrent := 1 |}))
              [] []
              (demo_base ++ "/mixed?per_page=2&page=2")
              {| data := VStr "<html>Error</html>"; headers := [] |}
              (Error (malformed_message
                        "http://wp.test/wp-json/wp/v2/mixed?per_page=2&page=2"
                        "<html>Error</html>"))
              [demo_post 1 []; demo_post 2 []]
              eq_refl eq_refl eq_refl eq_refl eq_refl eq_refl)
    as [_ [Hs [Hd [_ [_ [Hdispatch _]]]]]].
  split; [exact Hs|]. split; [exact Hd|].
  apply (Hdispatch (demo_base ++ "/mixed?per_page=2&page=3") []).
  - reflexivity.
  - simpl. lia.
Defined.

(** [/posts] reports five items in three pages: pages 2 and 3 are queued,
    and a fetch that has run to its end has sent exactly three requests. *)
Lemma fetchPaged_requests_witness :
  queued
    (after_first json_parse (demo_base ++ "/posts") demo_options
       (demo_site (first_url (demo_base ++ "/posts") demo_options))
       (fetchPaged (demo_base ++ "/posts") demo_options)) =
  ["http://wp.test/wp-json/wp/v2/posts?per_page=2&page=2";
   "http://wp.test/wp-json/wp/v2/posts?per_page=2&page=3"] /\
  Z.of_nat
    (List.length
       (issued
          (play json_parse demo_site (demo_base ++ "/posts") demo_options
             [First; Dispatch; Dispatch; Answer 1; Answer 0]
             (fetchPaged (demo_base ++ "/posts") demo_options)))) = 3%Z.
Proof.
  destruct (@fetchPaged_requests json_parse demo_site (demo_base ++ "/posts")
              demo_options
              {| data := VArr [demo_post 1 [3; 7]%Z; demo_post 2 []];
                 headers := paged "5" "3" |} eq_refl) as [_ Hmany].
  destruct (Hmany 5%Z 3%Z (VArr [demo_post 1 [3; 7]%Z; demo_post 2 []])
              eq_refl ltac:(discriminate) eq_refl eq_refl eq_refl)
    as [Hq [_ [_ [_ [_ Hall]]]]].
  split; [exact Hq|].
  apply Hall.
  - simpl. lia.
  - intros p Hp. assert (Hcases : p = 2%Z \/ p = 3%Z) by lia.
    destruct Hcases as [-> | ->]; eexists; reflexivity.
  - apply play_steps.
  - apply idle_finished; reflexivity.
Defined.

(** C3 as stated fails when the totals disagree: [/empty] reports three
    pages and no items; the guard [!totalItems] lets the call resolve on
    the first answer, with nothing queued and one request sent, not
    three. *)
Lemma total_pages_without_items_counterexample :
  parseInt (header {| data := VArr []; headers := paged "0" "3" |} "x-wp-totalpages")
    = Some 3%Z /\
  demo_site (first_url (demo_base ++ "/empty") demo_options)
    = Ok {| data := VArr []; headers := paged "0" "3" |} /\
  ~ (forall s,
       reachable json_parse demo_site (demo_base ++ "/empty") demo_options s ->
       finished json_parse demo_site (demo_base ++ "/empty") demo_options s ->
       Z.of_nat (List.length (issued s)) = 3%Z).
Proof.
  split; [reflexivity|]. split; [reflexivity|].
  intros Hall.
  specialize (Hall (play json_parse demo_site (demo_base ++ "/empty") demo_options
                      [First] (fetchPaged (demo_base ++ "/empty") demo_options))
                   (play_steps _ _ _ _ _ _)).
  assert (Hfin : finished json_parse demo_site (demo_base ++ "/empty") demo_options
            (play json_parse demo_site (demo_base ++ "/empty") demo_options
               [First] (fetchPaged (demo_base ++ "/empty") demo_options))).
  { apply idle_finished; reflexivity. }
  specialize (Hall Hfin). vm_compute in Hall. discriminate.
Qed.

(** With the identity as [makeUid] the ids are the raw strings. *)
Lemma post_and_term_ids_never_collide_witness :
  makePostId (fun raw => raw) (VNum 7) <> makeTermId (fun raw => raw) (VNum 7).
Proof.
  destruct (@post_and_term_ids_never_collide (fun raw => raw) (VNum 7) (VNum 7))
    as [_ Hids].
  apply Hids. intros a b Hab. exact Hab.
Defined.



(** Two runs on the small site, the pages of [/posts] answered in order in
    one and page 3 before page 2 in the other: the calls differ in order
    and are the same calls. *)
Lemma apply_runs_agree_witness :
  demo_calls [First; Dispatch; Dispatch; Answer 0; Answer 0] <>
    demo_calls [First; Dispatch; Dispatch; Answer 1; Answer 0] /\
  Permutation
    (demo_calls [First; Dispatch; Dispatch; Answer 0; Answer 0])
    (demo_calls [First; Dispatch; Dispatch; Answer 1; Answer 0]).
Proof.
  split; [vm_compute; discriminate|].
  destruct (@apply_runs_agree json_parse demo_site (fun raw => raw) demo_config
              (demo_calls [First; Dispatch; Dispatch; Answer 0; Answer 0])
              (demo_calls [First; Dispatch; Dispatch; Answer 1; Answer 0])
              Done) as [_ [Hperm _]].
  - apply apply_play_sound with [[First; Dispatch; Dispatch; Answer 0; Answer 0]] [[First]].
    vm_compute. reflexivity.
  - apply apply_play_sound with [[First; Dispatch; Dispatch; Answer 1; Answer 0]] [[First]].
    vm_compute. reflexivity.
  - exact Hperm.
Defined.

(** C7 as stated fails for runs that do not complete.  Page 2 of [/posts]
    of this site ends with a [null] record, on which the loop over the
    records throws.  With page 2 answered before page 3 the run has added
    the nodes of posts 1 and 2 when it fails; with page 3 answered first it
    has added those of posts 1, 3 and 2: the same remote data, and
    different sets of stable ids. *)
Lemma failing_runs_add_different_nodes :
  apply json_parse holey_site (fun raw => raw) demo_config
    [addType "post" (VStr "Posts") (VStr "/:year/:month/:day/:slug");
     addNode (VStr "post")
       (PostNode "post-1" (VStr "Hello") None (VStr "hello") (VStr "") (VStr "") []);
     addNode (VStr "post")
       (PostNode "post-2" (VStr "Hello") None (VStr "hello") (VStr "") (VStr "") [])]
    (Failed (TypeError "Cannot read properties of null")) /\
  apply json_parse holey_site (fun raw => raw) demo_config
    [addType "post" (VStr "Posts") (VStr "/:year/:month/:day/:slug");
     addNode (VStr "post")
       (PostNode "post-1" (VStr "Hello") None (VStr "hello") (VStr "") (VStr "") []);
     addNode (VStr "post")
       (PostNode "post-3" (VStr "Hello") None (VStr "hello") (VStr "") (VStr "") []);
     addNode (VStr "post")
       (PostNode "post-2" (VStr "Hello") None (VStr "hello") (VStr "") (VStr "") [])]
    (Failed (TypeError "Cannot read properties of null")) /\
  ~ Permutation
      [addType "post" (VStr "Posts") (VStr "/:year/:month/:day/:slug");
       addNode (VStr "post")
         (PostNode "post-1" (VStr "Hello") None (VStr "hello") (VStr "") (VStr "") []);
       addNode (VStr "post")
         (PostNode "post-2" (VStr "Hello") None (VStr "hello") (VStr "") (VStr "") [])]
      [addType "post" (VStr "Posts") (VStr "/:year/:month/:day/:slug");
       addNode (VStr "post")
         (PostNode "post-1" (VStr "Hello") None (VStr "hello") (VStr "") (VStr "") []);
       addNode (VStr "post")
         (PostNode "post-3" (VStr "Hello") None (VStr "hello") (VStr "") (VStr "") []);
       addNode (VStr "post")
         (PostNode "post-2" (VStr "Hello") None (VStr "hello") (VStr "") (VStr "") [])].
Proof.
  split; [|split].
  - apply apply_play_sound with [[First; Dispatch; Dispatch; Answer 0; Answer 0]] [].
    vm_compute. reflexivity.
  - apply apply_play_sound with [[First; Dispatch; Dispatch; Answer 1; Answer 0]] [].
    vm_compute. reflexivity.
  - intros Hperm. apply Permutation_length in Hperm. discriminate.
Qed.

(** The second site: its one record is emitted, under the type [post] it
    carries. *)
Lemma addNode_uses_record_type_witness :
  exists emitted rest,
    [demo_post 1 []] = (emitted ++ rest)%list /\
    Forall2 (fun post c =>
               post_call (fun raw => raw) [] post = Ok c /\
               exists n, c = addNode (read post "type") n) emitted
      [addNode (VStr "post")
         (PostNode "post-1" (VStr "Hello") None (VStr "hello") (VStr "") (VStr "") [])] /\
    rest = [].
Proof.
  apply (proj1 (@addNode_uses_record_type (fun raw => raw) [] (VArr [demo_post 1 []])
                  [demo_post 1 []]
                  [addNode (VStr "post")
                     (PostNode "post-1" (VStr "Hello") None (VStr "hello") (VStr "")
                        (VStr "") [])]
                  (Ok tt) eq_refl)).
  reflexivity.
Defined.

(** C8 as stated fails on the second site: the only type discovered is
    [news], and the record fetched from its endpoint is emitted under
    [post], the type the record itself carries. *)
Lemma news_record_emitted_as_post :
  discover news_site news_options =
    ([addType "news" (VStr "News") VUndefined], Ok ([("news", VStr "news")], [])) /\
  apply json_parse news_site (fun raw => raw) news_options
    [addType "news" (VStr "News") VUndefined;
     addNode (VStr "post")
       (PostNode "post-1" (VStr "Hello") None (VStr "hello") (VStr "") (VStr "") [])]
    Done /\
  VStr "post" <> VStr "news".
Proof.
  split; [reflexivity|]. split; [|discriminate].
  apply apply_play_sound with [[First]] []. vm_compute. reflexivity.
Qed.

(** C4, where the code departs from it.  A text body that is not JSON gives
    the descriptive error with its preview; a body that is an object (a
    JSON object the client has already decoded) makes the catch block
    itself throw, and the error names neither the URL nor the body. *)
Theorem ensureArrayData_object_body :
  ensureArrayData json_parse "http://wp.test/wp-json/wp/v2/posts"
    (VStr "<html>Error</html>") =
    Throw (Error ("Failed to fetch http://wp.test/wp-json/wp/v2/posts" ++ nl ++
                  "Expected JSON response but got:" ++ nl ++
                  "<html>Error</html>..." ++ nl)) /\
  ensureArrayData json_parse "http://wp.test/wp-json/wp/v2/posts"
    (VObj [("code", VStr "rest_no_route")]) =
    Throw (TypeError "data.trim is not a function").
Proof. split; reflexivity. Qed.

(** C2, where the code departs from it.  The first request of [/missing]
    fails; the promise of [fetchPaged] is pending in every state the call
    can reach, and the call ends with its promise pending: it is never
    rejected. *)
Theorem first_request_failure_never_settles :
  demo_site (first_url (demo_base ++ "/missing") demo_options) = Throw not_found /\
  (forall s,
     reachable json_parse demo_site (demo_base ++ "/missing") demo_options s ->
     settled s = Pending) /\
  fetch_ends json_parse demo_site (demo_base ++ "/missing") demo_options Pending.
Proof.
  split; [reflexivity|]. split.
  - intros s Hs.
    now destruct (@first_failure_pending json_parse demo_site
                    (demo_base ++ "/missing") demo_options not_found s eq_refl Hs).
  - apply (@play_ends json_parse demo_site (demo_base ++ "/missing") demo_options [First]);
      reflexivity.
Qed.

(** * Further properties of the code *)

(** ** Discovery: the root check, the listings, the routes, the types *)

Lemma lookup_In {A} (k : string) (l : list (string * A)) (a : A) :
  lookup k l = Some a -> In k (map fst l).
Proof.
  induction l as [|[k' a'] l IH]; simpl; [discriminate|].
  destruct (String.eqb_spec k' k); [now left|]. intros H. right. now apply IH.
Qed.

Lemma existsb_eqb_In (k : string) (keys : list string) :
  existsb (String.eqb k) keys = true <-> In k keys.
Proof.
  rewrite existsb_exists. split.
  - intros [x [Hin Heq]]. apply String.eqb_eq in Heq. now subst.
  - intros Hin. exists k. split; [assumption|apply String.eqb_refl].
Qed.

(** What a chain of assignments leaves under a key: the value [g] gives
    when the key was among those assigned, and what was there otherwise. *)
Lemma lookup_set_all {A} (g : string -> option A) (keys : list string)
    (o : list (string * A)) (k : string) :
  lookup k (set_all g keys o) =
    match (if existsb (String.eqb k) keys then g k else None) with
    | Some a => Some a
    | None => lookup k o
    end.
Proof.
  unfold set_all. revert o. induction keys as [|k0 keys IH]; intros o; simpl.
  - reflexivity.
  - rewrite IH. destruct (String.eqb_spec k k0) as [->|Hne]; simpl.
    + destruct (existsb (String.eqb k0) keys).
      * destruct (g k0); reflexivity.
      * destruct (g k0); [apply lookup_obj_set_same|reflexivity].
    + destruct (existsb (String.eqb k) keys).
      * destruct (g k); [reflexivity|].
        destruct (g k0); [now apply lookup_obj_set_other|reflexivity].
      * destruct (g k0); [now apply lookup_obj_set_other|reflexivity].
Qed.

(** X3.  The route passed for a type is the configured one when the
    options give one for its key; otherwise the default
    ([/:year/:month/:day/:slug] for [post], [/tag/:slug] for [post_tag],
    [/category/:slug] for [category]); otherwise, for a key that is a
    property name of [Object.prototype] ([constructor], [toString], ...),
    what is inherited under that name; and [undefined] for any other key. *)
Theorem route_override_takes_precedence (custom : list (string * value))
    (typeName : string) :
  route_of (merged_routes custom) typeName =
    match lookup typeName custom with
    | Some r => Route r
    | None =>
        match lookup typeName default_routes with
        | Some r => Route r
        | None =>
            if existsb (String.eqb typeName) Object_prototype_names
            then Inherited typeName
            else Route VUndefined
        end
    end.
Proof.
  unfold route_of.
  change (merged_routes custom)
    with (set_all (fun k => lookup k custom) (own_keys custom) default_routes).
  rewrite lookup_set_all.
  destruct (lookup typeName custom) as [r|] eqn:Hc.
  - assert (Hin : existsb (String.eqb typeName) (own_keys custom) = true).
    { apply existsb_eqb_In. apply own_keys_In. eapply lookup_In; eauto. }
    now rewrite Hin.
  - now destruct (existsb (String.eqb typeName) (own_keys custom)).
Qed.

(** A chain of assignments none of which reaches the setter of
    [__proto__] with an object, an array or [null] leaves the prototype
    alone and adds every key but [__proto__]. *)
Lemma assign_all_plain (g : string -> value) (keys : list string) (o : object) :
  ignored_by_proto_setter (g "__proto__") = true ->
  proto o = Object_prototype ->
  has_own "__proto__" (own o) = false ->
  assign_all g keys o =
    {| own := set_all (fun k => Some (g k))
                (filter (fun k => negb (k =? "__proto__")) keys) (own o);
       proto := Object_prototype |}.
Proof.
  intros Hg. unfold assign_all, set_all.
  revert o. induction keys as [|k keys IH]; intros o Hp Hown; simpl.
  - destruct o. simpl in *. now subst.
  - unfold assign at 2, finds_proto_setter. rewrite Hp, Hown. simpl.
    destruct (String.eqb_spec k "__proto__") as [->|Hk]; simpl.
    + assert (Hsame : match g "__proto__" with
                      | VObj _ | VArr _ => {| own := own o; proto := Data_prototype (g "__proto__") |}
                      | VNull => {| own := own o; proto := Null_prototype |}
                      | _ => o
                      end = o)
        by (destruct (g "__proto__"); simpl in Hg; try discriminate; reflexivity).
      rewrite Hsame. now apply IH.
    + rewrite IH; simpl; auto.
      unfold has_own in *. rewrite lookup_obj_set_other by congruence. exact Hown.
Qed.

Lemma lookup_map_keys {A} (f : string -> A) (keys : list string) (k : string) :
  lookup k (map (fun x => (x, f x)) keys) =
    if existsb (String.eqb k) keys then Some (f k) else None.
Proof.
  induction keys as [|x keys IH]; simpl; [reflexivity|].
  rewrite IH. rewrite (String.eqb_sym k x).
  destruct (String.eqb_spec x k) as [->|Hne]; reflexivity.
Qed.

Lemma In_lookup {A} (k : string) (l : list (string * A)) :
  In k (map fst l) -> exists a, lookup k l = Some a.
Proof.
  induction l as [|[k' a] l IH]; simpl; [intros []|].
  intros [->|Hin].
  - rewrite String.eqb_refl. eauto.
  - destruct (k' =? k); eauto.
Qed.

(** What a loop over an object with the prototype it was made with sees
    under a key is the own property. *)
Lemma lookup_forin_entries_plain (l : list (string * value)) (k : string) :
  lookup k (forin_entries {| own := l; proto := Object_prototype |}) = lookup k l.
Proof.
  unfold forin_entries. simpl. rewrite app_nil_r, lookup_map_keys.
  destruct (existsb (String.eqb k) (own_keys l)) eqn:Hin.
  - apply existsb_eqb_In, own_keys_In, In_lookup in Hin.
    destruct Hin as [v ->]. reflexivity.
  - destruct (lookup k l) eqn:Hl; [|reflexivity].
    apply lookup_In, own_keys_In, existsb_eqb_In in Hl. congruence.
Qed.

Section Further.

Variable JSON_parse : string -> option value.
Variable axios_get : string -> result response.
Variable makeUid : string -> string.

(** A registration loop that completes has made one [addType] call per key
    it did not skip, in order, and has assigned each [rest_base]. *)
Lemma register_spec (skip : bool) (rs : list (string * value)) (types : value)
    (keys : list string) (rb rb' : object) (calls : list call) :
  register skip rs types keys rb = (calls, Ok rb') ->
  calls = map (registration rs types) (registered skip keys) /\
  rb' = assign_all (fun k => field types k "rest_base") (registered skip keys) rb.
Proof.
  revert rb calls. induction keys as [|k keys IH]; intros rb calls Hrun.
  - simpl in Hrun. inversion Hrun. subst. split; reflexivity.
  - simpl in Hrun. unfold bindE, lift, tell in Hrun. unfold registered. simpl.
    destruct (get types k) as [opts|e] eqn:Hopts; [|discriminate].
    destruct (skip && (k =? "attachment")) eqn:Hskip; simpl.
    + destruct (register skip rs types keys rb) as [cs r] eqn:Hrest.
      simpl in Hrun. inversion Hrun. subst. now apply IH.
    + destruct (get opts "rest_base") as [rest_base|e] eqn:Hrb; [|discriminate].
      destruct (get opts "name") as [name|e] eqn:Hname; [|discriminate].
      destruct (register skip rs types keys (assign k rest_base rb)) as [cs r] eqn:Hrest.
      simpl in Hrun. inversion Hrun. subst.
      destruct (IH _ _ Hrest) as [-> ->]. unfold registration, field, assign_all.
      rewrite Hopts, Hrb, Hname. split; reflexivity.
Qed.

(** What a completed discovery has done. *)
Lemma discover_inv (cfg : plugin_options) (calls : list call)
    (posts taxonomies : list (string * value)) :
  discover axios_get cfg = (calls, Ok (posts, taxonomies)) ->
  exists r1 r2,
    axios_get (restUrl (baseUrl cfg) ++ "/types") = Ok r1 /\
    axios_get (restUrl (baseUrl cfg) ++ "/taxonomies") = Ok r2 /\
    calls =
      (map (registration (merged_routes (routes cfg)) (data r1))
         (registered true (forin_keys (data r1))) ++
       map (registration (merged_routes (routes cfg)) (data r2))
         (forin_keys (data r2)))%list /\
    posts = forin_entries
              (assign_all (fun k => field (data r1) k "rest_base")
                 (registered true (forin_keys (data r1))) new_object) /\
    taxonomies = forin_entries
                   (assign_all (fun k => field (data r2) k "rest_base")
                      (forin_keys (data r2)) new_object).
Proof.
  unfold discover. intros Hrun.
  destruct (axios_get (restUrl (baseUrl cfg))) as [r0|e]; [|discriminate].
  unfold bindE, lift, ret in Hrun.
  destruct (axios_get (restUrl (baseUrl cfg) ++ "/types")) as [r1|e]; [|discriminate].
  destruct (axios_get (restUrl (baseUrl cfg) ++ "/taxonomies")) as [r2|e]; [|discriminate].
  destruct (register true _ (data r1) _ new_object) as [c1 [p|e]] eqn:H1; [|discriminate].
  destruct (register false _ (data r2) _ new_object) as [c2 [t|e]] eqn:H2; [|discriminate].
  simpl in Hrun. inversion Hrun. subst.
  apply register_spec in H1. apply register_spec in H2.
  destruct H1 as [-> ->]. destruct H2 as [-> ->].
  assert (Hall : registered false (forin_keys (data r2)) = forin_keys (data r2)).
  { unfold registered. simpl.
    clear. induction (forin_keys (data r2)); simpl; [reflexivity|now f_equal]. }
  exists r1, r2. rewrite Hall, !app_nil_r. repeat split; reflexivity.
Qed.

(** X1.  When the GET of the REST root fails, a run of [apply] fails with
    [Failed to fetch baseUrl] followed by the configured base URL (not the
    transport's own error), and has made no call on the store. *)
Theorem unreachable_base_fails_before_any_call (cfg : plugin_options)
    (e : exn) (calls : list call) (out : outcome) :
  axios_get (restUrl (baseUrl cfg)) = Throw e ->
  apply JSON_parse axios_get makeUid cfg calls out ->
  calls = [] /\ out = Failed (Error ("Failed to fetch baseUrl " ++ baseUrl cfg)).
Proof.
  intros Hroot Hrun.
  assert (Hdisc : discover axios_get cfg =
            ([], Throw (Error ("Failed to fetch baseUrl " ++ baseUrl cfg)))).
  { unfold discover. now rewrite Hroot. }
  inversion Hrun as [cs e' Hd|cs p t c1 o1 Hd|cs p t c1 c2 o1 Hd]; subst;
    rewrite Hdisc in Hd; inversion Hd; subst; auto.
Qed.

(** X2.  When the root answers and the listing of types, or after it the
    listing of taxonomies, fails, a run of [apply] fails with that very
    error and has made no call on the store: no type is registered before
    both listings are in. *)
Theorem listing_failure_fails_before_any_call (cfg : plugin_options)
    (r0 : response) (e : exn) (calls : list call) (out : outcome) :
  axios_get (restUrl (baseUrl cfg)) = Ok r0 ->
  (axios_get (restUrl (baseUrl cfg) ++ "/types") = Throw e \/
   (exists r1, axios_get (restUrl (baseUrl cfg) ++ "/types") = Ok r1) /\
   axios_get (restUrl (baseUrl cfg) ++ "/taxonomies") = Throw e) ->
  apply JSON_parse axios_get makeUid cfg calls out ->
  calls = [] /\ out = Failed e.
Proof.
  intros Hroot Hlist Hrun.
  assert (Hdisc : discover axios_get cfg = ([], Throw e)).
  { unfold discover. rewrite Hroot. unfold bindE, lift.
    destruct Hlist as [Ht|[[r1 Ht] Hx]]; rewrite Ht; [reflexivity|].
    now rewrite Hx. }
  inversion Hrun as [cs e' Hd|cs p t c1 o1 Hd|cs p t c1 c2 o1 Hd]; subst;
    rewrite Hdisc in Hd; inversion Hd; subst; auto.
Qed.

(** X4.  A discovery that completes has called [addType] once for every key
    of the listing of types except [attachment], then once for every key of
    the listing of taxonomies, in the order of the listings, each with the
    listed [name] and with [routes[typeName]], read through the prototype
    chain; these are all its calls. *)
Theorem discover_registers_every_type (cfg : plugin_options) (calls : list call)
    (posts taxonomies : list (string * value)) (r1 r2 : response) :
  axios_get (restUrl (baseUrl cfg) ++ "/types") = Ok r1 ->
  axios_get (restUrl (baseUrl cfg) ++ "/taxonomies") = Ok r2 ->
  discover axios_get cfg = (calls, Ok (posts, taxonomies)) ->
  calls =
    (map (fun typeName =>
            addType typeName (field (data r1) typeName "name")
              (route_of (merged_routes (routes cfg)) typeName))
       (filter (fun k => negb (k =? "attachment")) (forin_keys (data r1))) ++
     map (fun typeName =>
            addType typeName (field (data r2) typeName "name")
              (route_of (merged_routes (routes cfg)) typeName))
       (forin_keys (data r2)))%list.
Proof.
  intros H1 H2 Hdisc. apply discover_inv in Hdisc.
  destruct Hdisc as [r1' [r2' [H1' [H2' [Hcalls _]]]]].
  rewrite H1 in H1'. rewrite H2 in H2'. inversion H1'. inversion H2'. subst r1' r2'.
  exact Hcalls.
Qed.

(** X5.  After a discovery that completes, when the listing of types does
    not carry an object, an array or [null] as the [rest_base] of a key
    [__proto__]: the loop over [restBases.posts] sees an entry for exactly
    the keys of the listing other than [attachment] and [__proto__], holding
    the listed [rest_base].  Attachments get no endpoint, whatever the
    listing says, and neither does a type called [__proto__], whose
    assignment adds no property. *)
Theorem attachment_is_never_fetched (cfg : plugin_options) (calls : list call)
    (posts taxonomies : list (string * value)) (r1 : response) (typeName : string) :
  axios_get (restUrl (baseUrl cfg) ++ "/types") = Ok r1 ->
  discover axios_get cfg = (calls, Ok (posts, taxonomies)) ->
  ignored_by_proto_setter (field (data r1) "__proto__" "rest_base") = true ->
  lookup "attachment" posts = None /\
  lookup "__proto__" posts = None /\
  lookup typeName posts =
    (if negb (typeName =? "attachment") && negb (typeName =? "__proto__") &&
        existsb (String.eqb typeName) (forin_keys (data r1))
     then Some (field (data r1) typeName "rest_base")
     else None).
Proof.
  intros H1 Hdisc Hplain. apply discover_inv in Hdisc.
  destruct Hdisc as [r1' [r2' [H1' [_ [_ [Hposts _]]]]]].
  rewrite H1 in H1'. inversion H1'. subst r1'. clear H1'.
  rewrite (assign_all_plain (fun k => field (data r1) k "rest_base") _ new_object
             Hplain eq_refl eq_refl) in Hposts.
  assert (Hkeys : forall k,
            lookup k posts =
              if negb (k =? "attachment") && negb (k =? "__proto__") &&
                 existsb (String.eqb k) (forin_keys (data r1))
              then Some (field (data r1) k "rest_base") else None).
  { intros k. subst posts. rewrite lookup_forin_entries_plain, lookup_set_all. simpl.
    assert (Hin : existsb (String.eqb k)
                    (filter (fun x => negb (x =? "__proto__"))
                       (registered true (forin_keys (data r1)))) =
                  negb (k =? "attachment") && negb (k =? "__proto__") &&
                  existsb (String.eqb k) (forin_keys (data r1))).
    { unfold registered. simpl.
      induction (forin_keys (data r1)) as [|x l IH]; simpl.
      - now rewrite andb_false_r.
      - destruct (String.eqb_spec x "attachment") as [->|Hx]; simpl.
        + rewrite IH. destruct (String.eqb_spec k "attachment"); simpl; reflexivity.
        + destruct (String.eqb_spec x "__proto__") as [->|Hx']; simpl.
          * rewrite IH. destruct (String.eqb_spec k "__proto__"); simpl;
              [now rewrite andb_false_r|reflexivity].
          * rewrite IH. destruct (String.eqb_spec k x) as [->|Hk]; simpl; [|reflexivity].
            destruct (String.eqb_spec x "attachment"); [contradiction|].
            destruct (String.eqb_spec x "__proto__"); [contradiction|reflexivity]. }
    rewrite Hin.
    now destruct (negb (k =? "attachment") && negb (k =? "__proto__") &&
                  existsb (String.eqb k) (forin_keys (data r1))). }
  split; [now rewrite Hkeys|]. split; [|apply Hkeys].
  now rewrite Hkeys.
Qed.

(** ** The REST prefix *)

Lemma rev_string_acc (s acc : string) :
  rev_string s acc = rev_string s "" ++ acc.
Proof.
  revert acc. induction s as [|c s IH]; intros acc; simpl; [reflexivity|].
  rewrite (IH (String c acc)), (IH (String c "")).
  clear. induction (rev_string s "") as [|x r IHr]; simpl; [reflexivity|now rewrite IHr].
Qed.

Lemma rev_string_app (a b acc : string) :
  rev_string (a ++ b) acc = rev_string b (rev_string a acc).
Proof. revert acc. induction a as [|c a IH]; intros acc; simpl; auto. Qed.

Lemma rev_string_involutive (s : string) : rev_string (rev_string s "") "" = s.
Proof.
  assert (H : forall a acc, rev_string (rev_string a acc) "" = rev_string acc a).
  { induction a as [|c a IH]; intros acc; simpl; [reflexivity|]. now rewrite IH. }
  now rewrite H.
Qed.

Lemma only_slashes_rev (s acc : string) :
  only_slashes s = true -> only_slashes acc = true ->
  only_slashes (rev_string s acc) = true.
Proof.
  revert acc. induction s as [|c s IH]; intros acc Hs Hacc; simpl in *; [assumption|].
  apply andb_prop in Hs. destruct Hs as [Hc Hs]. apply IH; [assumption|].
  simpl. now rewrite Hc, Hacc.
Qed.

Lemma drop_slashes_app (t s : string) :
  only_slashes t = true -> drop_slashes (t ++ s) = drop_slashes s.
Proof.
  induction t as [|c t IH]; simpl; intros Ht; [reflexivity|].
  apply andb_prop in Ht. destruct Ht as [Hc Ht]. rewrite Hc. now apply IH.
Qed.

(** What [drop_slashes] removes is slashes, and what it leaves does not
    start with one. *)
Lemma drop_slashes_split (s : string) :
  exists t, s = t ++ drop_slashes s /\ only_slashes t = true /\
            forall r, drop_slashes s <> String "/" r.
Proof.
  induction s as [|c s IH]; simpl.
  - exists "". repeat split. discriminate.
  - destruct (code c =? 47)%nat eqn:Hc.
    + destruct IH as [t [Hs [Ht Hno]]]. exists (String c t). simpl.
      rewrite Hc, Ht. repeat split; [now f_equal|exact Hno].
    + exists "". repeat split. intros r Hr. inversion Hr. subst c. discriminate.
Qed.

(** X6.  The REST prefix does not depend on how many slashes end the
    configured base URL. *)
Theorem restUrl_ignores_trailing_slashes (base slashes : string) :
  only_slashes slashes = true ->
  restUrl (base ++ slashes) = restUrl base.
Proof.
  intros Ht. unfold restUrl. f_equal. f_equal.
  rewrite rev_string_app, rev_string_acc.
  apply drop_slashes_app. now apply only_slashes_rev.
Qed.

(** X7.  The REST prefix is the base URL without the slashes that end it,
    followed by [/wp-json/wp/v2]: what is removed is only slashes, and what
    is kept does not end with a slash. *)
Theorem restUrl_strips_exactly_the_trailing_slashes (base : string) :
  exists core slashes,
    base = core ++ slashes /\ only_slashes slashes = true /\
    (forall r, core <> r ++ "/") /\
    restUrl base = core ++ "/wp-json/wp/v2".
Proof.
  destruct (drop_slashes_split (rev_string base "")) as [t [Hs [Ht Hno]]].
  exists (rev_string (drop_slashes (rev_string base "")) ""), (rev_string t "").
  split; [|split; [|split]].
  - rewrite <- (rev_string_involutive base) at 1. rewrite Hs at 1.
    rewrite rev_string_app. apply rev_string_acc.
  - now apply only_slashes_rev.
  - intros r Hr. apply (f_equal (fun x => rev_string x "")) in Hr.
    rewrite rev_string_involutive, rev_string_app in Hr. simpl in Hr.
    now apply Hno in Hr.
  - reflexivity.
Qed.

(** ** The loops over fetched records *)

(** X8.  A loop over fetched records calls [addNode] once for each record,
    in order, up to the first record on which the body throws: the nodes
    of the records before it have been emitted when the run fails, none of
    the records after it is looked at, and a loop that completes has
    emitted every record. *)
Theorem for_of_emits_up_to_the_first_throw (body : value -> result call)
    (fetched : value) (records : list value) (calls : list call) (r : result unit) :
  iterate fetched = Ok records ->
  for_of body fetched = (calls, r) ->
  exists done rest,
    records = (done ++ rest)%list /\
    Forall2 (fun record c => body record = Ok c) done calls /\
    match r with
    | Ok _ => rest = []
    | Throw e => exists bad rest', rest = bad :: rest' /\ body bad = Throw e
    end.
Proof.
  intros Hit. unfold for_of, bindE, lift. rewrite Hit.
  destruct (emit_records body records) as [cs r'] eqn:Hrun. simpl.
  intros H. inversion H. subst. clear H Hit.
  revert calls r Hrun. induction records as [|x records IH]; intros calls r Hrun.
  - simpl in Hrun. inversion Hrun. subst. exists [], []. repeat split. constructor.
  - simpl in Hrun. unfold bindE, lift, tell in Hrun.
    destruct (body x) as [c|e] eqn:Hx.
    + destruct (emit_records body records) as [cs r'] eqn:Hrest. simpl in Hrun.
      inversion Hrun. subst. clear Hrun.
      destruct (IH _ _ eq_refl) as [done [rest [-> [Hall Hr]]]].
      exists (x :: done), rest. repeat split; [now constructor|exact Hr].
    + inversion Hrun. subst. exists [], (x :: records). repeat split; [constructor|].
      eauto.
Qed.

(** X9.  A reference on a post and the node of the term it refers to carry
    the same stable id: for a post whose node is built, a known taxonomy
    other than [__proto__] whose property on the post lists the remote id
    [id], and a term record with that remote id, the id of the term's node
    is among the post's [refs] for that taxonomy. *)
Theorem reference_is_the_term_node_id (taxonomies : list (string * value))
    (post term id : value) (ids : list value) (typeName : string)
    (refs : list (string * list string)) (c : call) :
  build_refs makeUid taxonomies post = Ok refs ->
  In typeName (map fst taxonomies) ->
  typeName <> "__proto__" ->
  own_property post (propName taxonomies typeName) = Some (VArr ids) ->
  In id ids ->
  get term "id" = Ok id ->
  term_call makeUid term = Ok c ->
  exists k slug title count targets,
    c = addNode k (TermNode (makeTermId makeUid id) slug title count) /\
    lookup typeName refs = Some targets /\
    In (makeTermId makeUid id) targets.
Proof.
  intros Hrefs Hknown Hplain Hown Hin Hid Hterm.
  unfold build_refs in Hrefs.
  destruct (add_refs_spec _ _ _ _ _ Hrefs typeName) as [Hspec _].
  specialize (Hspec Hknown Hplain). rewrite Hown in Hspec.
  destruct Hspec as [ids' [Hids Hlookup]]. inversion Hids. subst ids'.
  unfold term_call, bind in Hterm. rewrite Hid in Hterm.
  destruct (get term "taxonomy") as [k|]; [|discriminate].
  destruct (get term "slug") as [slug|]; [|discriminate].
  destruct (get term "name") as [name|]; [|discriminate].
  destruct (get term "count") as [count|]; [|discriminate].
  inversion Hterm. subst.
  exists k, slug, name, count, (map (makeTermId makeUid) ids).
  repeat split; [assumption|]. now apply in_map.
Qed.

(** ** Stable ids of numeric remote ids *)

Lemma to_int_not_nil (z : Z) :
  Z.to_int z <> Decimal.Pos Decimal.Nil /\ Z.to_int z <> Decimal.Neg Decimal.Nil.
Proof.
  destruct z as [|p|p]; simpl; split; try discriminate;
    intros H; inversion H as [Hp]; now apply DecimalPos.Unsigned.to_uint_nonnil in Hp.
Qed.

(** Different integers print differently. *)
Lemma string_of_Z_inj (z z' : Z) : string_of_Z z = string_of_Z z' -> z = z'.
Proof.
  unfold string_of_Z. intros H. apply DecimalZ.to_int_inj.
  destruct (to_int_not_nil z) as [H1 H2]. destruct (to_int_not_nil z') as [H1' H2'].
  pose proof (NilZero.isi _ H1 H2) as Hz. pose proof (NilZero.isi _ H1' H2') as Hz'.
  rewrite H in Hz. rewrite Hz in Hz'. now inversion Hz'.
Qed.

(** X10.  Within a namespace, records with different numeric remote ids get
    different stable ids, for a store whose [makeUid] maps different
    strings to different ids: equal post ids, or equal term ids, come from
    equal remote ids. *)
Theorem numeric_ids_keep_apart (z z' : Z) :
  (forall a b, makeUid a = makeUid b -> a = b) ->
  (makePostId makeUid (VNum z) = makePostId makeUid (VNum z') -> z = z') /\
  (makeTermId makeUid (VNum z) = makeTermId makeUid (VNum z') -> z = z').
Proof.
  intros Hinj. unfold makePostId, makeTermId. simpl.
  split; intros H; apply Hinj in H; inversion H; now apply string_of_Z_inj.
Qed.

(** ** The order of the calls on the store *)

Lemma register_calls (skip : bool) (rs : list (string * value)) (types : value)
    (keys : list string) (rb : object) :
  Forall is_addType (fst (register skip rs types keys rb)).
Proof.
  revert rb. induction keys as [|k keys IH]; intros rb; simpl; [constructor|].
  unfold bindE, lift, tell.
  destruct (get types k) as [opts|e]; simpl; [|constructor].
  destruct (skip && (k =? "attachment")).
  - specialize (IH rb). now destruct (register skip rs types keys rb).
  - destruct (get opts "rest_base") as [rest_base|e]; simpl; [|constructor].
    destruct (get opts "name") as [name|e]; simpl; [|constructor].
    specialize (IH (assign k rest_base rb)).
    destruct (register skip rs types keys (assign k rest_base rb)). simpl in *.
    constructor; [exact I|assumption].
Qed.

Lemma discover_calls (cfg : plugin_options) :
  Forall is_addType (fst (discover axios_get cfg)).
Proof.
  unfold discover. destruct (axios_get (restUrl (baseUrl cfg))); [|constructor].
  unfold bindE, lift, ret.
  destruct (axios_get (restUrl (baseUrl cfg) ++ "/types")) as [r1|]; [|constructor].
  destruct (axios_get (restUrl (baseUrl cfg) ++ "/taxonomies")) as [r2|]; [|constructor].
  pose proof (register_calls true (merged_routes (routes cfg)) (data r1)
                (forin_keys (data r1)) new_object) as H1.
  destruct (register true _ (data r1) _ new_object) as [c1 [p|e]]; simpl in *;
    [|assumption].
  pose proof (register_calls false (merged_routes (routes cfg)) (data r2)
                (forin_keys (data r2)) new_object) as H2.
  destruct (register false _ (data r2) _ new_object) as [c2 [t|e]]; simpl in *;
    rewrite ?app_nil_r; apply Forall_app; auto.
Qed.

Lemma run_endpoints_calls (o : options) (body : value -> result call)
    (urls : list string) (calls : list call) (out : outcome) :
  (forall record c, body record = Ok c -> is_addNode c) ->
  run_endpoints JSON_parse axios_get o body urls calls out ->
  Forall is_addNode calls.
Proof.
  intros Hbody Hrun.
  assert (Hfor : forall fetched cs r, for_of body fetched = (cs, r) -> Forall is_addNode cs).
  { intros fetched cs r Hfor. apply Forall_forall. intros c Hin.
    destruct (for_of_calls _ _ Hfor c Hin) as [records [record [_ [_ Hb]]]]. eauto. }
  induction Hrun; try constructor; eauto. apply Forall_app. eauto.
Qed.

(** X11.  In every run of [apply], complete or not, every [addType] call
    comes before every [addNode] call: the calls are the registrations of
    the discovered types followed by the nodes. *)
Theorem types_are_registered_before_nodes (cfg : plugin_options)
    (calls : list call) (out : outcome) :
  apply JSON_parse axios_get makeUid cfg calls out ->
  exists registrations nodes,
    calls = (registrations ++ nodes)%list /\
    Forall is_addType registrations /\ Forall is_addNode nodes.
Proof.
  assert (Hpost : forall taxonomies record c,
            post_call makeUid taxonomies record = Ok c -> is_addNode c).
  { intros taxonomies record c H. apply post_call_type in H.
    destruct H as [k [n [_ ->]]]. exact I. }
  assert (Hterm : forall record c, term_call makeUid record = Ok c -> is_addNode c).
  { intros record c H. apply term_call_taxonomy in H.
    destruct H as [k [n [_ ->]]]. exact I. }
  intros Hrun. pose proof (discover_calls cfg) as Hdisc.
  inversion Hrun as [cs e Hd|cs p t c1 o1 Hd H1|cs p t c1 c2 o1 Hd H1 H2]; subst;
    rewrite Hd in Hdisc; simpl in Hdisc.
  - exists calls, []. rewrite app_nil_r. repeat split; auto.
  - exists cs, c1. repeat split; auto.
    eapply run_endpoints_calls; [|exact H1]. apply Hpost.
  - exists cs, (c1 ++ c2)%list. repeat split; auto. apply Forall_app. split.
    + eapply run_endpoints_calls; [|exact H1]. apply Hpost.
    + eapply run_endpoints_calls; [|exact H2]. apply Hterm.
Qed.

(** ** The node of an ordinary record *)




(** ** What a fetch resolves with *)

Lemma acc_after_array (done : list string) (a0 a : value) (l0 : list value) :
  acc_after JSON_parse axios_get a0 done = Ok a -> a0 = VArr l0 ->
  exists later,
    Forall2 (page_gave JSON_parse axios_get) done later /\ a = VArr (l0 ++ concat later).
Proof.
  revert a0 l0. induction done as [|t done IH]; intros a0 l0 Hrun Ha0; simpl in Hrun.
  - inversion Hrun. subst. exists []. split; [constructor|]. simpl. now rewrite app_nil_r.
  - unfold taskHandler in Hrun.
    destruct (axios_get t) as [r|e] eqn:Hr; [|discriminate].
    destruct (push_page JSON_parse a0 t (data r)) as [a1|e] eqn:Hpush; [|discriminate].
    simpl in Hrun. apply push_page_inv in Hpush.
    destruct Hpush as [l [d [items [Hl [Hd [Hi ->]]]]]].
    rewrite Ha0 in Hl. inversion Hl. subst l.
    destruct (IH _ _ Hrun eq_refl) as [later [Hall ->]].
    exists (items :: later). split.
    + constructor; [|assumption]. exists r, d. auto.
    + simpl. now rewrite app_assoc.
Qed.

Lemma acc_after_starts_from_an_array (done : list string) (d a : value) :
  done <> [] -> acc_after JSON_parse axios_get d done = Ok a ->
  exists l0, d = VArr l0.
Proof.
  destruct done as [|t done]; [congruence|]. intros _ Hrun. simpl in Hrun.
  destruct (taskHandler axios_get t) as [r|e]; [|discriminate].
  destruct (push_page JSON_parse d t (data r)) as [a1|e] eqn:Hpush; [|discriminate].
  apply push_page_inv in Hpush. destruct Hpush as [l [_ [_ [-> _]]]]. eauto.
Qed.


Lemma Forall2_In_l {A B} (P : A -> B -> Prop) (l : list A) (l' : list B) (x : A) :
  Forall2 P l l' -> In x l -> exists y, P x y.
Proof.
  induction 1 as [|a b l l' Hab Hall IH]; intros Hin; [destruct Hin|].
  destruct Hin as [->|Hin]; eauto.
Qed.

(** The state after the first answer when there are several pages. *)
Lemma after_first_several_pages (url : string) (o : options) (res : response)
    (n T : Z) (d : value) :
  parseInt (header res "x-wp-total") = Some n -> n <> 0%Z ->
  parseInt (header res "x-wp-totalpages") = Some T -> (1 < T)%Z ->
  ensureArrayData JSON_parse url (data res) = Ok d ->
  after_first JSON_parse url o (Ok res) (fetchPaged url o) =
    {| awaiting_first := false; settled := Pending; res_data := d;
       queued := map (page_url url o) (pages (Some T));
       in_flight := []; destroyed := false; issued := [first_url url o] |}.
Proof.
  intros Hn Hn0 HT HT1 Hd. unfold after_first. rewrite Hd, Hn, HT.
  unfold single_page. destruct n; try congruence;
    destruct (Z.leb_spec T 1); try lia; reflexivity.
Qed.

Lemma after_first_malformed (url : string) (o : options) (res : response) (err : exn) :
  ensureArrayData JSON_parse url (data res) = Throw err ->
  after_first JSON_parse url o (Ok res) (fetchPaged url o) =
    {| awaiting_first := false; settled := Rejected err; res_data := VUndefined;
       queued := []; in_flight := []; destroyed := false; issued := [first_url url o] |}.
Proof. intros Herr. unfold after_first. now rewrite Herr. Qed.

(** A fetch of several pages that resolved has handled every task, each
    once, and resolved with what they accumulated. *)
Lemma resolved_core (url : string) (o : options) (res : response) (n T : Z) (v : value) :
  axios_get (first_url url o) = Ok res ->
  parseInt (header res "x-wp-total") = Some n -> n <> 0%Z ->
  parseInt (header res "x-wp-totalpages") = Some T -> (1 < T)%Z ->
  fetch_ends JSON_parse axios_get url o (Resolved v) ->
  exists d done,
    ensureArrayData JSON_parse url (data res) = Ok d /\
    done <> [] /\
    Permutation done (map (page_url url o) (pages (Some T))) /\
    acc_after JSON_parse axios_get d done = Ok v.
Proof.
  intros Hfirst Hn Hn0 HT HT1 [s [Hs [Hfin Hv]]].
  destruct (reachable_cases Hs) as [->|Hrun]; [discriminate|].
  rewrite Hfirst in Hrun.
  destruct (ensureArrayData JSON_parse url (data res)) as [d|err] eqn:Hd.
  - rewrite (@after_first_several_pages url o res n T d Hn Hn0 HT HT1 Hd) in Hrun.
    assert (Hne : map (page_url url o) (pages (Some T)) <> []).
    { intros Hnil. apply (f_equal (@List.length string)) in Hnil.
      rewrite length_map, pages_length in Hnil. simpl in Hnil. lia. }
    assert (Hinv : fanout_inv JSON_parse axios_get o d
                     (map (page_url url o) (pages (Some T))) s).
    { eapply steps_invariant; [|exact Hrun|].
      - intros x x'. apply step_fanout_inv.
      - split; [reflexivity|]. exists []. simpl. split; [reflexivity|]. split.
        + intros [H|H]; congruence.
        + repeat split. left. split; [reflexivity|]. intros _. reflexivity. }
    destruct Hinv as [_ [done [Hperm [_ Hacc]]]].
    destruct (acc_after JSON_parse axios_get d done) as [a|e] eqn:Hdone;
      [|destruct Hacc as [e' He']; congruence].
    destruct Hacc as [_ [_ [[Hp _]|[Hres Hidle]]]]; [congruence|].
    apply idle_in_flight in Hidle. destruct Hidle as [Hfl Hqu].
    rewrite Hfl, Hqu, app_nil_r in Hperm.
    exists d, done. repeat split; try assumption; [|congruence].
    intros ->. apply Permutation_nil in Hperm. auto.
  - rewrite (@after_first_malformed url o res err Hd) in Hrun.
    assert (Hidle : finished JSON_parse axios_get url o
              {| awaiting_first := false; settled := Rejected err; res_data := VUndefined;
                 queued := []; in_flight := []; destroyed := false;
                 issued := [first_url url o] |}) by now apply idle_finished.
    apply (finished_steps Hidle) in Hrun. subst s. discriminate.
Qed.


(** X14.  When the first answer announces several pages and the request of
    one of the pages [2..T] fails, or its body cannot be normalized, the
    fetch does not resolve, whatever the order of the answers: a resolved
    fetch is never short of a page. *)
Theorem a_failed_page_prevents_resolution (url : string) (o : options)
    (res : response) (n T page : Z) (v : value) :
  axios_get (first_url url o) = Ok res ->
  parseInt (header res "x-wp-total") = Some n -> n <> 0%Z ->
  parseInt (header res "x-wp-totalpages") = Some T -> (1 < T)%Z ->
  (2 <= page <= T)%Z ->
  ((exists e, axios_get (page_url url o page) = Throw e) \/
   (exists r e, axios_get (page_url url o page) = Ok r /\
                ensureArrayData JSON_parse (page_url url o page) (data r) = Throw e)) ->
  ~ fetch_ends JSON_parse axios_get url o (Resolved v).
Proof.
  intros Hfirst Hn Hn0 HT HT1 Hpage Hbad Hends.
  destruct (resolved_core Hfirst Hn Hn0 HT HT1 Hends)
    as [d [done [Hd [Hne [Hperm Hacc]]]]].
  destruct (@acc_after_starts_from_an_array done d v Hne Hacc) as [first ->].
  destruct (@acc_after_array done (VArr first) v first Hacc eq_refl) as [later [Hall _]].
  assert (Hin : In (page_url url o page) done).
  { eapply Permutation_in; [apply Permutation_sym; exact Hperm|].
    apply in_map. now apply pages_In. }
  destruct (@Forall2_In_l _ _ _ _ _ (page_url url o page) Hall Hin) as [items [r [d [Hr [Hd' _]]]]].
  destruct Hbad as [[e He]|[r' [e [Hr' He]]]]; congruence.
Qed.

(** X15.  When the body of the first page cannot be normalized, the promise
    is rejected with the normalization error as soon as the first answer is
    in, whatever totals the headers announce; no task is queued and the
    first request stays the only one. *)
Theorem malformed_first_page_rejects (url : string) (o : options)
    (res : response) (err : exn) (s : fetch_state) :
  axios_get (first_url url o) = Ok res ->
  ensureArrayData JSON_parse url (data res) = Throw err ->
  reachable JSON_parse axios_get url o s ->
  issued s = [first_url url o] /\
  queued s = [] /\
  (awaiting_first s = false -> settled s = Rejected err) /\
  fetch_ends JSON_parse axios_get url o (Rejected err).
Proof.
  intros Hfirst Herr Hs.
  assert (Hfin : finished JSON_parse axios_get url o
            {| awaiting_first := false; settled := Rejected err; res_data := VUndefined;
               queued := []; in_flight := []; destroyed := false;
               issued := [first_url url o] |}) by now apply idle_finished.
  assert (Hends : fetch_ends JSON_parse axios_get url o (Rejected err)).
  { eexists. split; [|split; [exact Hfin|reflexivity]].
    eapply steps_step; [apply step_first; reflexivity|].
    rewrite Hfirst, (@after_first_malformed url o res err Herr). constructor. }
  destruct (reachable_cases Hs) as [->|Hrun].
  - repeat split; auto. discriminate.
  - rewrite Hfirst, (@after_first_malformed url o res err Herr) in Hrun.
    apply (finished_steps Hfin) in Hrun. subst s. repeat split; auto.
Qed.

(** ** The requests of a fetch are all different *)

Lemma append_inv_head (a b c : string) : a ++ b = a ++ c -> b = c.
Proof. induction a as [|x a IH]; simpl; intros H; [assumption|]. inversion H. auto. Qed.

Lemma append_self (a b : string) : a = a ++ b -> b = "".
Proof.
  induction a as [|x a IH]; simpl; intros H; [now symmetry|]. inversion H. auto.
Qed.

Lemma page_url_inj (url : string) (o : options) (p q : Z) :
  page_url url o p = page_url url o q -> p = q.
Proof.
  rewrite !page_url_shape. intros H.
  apply append_inv_head in H. simpl in H. inversion H as [H'].
  apply append_inv_head in H'. simpl in H'. inversion H' as [H''].
  now apply string_of_Z_inj.
Qed.

Lemma first_url_not_a_page (url : string) (o : options) (p : Z) :
  first_url url o <> page_url url o p.
Proof.
  rewrite page_url_shape. unfold first_url, stringify. simpl. intros H.
  apply append_inv_head in H. inversion H as [H'].
  apply append_self in H'. discriminate.
Qed.

Lemma pages_from_two (tp : option Z) (p : Z) : In p (pages tp) -> (2 <= p)%Z.
Proof.
  destruct tp as [t|]; [|intros []]. intros H. apply pages_In in H. lia.
Qed.

Lemma after_first_queue (url : string) (o : options) (r : result response) :
  exists tp,
    queued (after_first JSON_parse url o r (fetchPaged url o)) =
      map (page_url url o) (pages tp) /\
    issued (after_first JSON_parse url o r (fetchPaged url o)) = [first_url url o].
Proof.
  unfold after_first. destruct r as [res|e]; [|exists None; auto].
  destruct (ensureArrayData JSON_parse url (data res)); [|exists None; auto].
  destruct (single_page _ _); [exists None; auto|].
  exists (parseInt (header res "x-wp-totalpages")). auto.
Qed.

(** A dispatch moves the head of the queue to the end of the requests
    sent; nothing else touches either. *)
Lemma issued_then_queued (url : string) (o : options) (s s' : fetch_state) :
  awaiting_first s = false ->
  steps JSON_parse axios_get url o s s' ->
  (issued s' ++ queued s')%list = (issued s ++ queued s)%list.
Proof.
  intros Ha Hrun. induction Hrun as [|s s' s'' Hstep Hrun IH]; [reflexivity|].
  rewrite IH; [|eapply step_awaiting; eauto].
  inversion Hstep; subst; try congruence.
  - simpl. rewrite H1, <- app_assoc. reflexivity.
  - destruct (on_answer_frame JSON_parse t (taskHandler axios_get t)
                (set_in_flight (before ++ after) s)) as [_ [-> [_ ->]]]. reflexivity.
Qed.

(** X16.  In every state a call of [fetchPaged] can reach, the requests
    sent so far are all different, and each is either the request for the
    first page or the request for a page from 2 on: no URL is requested
    twice, nothing is retried. *)
Theorem no_request_is_repeated (url : string) (o : options) (s : fetch_state) :
  reachable JSON_parse axios_get url o s ->
  NoDup (issued s) /\
  forall u, In u (issued s) ->
    u = first_url url o \/ exists page, (2 <= page)%Z /\ u = page_url url o page.
Proof.
  intros Hs.
  destruct (after_first_queue url o (axios_get (first_url url o))) as [tp [Hq Hi]].
  assert (Hfull : NoDup (first_url url o :: map (page_url url o) (pages tp))).
  { constructor.
    - intros Hin. apply in_map_iff in Hin. destruct Hin as [p [Hp _]].
      symmetry in Hp. now apply first_url_not_a_page in Hp.
    - apply Finite.Injective_map_NoDup.
      + intros p q. apply page_url_inj.
      + destruct tp as [t|]; [apply pages_NoDup|constructor]. }
  assert (Hsplit : exists rest,
            (issued s ++ rest)%list = first_url url o :: map (page_url url o) (pages tp)).
  { destruct (reachable_cases Hs) as [->|Hrun].
    - exists (map (page_url url o) (pages tp)). reflexivity.
    - exists (queued s).
      rewrite (issued_then_queued (proj1 (after_first_frame JSON_parse url o _ _)) Hrun).
      now rewrite Hq, Hi. }
  destruct Hsplit as [rest Hsplit]. rewrite <- Hsplit in Hfull. split.
  - eapply NoDup_app_remove_r; eauto.
  - intros u Hin.
    assert (Hin' : In u (first_url url o :: map (page_url url o) (pages tp))).
    { rewrite <- Hsplit. apply in_app_iff. now left. }
    destruct Hin' as [<-|Hin']; [now left|right].
    apply in_map_iff in Hin'. destruct Hin' as [p [<- Hp]].
    exists p. split; [eapply pages_from_two; eauto|reflexivity].
Qed.

(** ** A failed first request, seen from [apply] *)


(** ** The preview in the error of [ensureArrayData] *)

Lemma substring_prefix_exact (n : nat) (s : string) :
  String.length (substring 0 n s) = Nat.min n (String.length s) /\
  prefix (substring 0 n s) s = true.
Proof.
  revert s. induction n as [|n IH]; intros [|c s]; simpl; auto.
  destruct (IH s) as [Hl Hp]. rewrite Hl, Hp.
  split; [reflexivity|]. now destruct (ascii_dec c c).
Qed.

(** X18.  For a text body that does not parse, [ensureArrayData] throws an
    [Error] whose message is [Failed to fetch], the URL, a line break,
    [Expected JSON response but got:], a line break, a preview, three dots
    and a line break.  The preview is the start of the body with the white
    space around it removed: the whole of it when it has at most 150
    characters, and its first 150 characters otherwise. *)
Theorem malformed_text_error_shows_a_preview (url body : string) :
  JSON_parse body = None ->
  exists preview,
    ensureArrayData JSON_parse url (VStr body) =
      Throw (Error ("Failed to fetch " ++ url ++ nl ++
                    "Expected JSON response but got:" ++ nl ++
                    preview ++ "..." ++ nl)) /\
    prefix preview (trim body) = true /\
    String.length preview = Nat.min 150 (String.length (trim body)).
Proof.
  intros Hp. exists (substring 0 150 (trim body)).
  destruct (substring_prefix_exact 150 (trim body)) as [Hl Hpre].
  repeat split; try assumption.
  unfold ensureArrayData. simpl. now rewrite Hp.
Qed.

(** ** How a fetch ends *)

(** X19.  A promise that is settled stays as it is: whatever happens
    later in the call (a page that finishes, a page that fails, the queue
    draining), the later [resolve] and [reject] change nothing. *)
Theorem a_settled_promise_never_changes (url : string) (o : options)
    (s s' : fetch_state) :
  reachable JSON_parse axios_get url o s ->
  settled s <> Pending ->
  steps JSON_parse axios_get url o s s' ->
  settled s' = settled s.
Proof.
  intros Hs Hp Hrun. refine (settled_steps _ Hp Hrun).
  destruct (reachable_cases Hs) as [->|Hpast]; [now elim Hp|].
  refine (proj1 (issued_and_queued _ Hpast)). apply after_first_frame.
Qed.

Lemma step_uses_up_work (url : string) (o : options) (s s' : fetch_state) :
  awaiting_first s = false ->
  step JSON_parse axios_get url o s s' ->
  2 * List.length (queued s') + List.length (in_flight s') <
  2 * List.length (queued s) + List.length (in_flight s).
Proof.
  intros Ha Hstep. inversion Hstep as [|s0 t rest _ _ Hq _|s0 before t after _ Hf]; subst;
    [congruence| |].
  - simpl. rewrite Hq, length_app. simpl. lia.
  - destruct (on_answer_frame JSON_parse t (taskHandler axios_get t)
                (set_in_flight (before ++ after) s)) as [_ [-> [-> _]]].
    simpl. rewrite Hf, !length_app. simpl. lia.
Qed.

(** X20.  No call of [fetchPaged] goes on for ever: the steps of a fetch
    are well founded.  After the first answer each dispatch and each
    answer uses up work, and nothing adds a task. *)
Theorem every_run_of_a_fetch_is_finite (url : string) (o : options) (s : fetch_state) :
  Acc (fun later earlier => step JSON_parse axios_get url o earlier later) s.
Proof.
  assert (Hpast : forall n s0, awaiting_first s0 = false ->
            2 * List.length (queued s0) + List.length (in_flight s0) < n ->
            Acc (fun later earlier => step JSON_parse axios_get url o earlier later) s0).
  { induction n as [|n IH]; intros s0 Ha Hm; [lia|].
    constructor. intros s1 Hstep. apply IH.
    - eapply step_awaiting; eauto.
    - pose proof (step_uses_up_work Ha Hstep). lia. }
  constructor. intros s1 Hstep.
  apply (Hpast (S (2 * List.length (queued s1) + List.length (in_flight s1)))); [|lia].
  eapply step_awaiting; eauto.
Qed.

(** While the promise is pending after the first answer, the queue is
    alive and has work. *)
Lemma pending_has_work (url : string) (o : options) (s s' : fetch_state) :
  awaiting_first s = false /\
  (settled s = Pending -> destroyed s = false /\ idle s = false) ->
  step JSON_parse axios_get url o s s' ->
  awaiting_first s' = false /\
  (settled s' = Pending -> destroyed s' = false /\ idle s' = false).
Proof.
  intros [Ha Hinv] Hstep. split; [eapply step_awaiting; eauto|].
  inversion Hstep as [|s0 t rest _ Hd Hq _|s0 before t after _ Hf]; subst; [congruence| |].
  - simpl. intros Hp. split; [assumption|].
    unfold idle. simpl. destruct rest; destruct (in_flight s); reflexivity.
  - unfold on_answer. simpl.
    destruct (destroyed s) eqn:Hd; simpl.
    { intros Hp. destruct (Hinv Hp). congruence. }
    destruct (taskHandler axios_get t) as [res|e]; simpl.
    + unfold on_task_finish. simpl.
      destruct (push_page JSON_parse (res_data s) t (data res)) as [acc|err]; simpl;
        rewrite Hd; simpl.
      * match goal with |- context [if ?c then _ else _] => destruct c eqn:Hi end; simpl.
        { intros Hp. destruct (settled s); discriminate. }
        { intros _. split; [assumption|exact Hi]. }
      * match goal with |- context [if ?c then _ else _] => destruct c eqn:Hi end; simpl;
          intros Hp; destruct (settled s); discriminate.
    + intros Hp. destruct (settled s); discriminate.
Qed.

(** X21.  When the first request is answered with a readable number of
    pages and the queue may run at least one task at a time, the promise
    is settled at the end of every run of the call: resolved or rejected,
    never left pending. *)
Theorem an_answered_fetch_settles (url : string) (o : options) (res : response)
    (p : promise) :
  axios_get (first_url url o) = Ok res ->
  parseInt (header res "x-wp-totalpages") <> None ->
  0 < concurrent o ->
  fetch_ends JSON_parse axios_get url o p ->
  p <> Pending.
Proof.
  intros Hfirst Htp Hc [s [Hs [Hfin <-]]] Hp.
  destruct (reachable_cases Hs) as [->|Hpast].
  { eapply Hfin. now apply step_first. }
  assert (Hinv : awaiting_first s = false /\
                 (settled s = Pending -> destroyed s = false /\ idle s = false)).
  { refine (steps_invariant
              (fun x => awaiting_first x = false /\
                        (settled x = Pending -> destroyed x = false /\ idle x = false))
              _ Hpast _).
    - intros x x' Hx Hstep. eapply pending_has_work; eauto.
    - split; [apply after_first_frame|].
      rewrite Hfirst. unfold after_first.
      destruct (ensureArrayData JSON_parse url (data res)); [|discriminate].
      destruct (single_page _ _) eqn:Hsingle; [discriminate|].
      intros _. split; [reflexivity|]. unfold idle. cbn [queued in_flight set_queued set_res_data].
      destruct (parseInt (header res "x-wp-totalpages")) as [T|]; [|congruence].
      assert (HT : (1 < T)%Z).
      { unfold single_page in Hsingle.
        destruct (parseInt (header res "x-wp-total")) as [[| |]|]; try discriminate;
          apply Z.leb_gt in Hsingle; exact Hsingle. }
      pose proof (pages_length T) as Hlen.
      destruct (pages (Some T)); [simpl in Hlen; lia|reflexivity]. }
  destruct Hinv as [Ha Hinv]. destruct (Hinv Hp) as [Hd Hi].
  unfold idle in Hi.
  destruct (in_flight s) as [|t fl] eqn:Hf.
  - destruct (queued s) as [|t rest] eqn:Hq; [discriminate|].
    eapply Hfin. eapply step_dispatch; eauto. rewrite Hf. exact Hc.
  - eapply Hfin. apply (@step_answer JSON_parse axios_get url o s [] t fl); auto.
Qed.

(** X22.  When the first answer reports a number of items other than zero
    and no readable number of pages, the call does not return early, pushes
    no task and so never sees an event of the queue: the promise is pending
    in every state of the call, at its end too, after the one request. *)
Theorem an_unreadable_page_count_never_settles (url : string) (o : options)
    (res : response) (d : value) (n : Z) :
  axios_get (first_url url o) = Ok res ->
  ensureArrayData JSON_parse url (data res) = Ok d ->
  parseInt (header res "x-wp-total") = Some n ->
  n <> 0%Z ->
  parseInt (header res "x-wp-totalpages") = None ->
  (forall s, reachable JSON_parse axios_get url o s ->
             settled s = Pending /\ issued s = [first_url url o]) /\
  fetch_ends JSON_parse axios_get url o Pending.
Proof.
  intros Hfirst Hd Hn Hn0 Htp.
  assert (Hafter : after_first JSON_parse url o (Ok res) (fetchPaged url o) =
            {| awaiting_first := false; settled := Pending; res_data := d;
               queued := []; in_flight := []; destroyed := false;
               issued := [first_url url o] |}).
  { unfold after_first. rewrite Hd, Hn, Htp. destruct n; [congruence| |]; reflexivity. }
  assert (Hfin : finished JSON_parse axios_get url o
            {| awaiting_first := false; settled := Pending; res_data := d;
               queued := []; in_flight := []; destroyed := false;
               issued := [first_url url o] |}) by now apply idle_finished.
  split.
  - intros s Hs. destruct (reachable_cases Hs) as [->|Hrun]; [auto|].
    rewrite Hfirst, Hafter in Hrun. apply (finished_steps Hfin) in Hrun. now subst s.
  - eexists. split; [|split; [exact Hfin|reflexivity]].
    eapply steps_step; [apply step_first; reflexivity|].
    rewrite Hfirst, Hafter. constructor.
Qed.

(** ** The loop over the terms *)


(** ** A malformed first page, seen from [apply] *)


(** ** A body that is JSON and not a list, seen from [apply] *)

(** X25.  [ensureArrayData] does not see to it that the data is an array:
    a text body that parses is returned as parsed.  When discovery has
    completed and the only page of the first content endpoint is the text
    of a JSON object, the fetch resolves with that object, the loop over
    the records throws a [TypeError] (an object is not iterable), and every
    run of [apply] fails with it after the registration calls. *)
Theorem apply_fails_on_a_body_that_is_no_list (cfg : plugin_options)
    (registrations calls : list call) (posts taxonomies : list (string * value))
    (url body : string) (rest : list string) (res : response)
    (props : list (string * value)) (out : outcome) :
  discover axios_get cfg = (registrations, Ok (posts, taxonomies)) ->
  endpoints (restUrl (baseUrl cfg)) posts = url :: rest ->
  axios_get (first_url url {| perPage := opt_perPage cfg;
                              concurrent := opt_concurrent cfg |}) = Ok res ->
  data res = VStr body ->
  JSON_parse body = Some (VObj props) ->
  single_page (parseInt (header res "x-wp-total"))
    (parseInt (header res "x-wp-totalpages")) = true ->
  apply JSON_parse axios_get makeUid cfg calls out ->
  ensureArrayData JSON_parse url (data res) = Ok (VObj props) /\
  calls = registrations /\
  exists message, out = Failed (TypeError message).
Proof.
  intros Hdisc Hurls Hfirst Hdata Hparse Hsingle Hrun.
  set (o := {| perPage := opt_perPage cfg; concurrent := opt_concurrent cfg |}) in *.
  assert (Hnorm : ensureArrayData JSON_parse url (data res) = Ok (VObj props)).
  { unfold ensureArrayData. rewrite Hdata. simpl. now rewrite Hparse. }
  split; [exact Hnorm|].
  assert (Hafter : after_first JSON_parse url o (Ok res) (fetchPaged url o) =
            {| awaiting_first := false; settled := Resolved (VObj props);
               res_data := VObj props; queued := []; in_flight := [];
               destroyed := false; issued := [first_url url o] |}).
  { unfold after_first. now rewrite Hnorm, Hsingle. }
  assert (Hp : forall p, fetch_ends JSON_parse axios_get url o p ->
                         p = Resolved (VObj props)).
  { intros p [s [Hs [Hfin <-]]].
    destruct (reachable_cases Hs) as [->|Hpast].
    - exfalso. eapply Hfin. now apply step_first.
    - rewrite Hfirst, Hafter in Hpast.
      assert (Hidle : finished JSON_parse axios_get url o
                {| awaiting_first := false; settled := Resolved (VObj props);
                   res_data := VObj props; queued := []; in_flight := [];
                   destroyed := false; issued := [first_url url o] |})
        by now apply idle_finished.
      apply (finished_steps Hidle) in Hpast. now subst s. }
  assert (Hstop : forall body0 cs o1,
            run_endpoints JSON_parse axios_get o body0 (url :: rest) cs o1 ->
            cs = [] /\ exists message, o1 = Failed (TypeError message)).
  { intros body0 cs o1 H.
    inversion H as [|u r f c c' o2 Hf Hloop|u r f c e' Hf Hloop|u r e' Hf|u r Hf]; subst;
      apply Hp in Hf; try discriminate; inversion Hf; subst f;
      unfold for_of in Hloop; simpl in Hloop; inversion Hloop; subst.
    split; [reflexivity|]. eexists. reflexivity. }
  inversion Hrun as [cs e' Hd|cs p t c1 o1 Hd H1|cs p t c1 c2 o1 Hd H1 H2]; subst;
    rewrite Hdisc in Hd; inversion Hd; subst; rewrite Hurls in H1;
    apply Hstop in H1; destruct H1 as [-> [message Hout]]; try discriminate.
  split; [now rewrite app_nil_r|]. now exists message.
Qed.

End Further.

(** * The further properties on the small sites *)

(** The site that does not answer: the one run of [apply] makes no call
    and fails with the message that names the configured base URL. *)
Lemma unreachable_base_fails_before_any_call_witness :
  apply json_parse down_site (fun raw => raw) demo_config []
    (Failed (Error "Failed to fetch baseUrl http://wp.test//")) /\
  forall calls out,
    apply json_parse down_site (fun raw => raw) demo_config calls out ->
    calls = [] /\
    out = Failed (Error ("Failed to fetch baseUrl " ++ baseUrl demo_config)).
Proof.
  split.
  - apply apply_play_sound with [] []. vm_compute. reflexivity.
  - intros calls out.
    exact (@unreachable_base_fails_before_any_call json_parse down_site
             (fun raw => raw) demo_config not_found calls out eq_refl).
Defined.

(** The site without a listing of taxonomies: no type is registered,
    although the listing of types was answered. *)
Lemma listing_failure_fails_before_any_call_witness :
  apply json_parse half_site (fun raw => raw) demo_config [] (Failed not_found) /\
  forall calls out,
    apply json_parse half_site (fun raw => raw) demo_config calls out ->
    calls = [] /\ out = Failed not_found.
Proof.
  split.
  - apply apply_play_sound with [] []. vm_compute. reflexivity.
  - intros calls out.
    apply (@listing_failure_fails_before_any_call json_parse half_site
             (fun raw => raw) demo_config {| data := VObj []; headers := [] |} not_found).
    + reflexivity.
    + right. split; [|reflexivity]. eexists. reflexivity.
Defined.

(** The site with the odd type names: [post], [constructor] and
    [__proto__] are registered, the last two with what [Object.prototype]
    has under their names as route; [attachment] is not. *)
Lemma discover_registers_every_type_witness :
  [addType "post" (VStr "Posts") (VStr "/:year/:month/:day/:slug");
   addType "constructor" (VStr "Makers") (Inherited "constructor");
   addType "__proto__" (VStr "Protos") (Inherited "__proto__")] =
  (map (fun typeName =>
          addType typeName (field odd_types typeName "name")
            (route_of (merged_routes []) typeName))
       ["post"; "constructor"; "__proto__"] ++
   map (fun typeName =>
          addType typeName (field (VObj []) typeName "name")
            (route_of (merged_routes []) typeName))
       [])%list.
Proof.
  exact (@discover_registers_every_type odd_site demo_config
           [addType "post" (VStr "Posts") (VStr "/:year/:month/:day/:slug");
            addType "constructor" (VStr "Makers") (Inherited "constructor");
            addType "__proto__" (VStr "Protos") (Inherited "__proto__")]
           [("post", VStr "posts"); ("constructor", VStr "makers")] []
           {| data := odd_types; headers := [] |}
           {| data := VObj []; headers := [] |}
           eq_refl eq_refl eq_refl).
Defined.

(** On that site the loop over [restBases.posts] sees [post] and
    [constructor]: neither [attachment] nor [__proto__] has an entry. *)
Lemma attachment_is_never_fetched_witness :
  lookup "attachment" [("post", VStr "posts"); ("constructor", VStr "makers")] = None /\
  lookup "__proto__" [("post", VStr "posts"); ("constructor", VStr "makers")] = None /\
  lookup "constructor" [("post", VStr "posts"); ("constructor", VStr "makers")] =
    Some (VStr "makers").
Proof.
  exact (@attachment_is_never_fetched odd_site demo_config
           [addType "post" (VStr "Posts") (VStr "/:year/:month/:day/:slug");
            addType "constructor" (VStr "Makers") (Inherited "constructor");
            addType "__proto__" (VStr "Protos") (Inherited "__proto__")]
           [("post", VStr "posts"); ("constructor", VStr "makers")] []
           {| data := odd_types; headers := [] |}
           "constructor" eq_refl eq_refl eq_refl).
Defined.

Lemma restUrl_ignores_trailing_slashes_witness :
  restUrl ("http://wp.test" ++ "//") = restUrl "http://wp.test".
Proof.
  apply restUrl_ignores_trailing_slashes. reflexivity.
Defined.

(** Three records, the second of them [null]: one call is made, for the
    first record, and the loop throws on the second; the third is not
    looked at. *)
Lemma for_of_emits_up_to_the_first_throw_witness :
  exists done rest,
    [demo_post 1 []; VNull; demo_post 2 []] = (done ++ rest)%list /\
    Forall2 (fun record c => post_call (fun raw => raw) [] record = Ok c) done
      [addNode (VStr "post")
         (PostNode "post-1" (VStr "Hello") None (VStr "hello") (VStr "") (VStr "") [])] /\
    exists bad rest',
      rest = bad :: rest' /\
      post_call (fun raw => raw) [] bad =
        Throw (TypeError "Cannot read properties of null").
Proof.
  exact (@for_of_emits_up_to_the_first_throw (post_call (fun raw => raw) [])
           (VArr [demo_post 1 []; VNull; demo_post 2 []])
           [demo_post 1 []; VNull; demo_post 2 []]
           [addNode (VStr "post")
              (PostNode "post-1" (VStr "Hello") None (VStr "hello") (VStr "") (VStr "") [])]
           (Throw (TypeError "Cannot read properties of null"))
           eq_refl eq_refl).
Defined.

(** The post with [categories: [3, 7]] and the term with id 3: the
    reference [term-3] of the post is the id of the term's node. *)
Lemma reference_is_the_term_node_id_witness :
  exists k slug title count targets,
    addNode (VStr "category") (TermNode "term-3" (VStr "news") (VStr "News") (VNum 2)) =
      addNode k (TermNode (makeTermId (fun raw => raw) (VNum 3)) slug title count) /\
    lookup "category" [("category", ["term-3"; "term-7"])] = Some targets /\
    In (makeTermId (fun raw => raw) (VNum 3)) targets.
Proof.
  apply (@reference_is_the_term_node_id (fun raw => raw)
           [("category", VStr "categories")] (demo_post 1 [3; 7]%Z) (demo_term 3)
           (VNum 3) [VNum 3; VNum 7] "category").
  - reflexivity.
  - simpl. auto.
  - discriminate.
  - reflexivity.
  - simpl. auto.
  - reflexivity.
  - reflexivity.
Defined.

Lemma numeric_ids_keep_apart_witness :
  makePostId (fun raw => raw) (VNum 3) <> makePostId (fun raw => raw) (VNum 4) /\
  makeTermId (fun raw => raw) (VNum 3) <> makeTermId (fun raw => raw) (VNum 4).
Proof.
  destruct (@numeric_ids_keep_apart (fun raw => raw) 3%Z 4%Z (fun a b Hab => Hab))
    as [Hpost Hterm].
  split; intros H; [apply Hpost in H|apply Hterm in H]; discriminate.
Defined.

(** A complete run on the small site: two registrations, then seven
    nodes. *)
Lemma types_are_registered_before_nodes_witness :
  exists registrations nodes,
    demo_calls [First; Dispatch; Dispatch; Answer 1; Answer 0] =
      (registrations ++ nodes)%list /\
    Forall is_addType registrations /\ Forall is_addNode nodes.
Proof.
  apply (@types_are_registered_before_nodes json_parse demo_site (fun raw => raw)
           demo_config _ Done).
  apply apply_play_sound with [[First; Dispatch; Dispatch; Answer 1; Answer 0]] [[First]].
  vm_compute. reflexivity.
Defined.



(** [/flaky] has lost its second page: no call of [fetchPaged] for it
    resolves. *)
Lemma a_failed_page_prevents_resolution_witness :
  demo_site (page_url (demo_base ++ "/flaky") demo_options 2) = Throw not_found /\
  forall v,
    ~ fetch_ends json_parse demo_site (demo_base ++ "/flaky") demo_options (Resolved v).
Proof.
  split; [reflexivity|]. intros v.
  apply (@a_failed_page_prevents_resolution json_parse demo_site (demo_base ++ "/flaky")
           demo_options
           {| data := VArr [demo_post 1 []; demo_post 2 []]; headers := paged "5" "3" |}
           5%Z 3%Z 2%Z).
  - reflexivity.
  - reflexivity.
  - discriminate.
  - reflexivity.
  - lia.
  - lia.
  - left. exists not_found. reflexivity.
Defined.

(** [/posts] on the site whose first page is an HTML page: one request,
    nothing queued, the promise rejected with the normalization error. *)
Lemma malformed_first_page_rejects_witness :
  issued
    (play json_parse broken_site (demo_base ++ "/posts") demo_options [First]
       (fetchPaged (demo_base ++ "/posts") demo_options)) =
    [first_url (demo_base ++ "/posts") demo_options] /\
  queued
    (play json_parse broken_site (demo_base ++ "/posts") demo_options [First]
       (fetchPaged (demo_base ++ "/posts") demo_options)) = [] /\
  (awaiting_first
     (play json_parse broken_site (demo_base ++ "/posts") demo_options [First]
        (fetchPaged (demo_base ++ "/posts") demo_options)) = false ->
   settled
     (play json_parse broken_site (demo_base ++ "/posts") demo_options [First]
        (fetchPaged (demo_base ++ "/posts") demo_options)) =
     Rejected (Error (malformed_message "http://wp.test/wp-json/wp/v2/posts"
                        "<html>Error</html>"))) /\
  fetch_ends json_parse broken_site (demo_base ++ "/posts") demo_options
    (Rejected (Error (malformed_message "http://wp.test/wp-json/wp/v2/posts"
                        "<html>Error</html>"))).
Proof.
  apply (@malformed_first_page_rejects json_parse broken_site (demo_base ++ "/posts")
           demo_options {| data := VStr "<html>Error</html>"; headers := [] |}).
  - reflexivity.
  - reflexivity.
  - apply play_steps.
Defined.

(** [/posts] with all three requests sent. *)
Lemma no_request_is_repeated_witness :
  NoDup
    (issued
       (play json_parse demo_site (demo_base ++ "/posts") demo_options
          [First; Dispatch; Dispatch]
          (fetchPaged (demo_base ++ "/posts") demo_options))) /\
  forall u,
    In u (issued
            (play json_parse demo_site (demo_base ++ "/posts") demo_options
               [First; Dispatch; Dispatch]
               (fetchPaged (demo_base ++ "/posts") demo_options))) ->
    u = first_url (demo_base ++ "/posts") demo_options \/
    exists page,
      (2 <= page)%Z /\ u = page_url (demo_base ++ "/posts") demo_options page.
Proof.
  apply (@no_request_is_repeated json_parse demo_site (demo_base ++ "/posts") demo_options).
  apply play_steps.
Defined.


(** An HTML page with blanks around it: the preview is the page without
    the blanks. *)
Lemma malformed_text_error_shows_a_preview_witness :
  exists preview,
    ensureArrayData json_parse "http://wp.test/wp-json/wp/v2/posts"
      (VStr "  <html>Error</html>  ") =
      Throw (Error ("Failed to fetch " ++ "http://wp.test/wp-json/wp/v2/posts" ++ nl ++
                    "Expected JSON response but got:" ++ nl ++
                    preview ++ "..." ++ nl)) /\
    prefix preview (trim "  <html>Error</html>  ") = true /\
    String.length preview = Nat.min 150 (String.length (trim "  <html>Error</html>  ")).
Proof.
  apply malformed_text_error_shows_a_preview. reflexivity.
Defined.

(** [/mixed] fetched one request at a time: the promise is rejected when
    the HTML page arrives, and stays rejected when page 3 has arrived and
    the drained queue calls [resolve]. *)
Lemma a_settled_promise_never_changes_witness :
  settled
    (play json_parse demo_site (demo_base ++ "/mixed") {| perPage := 2; concurrent := 1 |}
       [First; Dispatch; Answer 0; Dispatch; Answer 0]
       (fetchPaged (demo_base ++ "/mixed") {| perPage := 2; concurrent := 1 |})) =
  settled
    (play json_parse demo_site (demo_base ++ "/mixed") {| perPage := 2; concurrent := 1 |}
       [First; Dispatch; Answer 0]
       (fetchPaged (demo_base ++ "/mixed") {| perPage := 2; concurrent := 1 |})).
Proof.
  apply (@a_settled_promise_never_changes json_parse demo_site (demo_base ++ "/mixed")
           {| perPage := 2; concurrent := 1 |}).
  - apply play_steps.
  - discriminate.
  - apply (play_steps json_parse demo_site (demo_base ++ "/mixed")
             {| perPage := 2; concurrent := 1 |} [Dispatch; Answer 0]).
Defined.

(** [/posts] and [/flaky] run to their ends: one resolved, one rejected. *)
Lemma an_answered_fetch_settles_witness :
  settled
    (play json_parse demo_site (demo_base ++ "/posts") demo_options
       [First; Dispatch; Dispatch; Answer 1; Answer 0]
       (fetchPaged (demo_base ++ "/posts") demo_options)) <> Pending /\
  settled
    (play json_parse demo_site (demo_base ++ "/flaky") demo_options
       [First; Dispatch; Dispatch; Answer 0]
       (fetchPaged (demo_base ++ "/flaky") demo_options)) <> Pending.
Proof.
  split.
  - apply (@an_answered_fetch_settles json_parse demo_site (demo_base ++ "/posts")
             demo_options
             {| data := VArr [demo_post 1 [3; 7]%Z; demo_post 2 []];
                headers := paged "5" "3" |}).
    + reflexivity.
    + discriminate.
    + simpl. lia.
    + apply (@play_ends json_parse demo_site (demo_base ++ "/posts") demo_options
               [First; Dispatch; Dispatch; Answer 1; Answer 0]); reflexivity.
  - apply (@an_answered_fetch_settles json_parse demo_site (demo_base ++ "/flaky")
             demo_options
             {| data := VArr [demo_post 1 []; demo_post 2 []]; headers := paged "5" "3" |}).
    + reflexivity.
    + discriminate.
    + simpl. lia.
    + apply (@play_settled_ends json_parse demo_site (demo_base ++ "/flaky") demo_options
               [First; Dispatch; Dispatch; Answer 0]). discriminate.
Defined.

(** The site without a number of pages: the call ends with its promise
    pending. *)
Lemma an_unreadable_page_count_never_settles_witness :
  (forall s,
     reachable json_parse headless_site (demo_base ++ "/posts") demo_options s ->
     settled s = Pending /\ issued s = [first_url (demo_base ++ "/posts") demo_options]) /\
  fetch_ends json_parse headless_site (demo_base ++ "/posts") demo_options Pending.
Proof.
  apply (@an_unreadable_page_count_never_settles json_parse headless_site
           (demo_base ++ "/posts") demo_options
           {| data := VArr [demo_post 1 []]; headers := [("x-wp-total", "5")] |}
           (VArr [demo_post 1 []]) 5%Z).
  - reflexivity.
  - reflexivity.
  - reflexivity.
  - discriminate.
  - reflexivity.
Defined.



(** The small site with [{}] as the pages of [/posts]: the fetch resolves
    with the empty object, and the run fails at [for (const post of posts)]. *)
Lemma apply_fails_on_a_body_that_is_no_list_witness :
  apply json_parse object_site (fun raw => raw) demo_config
    [addType "post" (VStr "Posts") (VStr "/:year/:month/:day/:slug");
     addType "category" (VStr "Categories") (VStr "/category/:slug")]
    (Failed (TypeError "[object Object] is not iterable")) /\
  forall calls out,
    apply json_parse object_site (fun raw => raw) demo_config calls out ->
    ensureArrayData json_parse (demo_base ++ "/posts") (VStr "{}") = Ok (VObj []) /\
    calls = [addType "post" (VStr "Posts") (VStr "/:year/:month/:day/:slug");
             addType "category" (VStr "Categories") (VStr "/category/:slug")] /\
    exists message, out = Failed (TypeError message).
Proof.
  split.
  - apply apply_play_sound with [[First]] []. vm_compute. reflexivity.
  - intros calls out.
    exact (@apply_fails_on_a_body_that_is_no_list json_parse object_site (fun raw => raw)
             demo_config
             [addType "post" (VStr "Posts") (VStr "/:year/:month/:day/:slug");
              addType "category" (VStr "Categories") (VStr "/category/:slug")]
             calls [("post", VStr "posts")] [("category", VStr "categories")]
             (demo_base ++ "/posts") "{}" []
             {| data := VStr "{}"; headers := [] |} [] out
             eq_refl eq_refl eq_refl eq_refl eq_refl eq_refl).
Defined.
